(** * use-query-string-state: a state object mirrored into the URL query string

    Shallow embedding of [src/use-query-string-state.ts] and of the platform
    operations it calls (UTF-16 strings, [encodeURIComponent],
    [URLSearchParams], [Number], property assignment), followed by the
    properties of the specification that hold of it and the inputs on which
    the others fail. *)

From Stdlib Require Import ZArith List Bool Lia String Ascii.
From Stdlib Require Import Floats.SpecFloat Sorting.Permutation.
Import ListNotations.
Open Scope Z_scope.

(** ** Results of fallible steps *)

Inductive exn := URIError | TypeError | ReferenceError | SecurityError | CodecError.

Inductive result (A : Type) := Ok (a : A) | Throw (e : exn).
Arguments Ok {A} a.
Arguments Throw {A} e.

Definition rbind {A B} (r : result A) (k : A -> result B) : result B :=
  match r with Ok a => k a | Throw e => Throw e end.

(** ** Strings: sequences of UTF-16 code units *)

Definition jsstring := list Z.

Definition js (s : string) : jsstring :=
  map (fun a => Z.of_N (N_of_ascii a)) (list_ascii_of_string s).
Arguments js s%_string.

Definition streqb (a b : jsstring) : bool :=
  if list_eq_dec Z.eq_dec a b then true else false.

Definition is_high_surrogate (c : Z) := (0xD800 <=? c) && (c <=? 0xDBFF).
Definition is_low_surrogate (c : Z) := (0xDC00 <=? c) && (c <=? 0xDFFF).
Definition is_surrogate (c : Z) := (0xD800 <=? c) && (c <=? 0xDFFF).

Definition surrogate_pair (h l : Z) : Z :=
  0x10000 + (h - 0xD800) * 0x400 + (l - 0xDC00).

(** ECMAScript StringToCodePoints: a high surrogate followed by a low one is
    one code point; any other surrogate stays as it is (unpaired). *)
Fixpoint StringToCodePoints (s : jsstring) : list Z :=
  match s with
  | [] => []
  | c :: rest =>
      match rest with
      | d :: rest' =>
          if is_high_surrogate c && is_low_surrogate d
          then surrogate_pair c d :: StringToCodePoints rest'
          else c :: StringToCodePoints rest
      | [] => [c]
      end
  end.

Definition utf16_encode (cp : Z) : jsstring :=
  if cp <? 0x10000 then [cp]
  else [0xD800 + (cp - 0x10000) / 0x400; 0xDC00 + (cp - 0x10000) mod 0x400].

Definition CodePointsToString (cps : list Z) : jsstring :=
  flat_map utf16_encode cps.

(** Conversion to a scalar-value string (Web IDL USVString). *)
Definition to_usv (s : jsstring) : list Z :=
  map (fun cp => if is_surrogate cp then 0xFFFD else cp) (StringToCodePoints s).

(** ** UTF-8 *)

Definition utf8_encode (cp : Z) : list Z :=
  if cp <? 0x80 then [cp]
  else if cp <? 0x800 then [0xC0 + cp / 0x40; 0x80 + cp mod 0x40]
  else if cp <? 0x10000 then
    [0xE0 + cp / 0x1000; 0x80 + (cp / 0x40) mod 0x40; 0x80 + cp mod 0x40]
  else
    [0xF0 + cp / 0x40000; 0x80 + (cp / 0x1000) mod 0x40;
     0x80 + (cp / 0x40) mod 0x40; 0x80 + cp mod 0x40].

(** Decoder state after a lead byte: the bits read so far, the number of
    continuation bytes still needed and the bounds on the next byte. *)
Record utf8_pending := Pending { u_cp : Z; u_needed : nat; u_lower : Z; u_upper : Z }.

Definition utf8_lead (b : Z) : Z + utf8_pending :=
  if b <=? 0x7F then inl b
  else if (0xC2 <=? b) && (b <=? 0xDF) then inr (Pending (b - 0xC0) 1 0x80 0xBF)
  else if (0xE0 <=? b) && (b <=? 0xEF) then
    inr (Pending (b - 0xE0) 2 (if b =? 0xE0 then 0xA0 else 0x80)
                              (if b =? 0xED then 0x9F else 0xBF))
  else if (0xF0 <=? b) && (b <=? 0xF4) then
    inr (Pending (b - 0xF0) 3 (if b =? 0xF0 then 0x90 else 0x80)
                              (if b =? 0xF4 then 0x8F else 0xBF))
  else inl 0xFFFD.

(** The UTF-8 decoder of the Encoding standard with error mode replacement:
    a byte out of bounds ends the sequence with U+FFFD and is read again as
    the start of a new one. *)
Fixpoint utf8_decode_from (st : option utf8_pending) (bytes : list Z) : list Z :=
  match bytes with
  | [] => match st with None => [] | Some _ => [0xFFFD] end
  | b :: rest =>
      match st with
      | None =>
          match utf8_lead b with
          | inl cp => cp :: utf8_decode_from None rest
          | inr p => utf8_decode_from (Some p) rest
          end
      | Some p =>
          if (u_lower p <=? b) && (b <=? u_upper p) then
            let cp := u_cp p * 0x40 + (b - 0x80) in
            match u_needed p with
            | S (S n) => utf8_decode_from (Some (Pending cp (S n) 0x80 0xBF)) rest
            | _ => cp :: utf8_decode_from None rest
            end
          else
            0xFFFD ::
            match utf8_lead b with
            | inl cp => cp :: utf8_decode_from None rest
            | inr p' => utf8_decode_from (Some p') rest
            end
      end
  end.

Definition utf8_decode (bytes : list Z) : list Z := utf8_decode_from None bytes.

(** ** Percent-encoding *)

Definition hex_digit (d : Z) : Z := if d <? 10 then 48 + d else 55 + d.

Definition hex_value (c : Z) : option Z :=
  if (48 <=? c) && (c <=? 57) then Some (c - 48)
  else if (65 <=? c) && (c <=? 70) then Some (c - 55)
  else if (97 <=? c) && (c <=? 102) then Some (c - 87)
  else None.

Definition percent_byte (b : Z) : list Z := [37; hex_digit (b / 16); hex_digit (b mod 16)].

Fixpoint percent_decode (bytes : list Z) : list Z :=
  match bytes with
  | [] => []
  | b :: rest =>
      if b =? 37 then
        match rest with
        | h :: l :: rest' =>
            match hex_value h, hex_value l with
            | Some x, Some y => (16 * x + y) :: percent_decode rest'
            | _, _ => 37 :: percent_decode rest
            end
        | _ => 37 :: percent_decode rest
        end
      else b :: percent_decode rest
  end.

Definition is_alnum (c : Z) : bool :=
  ((48 <=? c) && (c <=? 57)) || ((65 <=? c) && (c <=? 90)) || ((97 <=? c) && (c <=? 122)).

(** Code units [encodeURIComponent] leaves as they are: letters, digits and
    [- _ . ! ~ * ' ( )]. *)
Definition uri_unescaped (c : Z) : bool :=
  is_alnum c || existsb (Z.eqb c) [45; 95; 46; 33; 126; 42; 39; 40; 41].

Definition encode_code_point (cp : Z) : result jsstring :=
  if uri_unescaped cp then Ok [cp]
  else if is_surrogate cp then Throw URIError
  else Ok (flat_map percent_byte (utf8_encode cp)).

Fixpoint encode_code_points (cps : list Z) : result jsstring :=
  match cps with
  | [] => Ok []
  | cp :: rest =>
      rbind (encode_code_point cp) (fun e =>
      rbind (encode_code_points rest) (fun r => Ok (e ++ r)))
  end.

(** [encodeURIComponent] applied to a string: URIError on an unpaired
    surrogate. *)
Definition encodeURIComponent_string (s : jsstring) : result jsstring :=
  encode_code_points (StringToCodePoints s).

(** ** application/x-www-form-urlencoded and URLSearchParams *)

Fixpoint split_on (sep : Z) (s : list Z) : list (list Z) :=
  match s with
  | [] => [[]]
  | c :: rest =>
      if c =? sep then [] :: split_on sep rest
      else match split_on sep rest with
           | seg :: segs => (c :: seg) :: segs
           | [] => [[c]]
           end
  end.

(** The parts before and after the first [sep], if there is one. *)
Fixpoint split_first (sep : Z) (s : list Z) : option (list Z * list Z) :=
  match s with
  | [] => None
  | c :: rest =>
      if c =? sep then Some ([], rest)
      else match split_first sep rest with
           | Some (a, b) => Some (c :: a, b)
           | None => None
           end
  end.

Fixpoint join (sep : jsstring) (parts : list jsstring) : jsstring :=
  match parts with
  | [] => []
  | p :: rest =>
      match rest with
      | [] => p
      | _ :: _ => p ++ sep ++ join sep rest
      end
  end.

Definition plus_to_space (bytes : list Z) : list Z :=
  map (fun b => if b =? 43 then 32 else b) bytes.

Definition urlencoded_decode (bytes : list Z) : jsstring :=
  CodePointsToString (utf8_decode (percent_decode (plus_to_space bytes))).

Definition urlencoded_parse_sequence (bytes : list Z) : list (jsstring * jsstring) :=
  match bytes with
  | [] => []
  | _ :: _ =>
      match split_first 61 bytes with
      | Some (name, value) => [(urlencoded_decode name, urlencoded_decode value)]
      | None => [(urlencoded_decode bytes, [])]
      end
  end.

Definition urlencoded_parse (input : list Z) : list (jsstring * jsstring) :=
  flat_map urlencoded_parse_sequence (split_on 38 input).

Definition utf8_bytes (s : jsstring) : list Z := flat_map utf8_encode (to_usv s).

(** Only letters, digits and [* - . _] are outside the urlencoded
    percent-encode set; a space is written [+]. *)
Definition urlencoded_safe (b : Z) : bool :=
  is_alnum b || existsb (Z.eqb b) [42; 45; 46; 95].

Definition urlencoded_serialize_byte (b : Z) : list Z :=
  if b =? 32 then [43] else if urlencoded_safe b then [b] else percent_byte b.

Definition urlencoded_serialize_string (s : jsstring) : jsstring :=
  flat_map urlencoded_serialize_byte (utf8_bytes s).

(** A URLSearchParams object is its list of name-value pairs. *)
Definition URLSearchParams := list (jsstring * jsstring).

(** [new URLSearchParams(init)] for a string: a leading [?] is dropped. *)
Definition new_URLSearchParams (init : jsstring) : URLSearchParams :=
  urlencoded_parse
    (utf8_bytes match init with
                | c :: rest => if c =? 63 then rest else init
                | [] => init
                end).

Definition usp_keys (p : URLSearchParams) : list jsstring := map fst p.

Definition usp_getAll (key : jsstring) (p : URLSearchParams) : list jsstring :=
  map snd (filter (fun kv => streqb (fst kv) key) p).

Definition usp_get (key : jsstring) (p : URLSearchParams) : option jsstring :=
  hd_error (usp_getAll key p).

Definition usp_delete (key : jsstring) (p : URLSearchParams) : URLSearchParams :=
  filter (fun kv => negb (streqb (fst kv) key)) p.

Definition usp_toString (p : URLSearchParams) : jsstring :=
  join [38]
    (map (fun kv => urlencoded_serialize_string (fst kv) ++ 61 :: urlencoded_serialize_string (snd kv)) p).

(** [new Set(keys)]: the distinct keys in order of first occurrence. *)
Fixpoint unique (l : list jsstring) : list jsstring :=
  match l with
  | [] => []
  | k :: rest => k :: filter (fun x => negb (streqb x k)) (unique rest)
  end.

(** ** Numbers: IEEE 754 binary64 values *)

Definition number := spec_float.
Definition b64_prec : Z := 53.
Definition b64_emax : Z := 1024.

Definition is_finite (n : number) : bool :=
  match n with
  | S754_zero _ | S754_finite _ _ _ => true
  | S754_infinity _ | S754_nan => false
  end.

(** The number nearest to [m * 10 ^ e] (ties to even), for [0 <= m]. *)
Definition round_decimal (neg : bool) (m e : Z) : number :=
  match m with
  | Zpos p =>
      if 0 <=? e then binary_round b64_prec b64_emax neg (p * Z.to_pos (10 ^ e)) 0
      else
        let '(q, e', l) := SFdiv_core_binary b64_prec b64_emax (Zpos p) 0 (10 ^ (- e)) 0 in
        binary_round_aux b64_prec b64_emax neg q e' l
  | _ => S754_zero neg
  end.

(** WhiteSpace and LineTerminator code units, as [trim] and the numeric
    string grammar use them. *)
Definition is_whitespace (c : Z) : bool :=
  ((9 <=? c) && (c <=? 13)) || (c =? 32) || (c =? 0xA0) || (c =? 0x1680)
  || ((0x2000 <=? c) && (c <=? 0x200A)) || (c =? 0x2028) || (c =? 0x2029)
  || (c =? 0x202F) || (c =? 0x205F) || (c =? 0x3000) || (c =? 0xFEFF).

Fixpoint trim_start (s : jsstring) : jsstring :=
  match s with
  | c :: rest => if is_whitespace c then trim_start rest else s
  | [] => []
  end.

Definition trim (s : jsstring) : jsstring := rev (trim_start (rev (trim_start s))).

Definition digit_value (base c : Z) : option Z :=
  match hex_value c with
  | Some d => if d <? base then Some d else None
  | None => None
  end.

(** The longest prefix of digits in [base], as digit values, and the rest. *)
Fixpoint span_digits (base : Z) (s : jsstring) : list Z * jsstring :=
  match s with
  | c :: rest =>
      match digit_value base c with
      | Some d => let '(ds, r) := span_digits base rest in (d :: ds, r)
      | None => ([], s)
      end
  | [] => ([], [])
  end.

Definition digits_to_Z (base : Z) (ds : list Z) : Z :=
  fold_left (fun acc d => acc * base + d) ds 0.

Definition parse_exponent (s : jsstring) : option Z :=
  let '(neg, s1) :=
    match s with
    | c :: r => if c =? 43 then (false, r) else if c =? 45 then (true, r) else (false, s)
    | [] => (false, s)
    end in
  match span_digits 10 s1 with
  | ((_ :: _) as ds, []) => Some (if neg : bool then - digits_to_Z 10 ds else digits_to_Z 10 ds)
  | _ => None
  end.

(** StrUnsignedDecimalLiteral: [Infinity], or digits with an optional
    fraction and an optional exponent. *)
Definition parse_unsigned_decimal (neg : bool) (s : jsstring) : number :=
  if streqb s (js "Infinity") then S754_infinity neg
  else
    let '(ip, s1) := span_digits 10 s in
    let '(fp, s2) :=
      match s1 with
      | c :: r => if c =? 46 then span_digits 10 r else ([], s1)
      | [] => ([], s1)
      end in
    match ip ++ fp with
    | [] => S754_nan
    | (_ :: _) as ds =>
        match s2 with
        | [] => round_decimal neg (digits_to_Z 10 ds) (- Z.of_nat (List.length fp))
        | c :: r =>
            if (c =? 101) || (c =? 69) then
              match parse_exponent r with
              | Some x => round_decimal neg (digits_to_Z 10 ds) (x - Z.of_nat (List.length fp))
              | None => S754_nan
              end
            else S754_nan
        end
    end.

Definition parse_radix (base : Z) (s : jsstring) : number :=
  match span_digits base s with
  | ((_ :: _) as ds, []) => round_decimal false (digits_to_Z base ds) 0
  | _ => S754_nan
  end.

(** ECMAScript StringToNumber, which [Number(s)] and [+s] apply to a string. *)
Definition StringToNumber (str : jsstring) : number :=
  match trim str with
  | [] => S754_zero false
  | c :: r =>
      if c =? 43 then parse_unsigned_decimal false r
      else if c =? 45 then parse_unsigned_decimal true r
      else
        match r with
        | x :: r' =>
            if (c =? 48) && ((x =? 120) || (x =? 88)) then parse_radix 16 r'
            else if (c =? 48) && ((x =? 111) || (x =? 79)) then parse_radix 8 r'
            else if (c =? 48) && ((x =? 98) || (x =? 66)) then parse_radix 2 r'
            else parse_unsigned_decimal false (c :: r)
        | [] => parse_unsigned_decimal false (c :: r)
        end
  end.

(** The digits of [n] before [acc], at most [fuel + 1] of them. *)
Fixpoint decimal_digits_fuel (fuel : nat) (n : Z) (acc : list Z) : list Z :=
  match fuel with
  | O => n mod 10 :: acc
  | S fuel' =>
      if n <? 10 then n mod 10 :: acc
      else decimal_digits_fuel fuel' (n / 10) (n mod 10 :: acc)
  end.

(** The decimal digits of [0 <= n], most significant first. *)
Definition decimal_digits (n : Z) : list Z :=
  decimal_digits_fuel (Z.to_nat (Z.log2 n)) n [].

Definition digit_chars (ds : list Z) : jsstring := map (fun d => 48 + d mod 10) ds.

(** Trailing zeros of the digits (given last digit first) moved into the
    exponent [t]. *)
Fixpoint strip_zeros (rev_ds : list Z) (t : Z) : list Z * Z :=
  match rev_ds with
  | d :: rest => if (d =? 0) && negb (match rest with [] => true | _ => false end)
                 then strip_zeros rest (t + 1) else (rev_ds, t)
  | [] => ([], t)
  end.

(** For the positive number [x = p / q]: the decimal exponent [n] with
    [10 ^ (n - 1) <= x < 10 ^ n]. *)
Definition decimal_exponent (p q : Z) : Z :=
  if q <=? p then Z.of_nat (List.length (decimal_digits (p / q)))
  else 1 - Z.of_nat (List.length (decimal_digits (q / p))).

(** The candidates with [k] digits around [p / q]: the one that reads back
    as [x] and is nearest to it (the even one on a tie), if any. *)
Definition shortest_candidate (x : number) (p q n k : Z) : option (Z * Z) :=
  let t := n - k in
  let num := if t <? 0 then p * 10 ^ (- t) else p in
  let den := if t <? 0 then q else q * 10 ^ t in
  let lo := num / den in
  let ok c := match x, round_decimal false c t with
              | S754_finite _ m e, S754_finite _ m' e' => (Pos.eqb m m') && (e =? e')
              | _, _ => false
              end in
  match ok lo, ok (lo + 1) with
  | true, false => Some (lo, t)
  | false, true => Some (lo + 1, t)
  | true, true =>
      match 2 * num ?= (2 * lo + 1) * den with
      | Lt => Some (lo, t)
      | Gt => Some (lo + 1, t)
      | Eq => Some (if Z.even lo then lo else lo + 1, t)
      end
  | false, false => None
  end.

(** The fewest digits that read back as [x], tried from [k] upwards; a
    binary64 value needs at most seventeen, and the digits cut after [fuel]
    more are the answer should none be found before. *)
Fixpoint shortest_digits (fuel : nat) (x : number) (p q n k : Z) : Z * Z :=
  match fuel with
  | O => ((if n - k <? 0 then p * 10 ^ (k - n) else p) / (if n - k <? 0 then q else q * 10 ^ (n - k)), n - k)
  | S fuel' =>
      match shortest_candidate x p q n k with
      | Some r => r
      | None => shortest_digits fuel' x p q n (k + 1)
      end
  end.

Definition repeat_zero (n : Z) : jsstring := repeat 48 (Z.to_nat n).

(** Number::toString for a positive finite number with digits [ds] and
    decimal exponent [n]. *)
Definition render_decimal (ds : list Z) (n : Z) : jsstring :=
  let k := Z.of_nat (List.length ds) in
  if (k <=? n) && (n <=? 21) then digit_chars ds ++ repeat_zero (n - k)
  else if (0 <? n) && (n <=? 21) then
    digit_chars (firstn (Z.to_nat n) ds) ++ 46 :: digit_chars (skipn (Z.to_nat n) ds)
  else if (-6 <? n) && (n <=? 0) then 48 :: 46 :: repeat_zero (- n) ++ digit_chars ds
  else
    let e := n - 1 in
    let exp := 101 :: (if e <? 0 then 45 else 43) :: digit_chars (decimal_digits (Z.abs e)) in
    match ds with
    | d :: ((_ :: _) as rest) => digit_chars [d] ++ 46 :: digit_chars rest ++ exp
    | _ => digit_chars ds ++ exp
    end.

(** ECMAScript Number::toString (radix 10). *)
Definition NumberToString (x : number) : jsstring :=
  match x with
  | S754_nan => js "NaN"
  | S754_zero _ => js "0"
  | S754_infinity neg => (if neg then [45] else []) ++ js "Infinity"
  | S754_finite neg m e =>
      let p := if e <? 0 then Zpos m else Zpos m * 2 ^ e in
      let q := if e <? 0 then 2 ^ (- e) else 1 in
      let n := decimal_exponent p q in
      let '(c, t) := shortest_digits 17 x p q n 1 in
      let '(rds, t') := strip_zeros (rev (decimal_digits c)) t in
      (if neg then [45] else []) ++ render_decimal (rev rds) (t' + Z.of_nat (List.length rds))
  end.

(** ** Values and objects *)

(** The values a state holds: scalars and arrays (the specification leaves
    nested objects out). *)
#[warnings="-register-all"]
Inductive value :=
| VUndefined
| VNull
| VBool (b : bool)
| VNum (n : number)
| VStr (s : jsstring)
| VArr (items : list value).

Inductive js_type := TUndefined | TObject | TBoolean | TNumber | TString | TFunction.

Definition typeof (v : value) : js_type :=
  match v with
  | VUndefined => TUndefined
  | VNull | VArr _ => TObject
  | VBool _ => TBoolean
  | VNum _ => TNumber
  | VStr _ => TString
  end.

Definition is_number_type (t : js_type) : bool :=
  match t with TNumber => true | _ => false end.

(** [value == undefined || value == null] *)
Definition is_nullish (v : value) : bool :=
  match v with VUndefined | VNull => true | _ => false end.

Fixpoint ToString (v : value) : jsstring :=
  match v with
  | VUndefined => js "undefined"
  | VNull => js "null"
  | VBool b => if b then js "true" else js "false"
  | VNum n => NumberToString n
  | VStr s => s
  | VArr items =>
      join [44] (map (fun e => if is_nullish e then [] else ToString e) items)
  end.

Definition encodeURIComponent (v : value) : result jsstring :=
  encodeURIComponent_string (ToString v).

(** An object: its own enumerable properties in property order, and its
    prototype, which an assignment to [__proto__] can replace. *)
Inductive prototype := ProtoObject | ProtoArray (items : list value) | ProtoNull.

Record obj := Obj { own : list (jsstring * value); proto : prototype }.

(** An object literal: own properties, prototype [Object.prototype]. *)
Definition literal := list (jsstring * value).
Definition lit (l : literal) : obj := Obj l ProtoObject.
Definition empty_obj : obj := Obj [] ProtoObject.

Fixpoint get_own (k : jsstring) (props : list (jsstring * value)) : option value :=
  match props with
  | [] => None
  | (k', v) :: rest => if streqb k' k then Some v else get_own k rest
  end.

Definition keys (o : obj) : list jsstring := map fst (own o).

Definition proto_key : jsstring := js "__proto__".

Definition Object_prototype_names : list jsstring :=
  [js "constructor"; js "__defineGetter__"; js "__defineSetter__"; js "hasOwnProperty";
   js "__lookupGetter__"; js "__lookupSetter__"; js "isPrototypeOf";
   js "propertyIsEnumerable"; js "toString"; js "valueOf"; js "__proto__";
   js "toLocaleString"].

(** [key in o] for an object literal: own or inherited from
    [Object.prototype]. *)
Definition has_property (key : jsstring) (o : literal) : bool :=
  match get_own key o with
  | Some _ => true
  | None => existsb (streqb key) Object_prototype_names
  end.

(** [typeof o[key]] for an object literal. *)
Definition typeof_member (key : jsstring) (o : literal) : js_type :=
  match get_own key o with
  | Some v => typeof v
  | None =>
      if streqb key proto_key then TObject
      else if existsb (streqb key) Object_prototype_names then TFunction
      else TUndefined
  end.

(** An array index: a canonical decimal string below [2 ^ 32 - 1]. *)
Definition array_index (k : jsstring) : option Z :=
  match span_digits 10 k with
  | (d :: ds, []) =>
      if (d =? 0) && negb (match ds with [] => true | _ => false end) then None
      else if digits_to_Z 10 (d :: ds) <? 2 ^ 32 - 1 then Some (digits_to_Z 10 (d :: ds))
      else None
  | _ => None
  end.

Fixpoint insert_index (i : Z) (k : jsstring) (v : value) (props : list (jsstring * value)) :=
  match props with
  | [] => [(k, v)]
  | kv :: rest =>
      match array_index (fst kv) with
      | Some j => if j <? i then kv :: insert_index i k v rest else (k, v) :: props
      | None => (k, v) :: props
      end
  end.

(** A new own property: array indices come first in ascending order, the
    other keys follow in order of creation. *)
Definition define_own (k : jsstring) (v : value) (props : list (jsstring * value)) :=
  match array_index k with
  | Some i => insert_index i k v props
  | None => props ++ [(k, v)]
  end.

Definition replace_own (k : jsstring) (v : value) (props : list (jsstring * value)) :=
  map (fun kv => if streqb (fst kv) k then (k, v) else kv) props.

(** The assignment [o[k] = v]. An own property is overwritten; otherwise
    [__proto__] reaches the setter inherited from [Object.prototype], which
    replaces the prototype by an object or null and ignores other values;
    any other key becomes a new own property. *)
Definition obj_set (k : jsstring) (v : value) (o : obj) : obj :=
  match get_own k (own o) with
  | Some _ => Obj (replace_own k v (own o)) (proto o)
  | None =>
      if streqb k proto_key && negb (match proto o with ProtoNull => true | _ => false end)
      then match v with
           | VArr items => Obj (own o) (ProtoArray items)
           | VNull => Obj (own o) ProtoNull
           | _ => o
           end
      else Obj (define_own k v (own o)) (proto o)
  end.

(** [Object.assign(target, source)] *)
Definition Object_assign (target source : obj) : obj :=
  fold_left (fun t kv => obj_set (fst kv) (snd kv) t) (own source) target.

(** The data read by [o[k]]: an own property, or for [__proto__] the array
    that is the prototype; [None] where the read gives [undefined] or a
    built-in of the realm. *)
Definition get_data (k : jsstring) (o : obj) : option value :=
  match get_own k (own o) with
  | Some v => Some v
  | None =>
      if streqb k proto_key
      then match proto o with ProtoArray items => Some (VArr items) | _ => None end
      else None
  end.

(** ** The codec of the source: [isNumber], [toNumberable],
    [parseQueryString], [stringifyQueryString], [createQueryString] *)

(** A number is a number when [num - num === 0], a string when it is not
    blank and [+num] is finite. *)
Definition isNumber (num : value) : bool :=
  match num with
  | VNum n => SFeqb (SFsub b64_prec b64_emax n n) (S754_zero false)
  | VStr s => if negb (streqb (trim s) []) then is_finite (StringToNumber s) else false
  | _ => false
  end.

Fixpoint toNumberable (v : value) : value :=
  match v with
  | VArr items => VArr (map toNumberable items)
  | VStr s => if isNumber v then VNum (StringToNumber s) else v
  | _ => v
  end.

(** [urlParams.get(key)]: the first value, or null. *)
Definition usp_get_value (key : jsstring) (p : URLSearchParams) : value :=
  match usp_get key p with Some s => VStr s | None => VNull end.

(** For each distinct key of the query string, in order of first
    occurrence: the array of its values when there are several, and
    otherwise its value, turned into a number when the default under that
    key is one. The defaults being an object literal,
    [initialValue instanceof Object] holds. *)
Definition parseQueryString (searchParams : jsstring) (initialValue : literal) : obj :=
  let urlParams := new_URLSearchParams searchParams in
  fold_left
    (fun output key =>
       obj_set key
         (if (1 <? Z.of_nat (List.length (usp_getAll key urlParams)))
          then VArr (map VStr (usp_getAll key urlParams))
          else if has_property key initialValue
                  && is_number_type (typeof_member key initialValue)
               then toNumberable (usp_get_value key urlParams)
               else usp_get_value key urlParams)
         output)
    (unique (usp_keys urlParams)) empty_obj.

Fixpoint mapM {A B} (f : A -> result B) (l : list A) : result (list B) :=
  match l with
  | [] => Ok []
  | a :: rest => rbind (f a) (fun b => rbind (mapM f rest) (fun bs => Ok (b :: bs)))
  end.

(** One element of the array that [flatMap] builds: the pair, or
    [undefined] for a null or undefined value. *)
Definition stringify_pair (key : jsstring) (item : value) : result (option jsstring) :=
  if is_nullish item then Ok None
  else
    rbind (encodeURIComponent_string key) (fun k =>
    rbind (encodeURIComponent item) (fun x => Ok (Some (k ++ 61 :: x)))).

(** What the callback of [flatMap] returns for an entry: an array for an
    array, and otherwise one element, which [flatMap] keeps as it is. *)
Definition stringify_entry (entry : jsstring * value) : result (list (option jsstring)) :=
  match snd entry with
  | VArr items => mapM (stringify_pair (fst entry)) items
  | v => rbind (stringify_pair (fst entry) v) (fun p => Ok [p])
  end.

(** [Array.prototype.join]: an undefined element is written as the empty
    string. *)
Definition Array_join (sep : jsstring) (items : list (option jsstring)) : jsstring :=
  join sep (map (fun i => match i with Some s => s | None => [] end) items).

(** [Object.entries(obj).flatMap(...).join("&")] *)
Definition stringifyQueryString (o : obj) : result jsstring :=
  rbind (mapM stringify_entry (own o)) (fun parts => Ok (Array_join [38] (List.concat parts))).

Record QueryString := {
  parse : jsstring -> result obj;
  stringify : obj -> result jsstring }.

Definition createQueryString (initialValue : literal) : QueryString :=
  {| parse := fun searchParams => Ok (parseQueryString searchParams initialValue);
     stringify := stringifyQueryString |}.

(** ** The environment of the hook *)

(** What [new URL(href)] yields for the http(s) URL of a page, as far as
    the hook and [history.pushState] look at it: the path, the query (the
    text after [?], without it) and, standing for the scheme, the host and
    the port, which authorities (the text between [//] and the path of a
    scheme-relative URL) parse to the host and port of this URL. *)
Record URL := {
  pathname : jsstring;
  query : jsstring;
  names_own_host : jsstring -> bool }.

(** [window.location.href]: a string [new URL] rejects, or a URL. *)
Inductive Location := HrefInvalid | Href (url : URL).

Record Window := { location : Location; has_addEventListener : bool }.

Inductive event :=
| ValueChange (value : obj)
| PathnameChange (resultUrl : jsstring)
| PushState (resultUrl : jsstring)
| ConsoleError (error : exn).

(** A session: the state React holds for the component, the global
    [window] if there is one, and what the hook did so far (calls of the
    observers and of [console.error], entries pushed by
    [history.pushState], oldest first). *)
Record session := {
  state : obj;
  window : option Window;
  events : list event }.

(** Computations of the hook: they change the session and return or throw;
    what was done before a throw stays done. *)
Definition Hook (A : Type) : Type := session -> session * result A.

Definition ret {A} (a : A) : Hook A := fun s => (s, Ok a).

Definition bind {A B} (c : Hook A) (k : A -> Hook B) : Hook B :=
  fun s => match c s with
           | (s', Ok a) => k a s'
           | (s', Throw e) => (s', Throw e)
           end.

Notation "x <- c ;; k" := (bind c (fun x => k))
  (at level 61, c at next level, right associativity).
Notation "c ;; k" := (bind c (fun _ => k))
  (at level 61, right associativity).

Definition lift {A} (r : result A) : Hook A := fun s => (s, r).

Definition try_catch {A} (body : Hook A) (handler : exn -> Hook A) : Hook A :=
  fun s => match body s with
           | (s', Ok a) => (s', Ok a)
           | (s', Throw e) => handler e s'
           end.

Definition get_state : Hook obj := fun s => (s, Ok (state s)).
Definition get_window : Hook (option Window) := fun s => (s, Ok (window s)).

Definition _setState (payload : obj) : Hook unit :=
  fun s => ({| state := payload; window := window s; events := events s |}, Ok tt).

Definition emit (e : event) : Hook unit :=
  fun s => ({| state := state s; window := window s; events := events s ++ [e] |}, Ok tt).

(** [new URL(href)]: a TypeError for a string that is not a URL. *)
Definition new_URL (href : Location) : result URL :=
  match href with Href url => Ok url | HrefInvalid => Throw TypeError end.

(** [try { new URL(str); return true } catch (err) { return false }] *)
Definition isValidUrl (str : Location) : bool :=
  match new_URL str with Ok _ => true | Throw _ => false end.

(** [url.searchParams]: the list parsed from the query of the URL. *)
Definition URL_searchParams (url : URL) : URLSearchParams :=
  urlencoded_parse (utf8_bytes (query url)).

(** What the URL parser does to its input first: the conversion to scalar
    values, leading and trailing C0 controls and spaces stripped, tabs and
    newlines removed. *)
Fixpoint strip_leading (s : list Z) : list Z :=
  match s with
  | c :: rest => if c <=? 0x20 then strip_leading rest else s
  | [] => []
  end.

Definition url_input (input : jsstring) : list Z :=
  filter (fun c => negb (existsb (Z.eqb c) [9; 10; 13]))
    (rev (strip_leading (rev (strip_leading (to_usv input))))).

(** The special-query percent-encode set: C0 controls, the space, the
    double quote, [#], the apostrophe, [<], [>] and everything above [~]. The query of an http(s) URL
    holds their UTF-8 bytes percent-encoded. *)
Definition in_special_query_set (cp : Z) : bool :=
  (cp <=? 0x20) || (0x7E <? cp) || existsb (Z.eqb cp) [0x22; 0x23; 0x27; 0x3C; 0x3E].

Definition url_query_encode (cps : list Z) : jsstring :=
  flat_map (fun cp => if in_special_query_set cp
                      then flat_map percent_byte (utf8_encode cp) else [cp]) cps.

(** In an http(s) URL a backslash is read as a slash. *)
Definition is_slash (c : Z) : bool := (c =? 47) || (c =? 92).

Fixpoint skip_slashes (s : list Z) : list Z :=
  match s with
  | c :: rest => if is_slash c then skip_slashes rest else s
  | [] => []
  end.

(** The authority of a scheme-relative URL and what follows it. *)
Fixpoint split_authority (s : list Z) : list Z * list Z :=
  match s with
  | c :: rest =>
      if is_slash c then ([], s)
      else let (a, r) := split_authority rest in (c :: a, r)
  | [] => ([], [])
  end.

(** The URL that [resultUrl] (a path, [?] and a query) resolves to against
    the URL of the page when it stays at the host of the page, and [None]
    when it does not or cannot be resolved. After the fragment is cut off:
    - a path starting with one slash stays on the host of the page; the path
      of a page is in the form the parser writes, and is taken as it is;
    - a path starting with two slashes names a host: what follows the
      slashes, up to the next one, is an authority, and the rest is the path;
    - no path at all leaves the path of the page;
    - a path that does not start with a slash is that of a page without a
      hierarchical URL ([about:blank], [data:]), against which nothing
      resolves. *)
Definition resolve_URL (base : URL) (resultUrl : jsstring) : option URL :=
  let input := url_input resultUrl in
  let no_fragment := match split_first 35 input with Some (a, _) => a | None => input end in
  let path_query := match split_first 63 no_fragment with
                    | Some (p, q) => (p, Some (url_query_encode q))
                    | None => (no_fragment, None)
                    end in
  let q := match snd path_query with Some q => q | None => [] end in
  match fst path_query with
  | [] =>
      Some {| pathname := pathname base;
              query := match snd path_query with Some q => q | None => query base end;
              names_own_host := names_own_host base |}
  | c :: rest =>
      if is_slash c then
        if match rest with c' :: _ => is_slash c' | [] => false end then
          let (authority, path) := split_authority (skip_slashes rest) in
          if names_own_host base authority
          then Some {| pathname := match path with [] => [47] | _ :: _ => path end;
                       query := q;
                       names_own_host := names_own_host base |}
          else None
        else Some {| pathname := c :: rest; query := q;
                     names_own_host := names_own_host base |}
      else None
  end.

(** [window.history.pushState(null, "", resultUrl)]: when [resultUrl]
    resolves to a URL at the host of the page, an entry is pushed, the
    location changes and no popstate event is fired; otherwise the call
    throws a SecurityError and nothing changes. *)
Definition pushState (resultUrl : jsstring) : Hook unit :=
  fun s =>
    match window s with
    | Some w =>
        match location w with
        | Href base =>
            match resolve_URL base resultUrl with
            | Some url =>
                ({| state := state s;
                    window := Some {| location := Href url;
                                      has_addEventListener := has_addEventListener w |};
                    events := events s ++ [PushState resultUrl] |}, Ok tt)
            | None => (s, Throw SecurityError)
            end
        | HrefInvalid => (s, Throw SecurityError)
        end
    | None => (s, Throw ReferenceError)
    end.

(** The loop [for (const k of params.keys()) if (!keep(k)) params.delete(k)].
    The iterator is live: it reads the entry at its index in the list as it
    is now, and [delete] removes every entry of that name. *)
Fixpoint delete_while_iterating (fuel : nat) (keep : jsstring -> bool) (index : nat)
    (params : URLSearchParams) : URLSearchParams :=
  match fuel with
  | O => params
  | S fuel' =>
      match nth_error params index with
      | None => params
      | Some (k, _) =>
          delete_while_iterating fuel' keep (S index)
            (if keep k then params else usp_delete k params)
      end
  end.

(** The whole loop: the index passes the end of the list within
    [length params + 1] steps. *)
Definition delete_foreign_keys (keep : jsstring -> bool) (params : URLSearchParams) :=
  delete_while_iterating (S (List.length params)) keep 0 params.

(** ** The hook [useQueryStringState] *)

(** The options; an observer is given or not, and calling it is recorded
    as an event. *)
Record UseQueryStringStateOptions := {
  onValueChange : bool;
  onPathnameChange : bool;
  queryString : option QueryString;
  isSyncPathname : option bool }.

(** What [setState] accepts: a state, an updater, or the string ["RESET"]. *)
Inductive SetStateAction :=
| Value (v : obj)
| Updater (f : obj -> obj)
| RESET.

Section useQueryStringState.

Variable initialValue : literal.
Variable options : UseQueryStringStateOptions.

(** The defaults of the destructured options. *)
Definition queryString_of : QueryString :=
  match queryString options with
  | Some q => q
  | None => createQueryString initialValue
  end.

Definition isSyncPathname_of : bool :=
  match isSyncPathname options with Some b => b | None => true end.

Definition getInitialStateWithQueryString : Hook obj :=
  try_catch
    (w <- get_window ;;
     match w with
     | Some win =>
         if isValidUrl (location win) then
           url <- lift (new_URL (location win)) ;;
           let searchParams :=
             delete_foreign_keys (fun k => has_property k initialValue)
               (URL_searchParams url) in
           urlParsed <- lift (parse queryString_of (usp_toString searchParams)) ;;
           ret (Object_assign (Object_assign empty_obj (lit initialValue)) urlParsed)
         else ret (lit initialValue)
     | None => ret (lit initialValue)
     end)
    (fun error => emit (ConsoleError error) ;; ret (lit initialValue)).

(** The function [setState] of a render: it holds the [state] that
    render showed, and an updater is applied to that state, whatever was
    stored since. *)
Definition setState_of (state : obj) (value : SetStateAction) : Hook unit :=
  let payload :=
    match value with
    | RESET => lit initialValue
    | Updater f => f state
    | Value v => v
    end in
  _setState payload ;;
  (if onValueChange options then emit (ValueChange payload) else ret tt) ;;
  w <- get_window ;;
  match w with
  | Some win =>
      if isValidUrl (location win) then
        url <- lift (new_URL (location win)) ;;
        parsed <- lift (parse queryString_of (usp_toString (URL_searchParams url))) ;;
        searchParams <- lift (stringify queryString_of (Object_assign parsed payload)) ;;
        let resultUrl := pathname url ++ 63 :: searchParams in
        if onPathnameChange options then emit (PathnameChange resultUrl)
        else pushState resultUrl
      else ret tt
  | None => ret tt
  end.

(** [setState] as the latest render returned it: the state it holds is the
    state of the session. *)
Definition setState (value : SetStateAction) : Hook unit :=
  state <- get_state ;; setState_of state value.

Definition handlePopState : Hook unit :=
  if isSyncPathname_of
  then (s <- getInitialStateWithQueryString ;; _setState s)
  else ret tt.

(** A popstate event reaches [handlePopState] when the effect could
    register it. *)
Definition popstate : Hook unit :=
  w <- get_window ;;
  match w with
  | Some win => if has_addEventListener win then handlePopState else ret tt
  | None => ret tt
  end.

(** [useCallback(() => () => { setState(RESET); }, [])]: the memoized
    function, when called, returns a function and calls nothing. *)
Definition reset : Hook (Hook unit) := ret (setState RESET).

(** The first render: [useState] takes the initial state. *)
Definition useQueryStringState : Hook obj :=
  initial <- (if isSyncPathname_of then getInitialStateWithQueryString
              else ret (lit initialValue)) ;;
  _setState initial ;;
  ret initial.

End useQueryStringState.

(** The session after the first render in an environment. *)
Definition mount (initialValue : literal) (options : UseQueryStringStateOptions)
    (w : option Window) : session :=
  fst (useQueryStringState initialValue options
         {| state := empty_obj; window := w; events := [] |}).

Definition default_options : UseQueryStringStateOptions :=
  {| onValueChange := false; onPathnameChange := false;
     queryString := None; isSyncPathname := None |}.

(** A codec whose [parse] throws. *)
Definition failing_options : UseQueryStringStateOptions :=
  {| onValueChange := false; onPathnameChange := false;
     queryString := Some {| parse := fun _ => Throw CodecError;
                            stringify := stringifyQueryString |};
     isSyncPathname := None |}.

(** The pages of the examples are at [example.org]. *)
Definition example_org (authority : jsstring) : bool := streqb authority (js "example.org").

Definition page_at (path q : jsstring) : URL :=
  {| pathname := path; query := q; names_own_host := example_org |}.

Definition browser_at (path q : jsstring) : option Window :=
  Some {| location := Href (page_at path q); has_addEventListener := true |}.

(** ** Notions used in the statements *)

(** No own [__proto__], and a prototype chain that reaches the setter. *)
Definition plain_shape (o : obj) : Prop :=
  get_own proto_key (own o) = None /\ proto o <> ProtoNull.

(** The assignments [output[key] = f(key)] for the keys in turn. *)
Definition assign_keys (f : jsstring -> value) (ks : list jsstring) (o : obj) : obj :=
  fold_left (fun output key => obj_set key (f key) output) ks o.

(** The value [parseQueryString] assigns to a key. *)
Definition parsed_value (urlParams : URLSearchParams) (initialValue : literal)
    (key : jsstring) : value :=
  if (1 <? Z.of_nat (List.length (usp_getAll key urlParams)))
  then VArr (map VStr (usp_getAll key urlParams))
  else if has_property key initialValue && is_number_type (typeof_member key initialValue)
       then toNumberable (usp_get_value key urlParams)
       else usp_get_value key urlParams.

(** The number with the value of an integer. *)
Definition number_of_Z (z : Z) : number := binary_normalize b64_prec b64_emax z 0 false.

(** The events that write a URL: a history mutation or a call of the
    pathname delegate. *)
Definition is_url_write (e : event) : bool :=
  match e with
  | PushState _ | PathnameChange _ => true
  | ValueChange _ | ConsoleError _ => false
  end.

(** The state the first render computes in sync mode, as a function of the
    environment. *)
Definition reconciled (initialValue : literal) (options : UseQueryStringStateOptions)
    (w : option Window) : obj :=
  match snd (getInitialStateWithQueryString initialValue options
               {| state := empty_obj; window := w; events := [] |}) with
  | Ok st => st
  | Throw _ => lit initialValue
  end.

(** States and options of the examples. *)
Definition page (n : Z) : literal := [(js "page", VNum (number_of_Z n))].
Definition page_q (n : Z) (q : string) : literal :=
  [(js "page", VNum (number_of_Z n)); (js "q", VStr (js q))].
Definition no_sync : UseQueryStringStateOptions :=
  {| onValueChange := false; onPathnameChange := false;
     queryString := None; isSyncPathname := Some false |}.

(** Code units, scalar values and bytes. *)
Definition is_code_unit (c : Z) : bool := (0 <=? c) && (c <=? 0xFFFF).
Definition is_scalar (cp : Z) : bool :=
  (0 <=? cp) && (cp <=? 0x10FFFF) && negb (is_surrogate cp).
Definition is_byte (b : Z) : bool := (0 <=? b) && (b <=? 255).

(** A string of code units in which every surrogate is paired. *)
Definition well_formed (s : jsstring) : bool :=
  forallb is_code_unit s && forallb (fun cp => negb (is_surrogate cp)) (StringToCodePoints s).

(** ASCII code units. *)
Definition is_ascii (c : Z) : bool := (0 <=? c) && (c <? 128).

(** A pending UTF-8 sequence all of whose completions are scalar values:
    the bounds written out for one, two and three bytes to come. *)
Definition pending_ok (p : utf8_pending) : Prop :=
  128 <= u_lower p /\ u_upper p <= 191 /\
  match u_needed p with
  | 1%nat =>
      0 <= u_cp p * 64 + (u_lower p - 128)
      /\ (u_cp p * 64 + (u_upper p - 128) < 0xD800
          \/ (0xDFFF < u_cp p * 64 + (u_lower p - 128)
              /\ u_cp p * 64 + (u_upper p - 128) <= 0x10FFFF))
  | 2%nat =>
      0 <= (u_cp p * 64 + (u_lower p - 128)) * 64
      /\ ((u_cp p * 64 + (u_upper p - 128)) * 64 + 63 < 0xD800
          \/ (0xDFFF < (u_cp p * 64 + (u_lower p - 128)) * 64
              /\ (u_cp p * 64 + (u_upper p - 128)) * 64 + 63 <= 0x10FFFF))
  | 3%nat =>
      0xDFFF < (u_cp p * 64 + (u_lower p - 128)) * 4096
      /\ (u_cp p * 64 + (u_upper p - 128)) * 4096 + 4095 <= 0x10FFFF
  | _ => False
  end.

(** What [encodeURIComponent] writes for one code point that is not an
    unpaired surrogate. *)
Definition encoded_code_point (cp : Z) : jsstring :=
  if uri_unescaped cp then [cp] else flat_map percent_byte (utf8_encode cp).

(** ASCII code units other than [&], [=] and [?]: what both encoders write. *)
Definition is_delimiter_free (c : Z) : bool :=
  is_ascii c && negb ((c =? 38) || (c =? 61) || (c =? 63)).

(** No unpaired surrogate: the strings [encodeURIComponent] accepts. *)
Definition no_lone_surrogate (s : jsstring) : bool :=
  forallb (fun cp => negb (is_surrogate cp)) (StringToCodePoints s).

(** What [encodeURIComponent] writes for such a string. *)
Definition encoded (s : jsstring) : jsstring :=
  flat_map encoded_code_point (StringToCodePoints s).

(** A string without the code unit [sep]. *)
Definition free_of (sep : Z) (s : jsstring) : bool :=
  forallb (fun c => negb (c =? sep)) s.

(** The code units of a query string made of encoded parts, [&] and [=]. *)
Definition is_query_char (c : Z) : bool :=
  is_delimiter_free c || (c =? 38) || (c =? 61).

Definition pairs_well_formed (p : URLSearchParams) : bool :=
  forallb (fun kv => well_formed (fst kv) && well_formed (snd kv)) p.

(** The name-value pairs an entry of a mapping contributes to the query
    string: one per element of an array, one for any other value, none for
    null and undefined. *)
Definition emitted_pairs_of (key : jsstring) (v : value) : list (jsstring * jsstring) :=
  match v with
  | VArr items => flat_map (fun i => if is_nullish i then [] else [(key, ToString i)]) items
  | _ => if is_nullish v then [] else [(key, ToString v)]
  end.

Definition emitted_pairs (props : list (jsstring * value)) : list (jsstring * jsstring) :=
  flat_map (fun kv => emitted_pairs_of (fst kv) (snd kv)) props.

(** The texts an entry contributes. *)
Definition emitted_texts (v : value) : list jsstring := map snd (emitted_pairs_of [] v).

(** Every key and text to encode is free of unpaired surrogates. *)
Definition emits_encodable (props : list (jsstring * value)) : bool :=
  forallb (fun kv => no_lone_surrogate (fst kv) && no_lone_surrogate (snd kv))
    (emitted_pairs props).

(** The element [flatMap] keeps for a pair, and for an entry. *)
Definition rendered_pair (key : jsstring) (item : value) : option jsstring :=
  if is_nullish item then None
  else Some (encoded key ++ 61 :: encoded (ToString item)).

Definition rendered_entry (entry : jsstring * value) : list (option jsstring) :=
  match snd entry with
  | VArr items => map (rendered_pair (fst entry)) items
  | v => [rendered_pair (fst entry) v]
  end.

Fixpoint no_dup_keys (l : list jsstring) : bool :=
  match l with
  | [] => true
  | k :: rest => negb (existsb (streqb k) rest) && no_dup_keys rest
  end.

(** The same, pair by pair: what an entry contributes before encoding,
    with [None] where [flatMap] keeps [undefined]. *)
Definition pair_item (key : jsstring) (item : value) : option (jsstring * jsstring) :=
  if is_nullish item then None else Some (key, ToString item).

Definition entry_items (entry : jsstring * value) : list (option (jsstring * jsstring)) :=
  match snd entry with
  | VArr items => map (pair_item (fst entry)) items
  | v => [pair_item (fst entry) v]
  end.

Definition present {A} (l : list (option A)) : list A :=
  flat_map (fun i => match i with Some a => [a] | None => [] end) l.

Definition rendered_item (i : option (jsstring * jsstring)) : jsstring :=
  match i with
  | Some (k, t) => encoded k ++ 61 :: encoded t
  | None => []
  end.

(** A value copied up to coercion between number and string: an array
    stays an array with the same texts, a scalar keeps its text or becomes
    the number its text denotes. *)
Definition coerced_copy (v v' : value) : Prop :=
  match v, v' with
  | VArr items, VArr items' => map ToString items = map ToString items'
  | VArr _, _ | _, VArr _ => False
  | _, _ => ToString v = ToString v' \/ v' = VNum (StringToNumber (ToString v))
  end.

(** [st'] has the keys of [st], each with a coerced copy of its value. *)
Definition reproduces (st' st : obj) : Prop :=
  forall k,
    match get_own k (own st), get_own k (own st') with
    | Some v, Some v' => coerced_copy v v'
    | None, None => True
    | _, _ => False
    end.

(** The round trip of the specification: [parse(stringify(state))] against
    a schema reproduces the state. *)
Definition round_trip (st : obj) (schema : literal) : Prop :=
  exists q, stringifyQueryString st = Ok q /\ reproduces (parseQueryString q schema) st.

(** What a value reads back as under a key. *)
Definition read_back (schema : literal) (key : jsstring) (v : value) : value :=
  match v with
  | VArr items => VArr (map (fun i => VStr (ToString i)) items)
  | _ =>
      if has_property key schema && is_number_type (typeof_member key schema)
      then toNumberable (VStr (ToString v))
      else VStr (ToString v)
  end.

(** States that make the round trip: distinct well-formed keys other than
    [__proto__]; well-formed strings, numbers, and arrays of at least two of
    them. *)
Definition round_trippable_scalar (v : value) : bool :=
  match v with
  | VStr s => well_formed s
  | VNum _ => true
  | _ => false
  end.

Definition round_trippable_value (v : value) : bool :=
  match v with
  | VArr items => (2 <=? Z.of_nat (List.length items)) && forallb round_trippable_scalar items
  | _ => round_trippable_scalar v
  end.

Definition round_trippable (props : list (jsstring * value)) : bool :=
  no_dup_keys (map fst props)
  && forallb (fun kv => well_formed (fst kv) && negb (streqb (fst kv) proto_key)
                        && round_trippable_value (snd kv)) props.

Definition page_q_tags (n : Z) (q : string) (tags : list string) : literal :=
  [(js "page", VNum (number_of_Z n)); (js "q", VStr (js q));
   (js "tags", VArr (map (fun t => VStr (js t)) tags))].

(** The mapping [setState] stringifies: the state laid over what the
    codec parses from the current URL. *)
Definition merged_mapping (initialValue : literal) (url : URL) (st : obj) : obj :=
  Object_assign
    (parseQueryString (usp_toString (URL_searchParams url)) initialValue) st.

(** The event that writes [resultUrl]: a call of the delegate if there is
    one, of [history.pushState] otherwise. *)
Definition url_write (options : UseQueryStringStateOptions) (resultUrl : jsstring) : event :=
  if onPathnameChange options then PathnameChange resultUrl else PushState resultUrl.

Definition entry_well_formed (kv : jsstring * value) : bool :=
  pairs_well_formed (emitted_pairs_of (fst kv) (snd kv)).

(** The code units [stringifyQueryString] writes: what
    [encodeURIComponent] leaves as it is, [%], [&] and [=]. *)
Definition is_uri_char (c : Z) : bool :=
  uri_unescaped c || existsb (Z.eqb c) [37; 38; 61].

(** An entry whose key passes the test of the loop that deletes keys. *)
Definition passes (keep : jsstring -> bool) (kv : jsstring * jsstring) : bool :=
  keep (fst kv).

(** The state a call of [setState] stores. *)
Definition next_state (initialValue : literal) (value : SetStateAction) (st : obj) : obj :=
  match value with
  | RESET => lit initialValue
  | Updater f => f st
  | Value v => v
  end.

(** The code units of the path of an http(s) URL as the parser writes it:
    visible ASCII without [#], [?] and the backslash. *)
Definition is_path_unit (c : Z) : bool :=
  (0x21 <=? c) && (c <=? 0x7E) && negb (existsb (Z.eqb c) [35; 63; 92]).

(** Such a path that starts with one slash and not with two: with a query
    after it, it resolves to a URL at the host of the page. *)
Definition is_same_site_path (p : jsstring) : bool :=
  match p with
  | c :: rest =>
      (c =? 47) && negb (match rest with c' :: _ => c' =? 47 | [] => false end)
      && forallb is_path_unit rest
  | [] => false
  end.

(** What the parser of an http(s) URL writes for a code unit of a query
    string made by [encodeURIComponent]: the apostrophe percent-encoded, the
    others as they are. *)
Definition escape_apostrophe (c : Z) : list Z :=
  if c =? 39 then [37; 50; 55] else [c].

(** Visible ASCII: what the parser of a URL neither strips nor removes. *)
Definition is_visible (c : Z) : bool := (0x21 <=? c) && (c <=? 0x7E).

(** The authority of a scheme-relative URL as it stands in a path: not
    empty, of path units other than the slash. *)
Definition is_authority (a : jsstring) : bool :=
  match a with
  | [] => false
  | _ :: _ => forallb (fun c => is_path_unit c && negb (c =? 47)) a
  end.

(** What follows it: nothing, or a path that starts with a slash. *)
Definition is_path_tail (p : jsstring) : bool :=
  match p with
  | [] => true
  | c :: _ => (c =? 47) && forallb is_path_unit p
  end.

(** * Properties *)

(** ** Strings and property lists *)

Lemma streqb_true (a b : jsstring) : streqb a b = true <-> a = b.
Proof.
  unfold streqb. destruct (list_eq_dec Z.eq_dec a b); split; congruence.
Qed.

Lemma streqb_false (a b : jsstring) : streqb a b = false <-> a <> b.
Proof.
  unfold streqb. destruct (list_eq_dec Z.eq_dec a b); split; congruence.
Qed.

Lemma streqb_refl (a : jsstring) : streqb a a = true.
Proof. now apply streqb_true. Qed.

Lemma streqb_sym (a b : jsstring) : streqb a b = streqb b a.
Proof.
  destruct (streqb b a) eqn:E.
  - apply streqb_true in E. subst. apply streqb_refl.
  - apply streqb_false in E. apply streqb_false. congruence.
Qed.

Ltac case_streqb a b :=
  let E := fresh "E" in
  destruct (streqb a b) eqn:E;
  [apply streqb_true in E | apply streqb_false in E].

Lemma get_own_app k props extra :
  get_own k (props ++ extra) =
  match get_own k props with Some v => Some v | None => get_own k extra end.
Proof.
  induction props as [|[k' v'] props IH]; simpl; [reflexivity|].
  destruct (streqb k' k); [reflexivity | exact IH].
Qed.

Lemma get_own_replace_same k v props :
  get_own k props <> None -> get_own k (replace_own k v props) = Some v.
Proof.
  induction props as [|[k' v'] props IH]; simpl; [congruence|].
  case_streqb k' k; simpl.
  - now rewrite streqb_refl.
  - intros H. case_streqb k' k; [congruence | auto].
Qed.

Lemma get_own_replace_other k k' v props :
  k' <> k -> get_own k' (replace_own k v props) = get_own k' props.
Proof.
  intros Hne. induction props as [|[k0 v0] props IH]; simpl; [reflexivity|].
  case_streqb k0 k; simpl.
  - subst k0. case_streqb k k'; [congruence | exact IH].
  - destruct (streqb k0 k'); [reflexivity | exact IH].
Qed.

Lemma get_own_insert_same i k v props :
  get_own k props = None -> get_own k (insert_index i k v props) = Some v.
Proof.
  induction props as [|[k' v'] props IH]; simpl; intros H.
  - now rewrite streqb_refl.
  - case_streqb k' k; [congruence|].
    destruct (array_index k') as [j|]; [destruct (j <? i)|]; simpl;
      rewrite ?streqb_refl; try reflexivity.
    case_streqb k' k; [congruence | auto].
Qed.

Lemma get_own_insert_other i k k' v props :
  k' <> k -> get_own k' (insert_index i k v props) = get_own k' props.
Proof.
  intros Hne. induction props as [|[k0 v0] props IH]; simpl.
  - case_streqb k k'; congruence.
  - destruct (array_index k0) as [j|]; [destruct (j <? i)|]; simpl.
    + destruct (streqb k0 k'); [reflexivity | exact IH].
    + case_streqb k k'; [congruence | reflexivity].
    + case_streqb k k'; [congruence | reflexivity].
Qed.

Lemma get_own_define_same k v props :
  get_own k props = None -> get_own k (define_own k v props) = Some v.
Proof.
  intros H. unfold define_own. destruct (array_index k).
  - now apply get_own_insert_same.
  - rewrite get_own_app, H. simpl. now rewrite streqb_refl.
Qed.

Lemma get_own_define_other k k' v props :
  k' <> k -> get_own k' (define_own k v props) = get_own k' props.
Proof.
  intros Hne. unfold define_own. destruct (array_index k).
  - now apply get_own_insert_other.
  - rewrite get_own_app. destruct (get_own k' props); [reflexivity|].
    simpl. case_streqb k k'; congruence.
Qed.

(** Reading an own property after an assignment to another key. *)
Lemma get_own_set_other k k' v o :
  k' <> k -> get_own k' (own (obj_set k v o)) = get_own k' (own o).
Proof.
  intros Hne. unfold obj_set. destruct (get_own k (own o)) eqn:E; simpl.
  - now apply get_own_replace_other.
  - destruct (streqb k proto_key && _); simpl.
    + destruct v; reflexivity.
    + now apply get_own_define_other.
Qed.

(** Reading an own property after assigning to it: every key but
    [__proto__] holds the value assigned. *)
Lemma get_own_set_same k v o :
  k <> proto_key -> get_own k (own (obj_set k v o)) = Some v.
Proof.
  intros Hne. unfold obj_set. destruct (get_own k (own o)) eqn:E; simpl.
  - apply get_own_replace_same. congruence.
  - case_streqb k proto_key; [congruence|]. simpl. now apply get_own_define_same.
Qed.

(** ** Assignments in sequence, as [parseQueryString] makes them *)

Lemma plain_shape_set k v o :
  v <> VNull -> plain_shape o -> plain_shape (obj_set k v o).
Proof.
  intros Hv [Hown Hproto]. case_streqb k proto_key.
  - subst k. unfold obj_set. rewrite Hown, streqb_refl.
    destruct (proto o) eqn:Ep; try congruence; simpl;
      destruct v; try congruence; split; simpl; congruence.
  - split.
    + rewrite get_own_set_other by congruence. exact Hown.
    + unfold obj_set. destruct (get_own k (own o)); simpl; [exact Hproto|].
      case_streqb k proto_key; [congruence|]. simpl. exact Hproto.
Qed.

Lemma proto_set_other k v o :
  k <> proto_key -> proto (obj_set k v o) = proto o.
Proof.
  intros Hne. unfold obj_set. destruct (get_own k (own o)); simpl; [reflexivity|].
  case_streqb k proto_key; [congruence | reflexivity].
Qed.

Lemma proto_set_array items o :
  plain_shape o -> proto (obj_set proto_key (VArr items) o) = ProtoArray items.
Proof.
  intros [Hown Hproto]. unfold obj_set. rewrite Hown, streqb_refl.
  destruct (proto o); simpl; congruence.
Qed.

Section assign_keys.

Variable f : jsstring -> value.

Lemma assign_keys_own ks : forall o k,
  k <> proto_key ->
  get_own k (own (assign_keys f ks o)) =
  if existsb (streqb k) ks then Some (f k) else get_own k (own o).
Proof.
  induction ks as [|a ks IH]; intros o k Hk; simpl; [reflexivity|].
  unfold assign_keys in *. simpl. rewrite IH by exact Hk.
  destruct (existsb (streqb k) ks); [now rewrite orb_true_r|].
  rewrite orb_false_r. case_streqb k a.
  - subst a. now apply get_own_set_same.
  - now apply get_own_set_other.
Qed.

Lemma assign_keys_shape ks : forall o,
  (forall k, In k ks -> f k <> VNull) -> plain_shape o -> plain_shape (assign_keys f ks o).
Proof.
  induction ks as [|a ks IH]; intros o Hf Ho; simpl; [exact Ho|].
  apply IH.
  - intros k Hk. apply Hf. now right.
  - apply plain_shape_set; [apply Hf; now left | exact Ho].
Qed.

Lemma assign_keys_proto items ks : forall o,
  (forall k, In k ks -> f k <> VNull) -> plain_shape o ->
  f proto_key = VArr items ->
  proto (assign_keys f ks o) = if existsb (streqb proto_key) ks then ProtoArray items else proto o.
Proof.
  induction ks as [|a ks IH]; intros o Hf Ho Hp; simpl; [reflexivity|].
  assert (Ha : f a <> VNull) by (apply Hf; now left).
  assert (Hks : forall k, In k ks -> f k <> VNull) by (intros k Hk; apply Hf; now right).
  unfold assign_keys in *. simpl.
  rewrite IH by (auto using plain_shape_set).
  destruct (existsb (streqb proto_key) ks); [now rewrite orb_true_r|].
  rewrite orb_false_r. case_streqb proto_key a.
  - subst a. rewrite Hp. now apply proto_set_array.
  - apply proto_set_other. congruence.
Qed.

End assign_keys.

Lemma existsb_streqb k l : existsb (streqb k) l = true <-> In k l.
Proof.
  rewrite existsb_exists. split.
  - intros [x [Hx E]]. apply streqb_true in E. now subst.
  - intros H. exists k. split; [exact H | apply streqb_refl].
Qed.

Lemma In_unique k l : In k (unique l) <-> In k l.
Proof.
  induction l as [|a l IH]; simpl; [tauto|].
  rewrite filter_In, IH. case_streqb k a; subst; simpl; intuition congruence.
Qed.

Lemma usp_getAll_keys k (p : URLSearchParams) : In k (usp_keys p) <-> usp_getAll k p <> [].
Proof.
  unfold usp_keys, usp_getAll. induction p as [|[k' v] p IH]; simpl; [tauto|].
  case_streqb k' k; simpl.
  - split; [congruence | now left].
  - rewrite <- IH. intuition congruence.
Qed.

Lemma parseQueryString_assign searchParams initialValue :
  parseQueryString searchParams initialValue =
  assign_keys (parsed_value (new_URLSearchParams searchParams) initialValue)
    (unique (usp_keys (new_URLSearchParams searchParams))) empty_obj.
Proof. reflexivity. Qed.

Lemma parsed_value_not_null p iv k : In k (usp_keys p) -> parsed_value p iv k <> VNull.
Proof.
  intros Hk. apply usp_getAll_keys in Hk. unfold parsed_value, usp_get_value, usp_get.
  destruct (usp_getAll k p) as [|s l]; [congruence|]. simpl hd_error.
  destruct (1 <? _); [discriminate|].
  destruct (_ && _); [|discriminate].
  simpl. destruct (negb _); [destruct (is_finite _)|]; discriminate.
Qed.

Lemma empty_obj_shape : plain_shape empty_obj.
Proof. split; simpl; [reflexivity | discriminate]. Qed.

(** ** Parsing *)

(** C5: coercion follows the type of the default, not the text: ["page=5"]
    parsed against [{page: 1}] gives the number 5, and against
    [{page: "1"}] the string ["5"]. *)
Theorem numeric_coercion_is_schema_directed :
  parseQueryString (js "page=5") [(js "page", VNum (number_of_Z 1))]
    = lit [(js "page", VNum (number_of_Z 5))]
  /\ parseQueryString (js "page=5") [(js "page", VStr (js "1"))]
    = lit [(js "page", VStr (js "5"))].
Proof. split; vm_compute; reflexivity. Qed.

(** A key that is not [__proto__] reads back as the value assigned to it,
    when it occurs in the query string at all. *)
Lemma parseQueryString_own searchParams initialValue key :
  key <> proto_key ->
  get_own key (own (parseQueryString searchParams initialValue)) =
  if existsb (streqb key) (usp_keys (new_URLSearchParams searchParams))
  then Some (parsed_value (new_URLSearchParams searchParams) initialValue key)
  else None.
Proof.
  intros Hk. rewrite parseQueryString_assign, assign_keys_own by exact Hk.
  set (p := new_URLSearchParams searchParams).
  destruct (existsb (streqb key) (unique (usp_keys p))) eqn:E1;
    destruct (existsb (streqb key) (usp_keys p)) eqn:E2; try reflexivity.
  - apply (proj1 (existsb_streqb _ _)), (proj1 (In_unique _ _)),
      (proj2 (existsb_streqb _ _)) in E1.
    congruence.
  - apply (proj1 (existsb_streqb _ _)), (proj2 (In_unique _ _)),
      (proj2 (existsb_streqb _ _)) in E2.
    congruence.
Qed.

Lemma parseQueryString_shape searchParams initialValue :
  plain_shape (parseQueryString searchParams initialValue).
Proof.
  rewrite parseQueryString_assign. apply assign_keys_shape; [|apply empty_obj_shape].
  intros k Hk. apply parsed_value_not_null. now apply In_unique.
Qed.

(** C10: a key that occurs more than once reads back as the array of its
    decoded occurrences, each a string, whatever the type of its default;
    a key whose value came out as a number occurs exactly once. *)
Theorem repeated_key_is_array_of_raw_strings
    (searchParams : jsstring) (initialValue : literal) (key : jsstring)
    (Hrepeated : (1 < List.length (usp_getAll key (new_URLSearchParams searchParams)))%nat) :
  get_data key (parseQueryString searchParams initialValue) =
    Some (VArr (map VStr (usp_getAll key (new_URLSearchParams searchParams))))
  /\ forall k n,
       get_data k (parseQueryString searchParams initialValue) = Some (VNum n) ->
       exists s, usp_getAll k (new_URLSearchParams searchParams) = [s]
                 /\ n = StringToNumber s
                 /\ typeof_member k initialValue = TNumber.
Proof.
  set (p := new_URLSearchParams searchParams) in *.
  pose proof (parseQueryString_shape searchParams initialValue) as [Hown Hproto].
  split.
  - assert (Hin : In key (usp_keys p)).
    { apply usp_getAll_keys. destruct (usp_getAll key p); simpl in *; [lia | discriminate]. }
    assert (Hval : parsed_value p initialValue key = VArr (map VStr (usp_getAll key p))).
    { unfold parsed_value. destruct (1 <? _) eqn:E; [reflexivity|]. apply Z.ltb_ge in E. lia. }
    unfold get_data. case_streqb key proto_key.
    + subst key. rewrite Hown.
      rewrite parseQueryString_assign.
      rewrite (assign_keys_proto _ (map VStr (usp_getAll proto_key p))).
      * apply (proj2 (In_unique _ _)), (proj2 (existsb_streqb _ _)) in Hin.
        fold p. now rewrite Hin.
      * intros k Hk. apply parsed_value_not_null. now apply In_unique.
      * apply empty_obj_shape.
      * exact Hval.
    + rewrite parseQueryString_own by exact E. fold p.
      apply (proj2 (existsb_streqb _ _)) in Hin. rewrite Hin. now rewrite Hval.
  - intros k n Hget. unfold get_data in Hget.
    case_streqb k proto_key.
    + subst k. rewrite Hown in Hget. destruct (proto _); discriminate.
    + rewrite parseQueryString_own in Hget by exact E. fold p in Hget.
      destruct (existsb (streqb k) (usp_keys p)) eqn:Ek;
        [|destruct (proto _); discriminate].
      injection Hget as Hget. unfold parsed_value, usp_get_value, usp_get in Hget.
      destruct (1 <? _) eqn:Elen; [discriminate|]. apply Z.ltb_ge in Elen.
      apply (proj1 (existsb_streqb _ _)), (proj1 (usp_getAll_keys _ _)) in Ek.
      destruct (usp_getAll k p) as [|s [|s' l]] eqn:Eall; simpl in *; try congruence; try lia.
      exists s. destruct (has_property k initialValue && _) eqn:Ety; [|discriminate].
      apply andb_true_iff in Ety as [_ Ety].
      simpl in Hget. destruct (negb _); [destruct (is_finite _)|]; try discriminate.
      injection Hget as <-. repeat split.
      destruct (typeof_member k initialValue); simpl in Ety; congruence.
Qed.

Lemma repeated_key_is_array_of_raw_strings_witness :
  (1 < List.length (usp_getAll (js "page") (new_URLSearchParams (js "page=1&page=2"))))%nat
  /\ get_data (js "page") (parseQueryString (js "page=1&page=2") (page 1)) =
       Some (VArr [VStr (js "1"); VStr (js "2")]).
Proof.
  split; [vm_compute; lia|].
  exact (proj1 (repeated_key_is_array_of_raw_strings (js "page=1&page=2") (page 1) (js "page")
                  ltac:(vm_compute; lia))).
Defined.

(** ** The hook: what each action does to the session *)

Lemma getInitialStateWithQueryString_frame initialValue options s :
  exists errors,
    getInitialStateWithQueryString initialValue options s =
      ({| state := state s; window := window s;
          events := events s ++ map ConsoleError errors |},
       Ok (reconciled initialValue options (window s))).
Proof.
  destruct s as [st w evs]. unfold reconciled, getInitialStateWithQueryString.
  unfold try_catch, bind, get_window, lift, ret, emit. simpl.
  destruct w as [[[|url] listen]|]; simpl;
    try (exists []; simpl; rewrite app_nil_r; reflexivity).
  destruct (parse (queryString_of initialValue options) _) as [parsed|e]; simpl.
  - exists []. simpl. now rewrite app_nil_r.
  - exists [e]. reflexivity.
Qed.

(** The first render in sync mode holds the reconciled state. *)
Lemma mount_sync initialValue options w :
  isSyncPathname_of options = true ->
  state (mount initialValue options w) = reconciled initialValue options w.
Proof.
  intros Hsync. unfold mount, useQueryStringState. rewrite Hsync.
  unfold bind at 1.
  destruct (getInitialStateWithQueryString_frame initialValue options
              {| state := empty_obj; window := w; events := [] |}) as [errors ->].
  reflexivity.
Qed.

Lemma filter_url_write_errors evs errors :
  filter is_url_write (evs ++ map ConsoleError errors) = filter is_url_write evs.
Proof.
  rewrite filter_app. induction errors; simpl in *; [apply app_nil_r | assumption].
Qed.

(** C8: in sync mode the popstate handler does not throw, replaces the
    state by the one the first render would compute from the URL navigated
    to, leaves the location as it is, and adds no history mutation and no
    call of the pathname delegate. *)
Theorem popstate_resyncs_without_url_write
    (initialValue : literal) (options : UseQueryStringStateOptions) (s : session)
    (Hsync : isSyncPathname_of options = true) :
  snd (handlePopState initialValue options s) = Ok tt
  /\ state (fst (handlePopState initialValue options s))
       = state (mount initialValue options (window s))
  /\ window (fst (handlePopState initialValue options s)) = window s
  /\ filter is_url_write (events (fst (handlePopState initialValue options s)))
       = filter is_url_write (events s).
Proof.
  rewrite mount_sync by exact Hsync.
  unfold handlePopState. rewrite Hsync. unfold bind.
  destruct (getInitialStateWithQueryString_frame initialValue options s) as [errors ->].
  simpl. repeat split. apply filter_url_write_errors.
Qed.

Lemma popstate_resyncs_without_url_write_witness :
  isSyncPathname_of default_options = true
  /\ state (fst (handlePopState (page 1) default_options
                   {| state := lit (page 3); window := browser_at (js "/p") (js "page=2");
                      events := [PushState (js "/p?page=3")] |}))
     = lit (page 2).
Proof.
  split; [reflexivity|].
  rewrite (proj1 (proj2 (popstate_resyncs_without_url_write (page 1) default_options
                           {| state := lit (page 3); window := browser_at (js "/p") (js "page=2");
                              events := [PushState (js "/p?page=3")] |} eq_refl))).
  vm_compute. reflexivity.
Defined.

(** Calling the third element of the result changes nothing in the session
    and returns a function; only calling that function sets the state. *)
Lemma reset_returns_a_function initialValue options s :
  reset initialValue options s = (s, Ok (setState initialValue options RESET)).
Proof. reflexivity. Qed.

(** C1, at the failing input: after [setState({page: 2})] a call of the
    reset action leaves the state [{page: 2}], which is not the defaults
    [{page: 1}]; the function it returned is the one that resets. *)
Theorem reset_action_does_not_reset :
  let s1 := fst (setState (page 1) default_options (Value (lit (page 2)))
                   (mount (page 1) default_options None)) in
  state (fst (reset (page 1) default_options s1)) = lit (page 2)
  /\ state (fst (reset (page 1) default_options s1)) <> lit (page 1)
  /\ state (fst (setState (page 1) default_options RESET s1)) = lit (page 1)
  /\ exists inner, snd (reset (page 1) default_options s1) = Ok inner
                   /\ state (fst (inner s1)) = lit (page 1).
Proof.
  cbv zeta. repeat split.
  - vm_compute. discriminate.
  - eexists. split; [reflexivity|]. vm_compute. reflexivity.
Qed.

(** The URL write of [setState] does not look at the sync flag. *)
Lemma setState_ignores_sync_mode initialValue observer delegate codec sync sync' value s :
  setState initialValue
    {| onValueChange := observer; onPathnameChange := delegate;
       queryString := codec; isSyncPathname := sync |} value s
  = setState initialValue
      {| onValueChange := observer; onPathnameChange := delegate;
         queryString := codec; isSyncPathname := sync' |} value s.
Proof. reflexivity. Qed.

(** C2, at the failing input: with [isSyncPathname: false] and the location
    [/p?x=1], [setState({page: 2})] pushes [/p?x=1&page=2] to the history. *)
Theorem setState_writes_url_with_sync_disabled :
  isSyncPathname_of no_sync = false
  /\ events (fst (setState (page 1) no_sync (Value (lit (page 2)))
                    (mount (page 1) no_sync (browser_at (js "/p") (js "x=1")))))
     = [PushState (js "/p?x=1&page=2")].
Proof. split; vm_compute; reflexivity. Qed.

(** C4, at the failing inputs: with defaults [{page: 1}], the query
    [a=1&b=2] leaves the foreign key [b] in the state (the loop that deletes
    foreign keys skips the entry after each one it deletes), and the query
    [toString=x] leaves [toString] (the test [k in initialValue] holds for
    what [Object.prototype] provides). *)
Theorem reconciliation_keeps_foreign_keys :
  keys (state (mount (page 1) default_options (browser_at (js "/p") (js "a=1&b=2"))))
    = [js "page"; js "b"]
  /\ keys (state (mount (page 1) default_options (browser_at (js "/p") (js "toString=x"))))
    = [js "page"; js "toString"]
  /\ keys (lit (page 1)) = [js "page"].
Proof. repeat split; vm_compute; reflexivity. Qed.

(** C6, at the failing input: the null entry [b] of [{a: "1", b: null,
    c: "2"}] gives no pair but keeps its separator. *)
Theorem stringify_null_entry_leaves_separator :
  stringifyQueryString
    (lit [(js "a", VStr (js "1")); (js "b", VNull); (js "c", VStr (js "2"))])
  = Ok (js "a=1&&c=2")
  /\ stringifyQueryString (lit [(js "a", VArr [VStr (js "1"); VUndefined])])
  = Ok (js "a=1&").
Proof. split; vm_compute; reflexivity. Qed.

(** ** UTF-16: well-formed strings and their code points *)

Ltac zbool :=
  repeat match goal with
  | H : _ /\ _ |- _ => destruct H
  | H : andb _ _ = true |- _ => apply andb_true_iff in H
  | H : orb _ _ = false |- _ => apply orb_false_iff in H
  | H : andb _ _ = false |- _ => apply andb_false_iff in H
  | H : orb _ _ = true |- _ => apply orb_true_iff in H
  | H : negb _ = true |- _ => apply negb_true_iff in H
  | H : negb _ = false |- _ => apply negb_false_iff in H
  | H : (_ <=? _) = true |- _ => apply Z.leb_le in H
  | H : (_ <=? _) = false |- _ => apply Z.leb_gt in H
  | H : (_ <? _) = true |- _ => apply Z.ltb_lt in H
  | H : (_ <? _) = false |- _ => apply Z.ltb_ge in H
  | H : (_ =? _) = true |- _ => apply Z.eqb_eq in H
  | H : (_ =? _) = false |- _ => apply Z.eqb_neq in H
  end.

Ltac zbool_goal :=
  repeat match goal with
  | |- andb _ _ = true => apply andb_true_iff; split
  | |- negb _ = true => apply negb_true_iff
  | |- (_ <=? _) = true => apply Z.leb_le
  | |- (_ <=? _) = false => apply Z.leb_gt
  | |- (_ <? _) = true => apply Z.ltb_lt
  | |- (_ <? _) = false => apply Z.ltb_ge
  | |- (_ =? _) = true => apply Z.eqb_eq
  | |- (_ =? _) = false => apply Z.eqb_neq
  end.

Ltac div_lia := Z.div_mod_to_equations; lia.

Lemma is_surrogate_true c : is_surrogate c = true <-> 0xD800 <= c <= 0xDFFF.
Proof. unfold is_surrogate. rewrite andb_true_iff, !Z.leb_le. tauto. Qed.

Lemma is_surrogate_false c : is_surrogate c = false <-> c < 0xD800 \/ 0xDFFF < c.
Proof. unfold is_surrogate. rewrite andb_false_iff, !Z.leb_gt. tauto. Qed.

Lemma is_scalar_true cp :
  is_scalar cp = true <-> (0 <= cp < 0xD800 \/ 0xDFFF < cp <= 0x10FFFF).
Proof.
  unfold is_scalar. rewrite !andb_true_iff, negb_true_iff, is_surrogate_false, !Z.leb_le. lia.
Qed.

Lemma is_byte_true b : is_byte b = true <-> 0 <= b <= 255.
Proof. unfold is_byte. rewrite andb_true_iff, !Z.leb_le. tauto. Qed.

Lemma is_code_unit_true c : is_code_unit c = true <-> 0 <= c <= 0xFFFF.
Proof. unfold is_code_unit. rewrite andb_true_iff, !Z.leb_le. tauto. Qed.

(** Induction along [StringToCodePoints], one or two code units at a time. *)
Lemma code_units_ind (P : jsstring -> Prop) :
  P [] -> (forall c, P [c]) ->
  (forall c d rest, P (d :: rest) -> P rest -> P (c :: d :: rest)) ->
  forall s, P s.
Proof.
  intros Hnil Hone Hstep s.
  assert (H : P s /\ forall c, P (c :: s)); [|exact (proj1 H)].
  induction s as [|d rest [IH1 IH2]]; split; auto.
Qed.

Lemma surrogate_pair_range h l :
  is_high_surrogate h = true -> is_low_surrogate l = true ->
  0x10000 <= surrogate_pair h l <= 0x10FFFF.
Proof.
  unfold is_high_surrogate, is_low_surrogate, surrogate_pair. intros. zbool. lia.
Qed.

Lemma utf16_encode_pair h l :
  is_high_surrogate h = true -> is_low_surrogate l = true ->
  utf16_encode (surrogate_pair h l) = [h; l].
Proof.
  intros Hh Hl. pose proof (surrogate_pair_range h l Hh Hl) as Hr.
  unfold utf16_encode. destruct (surrogate_pair h l <? 0x10000) eqn:E; zbool; [lia|].
  unfold is_high_surrogate, is_low_surrogate, surrogate_pair in *. zbool.
  f_equal; [|f_equal]; div_lia.
Qed.

(** The code points of a well-formed string are scalar values, and writing
    them back gives the string. *)
Lemma well_formed_code_points s :
  well_formed s = true ->
  forallb is_scalar (StringToCodePoints s) = true
  /\ CodePointsToString (StringToCodePoints s) = s.
Proof.
  unfold well_formed, CodePointsToString.
  induction s as [|c|c d rest IH1 IH2] using code_units_ind; intros Hwf.
  - split; reflexivity.
  - simpl in *. zbool. apply is_code_unit_true in H. apply is_surrogate_false in H0.
    split.
    + rewrite andb_true_r. apply is_scalar_true. lia.
    + unfold utf16_encode. destruct (c <? 0x10000) eqn:E; zbool; [reflexivity | lia].
  - change (StringToCodePoints (c :: d :: rest)) with
      (if is_high_surrogate c && is_low_surrogate d
       then surrogate_pair c d :: StringToCodePoints rest
       else c :: StringToCodePoints (d :: rest)) in *.
    apply andb_true_iff in Hwf as [Hu Hs]. simpl in Hu.
    apply andb_true_iff in Hu as [Hc Hu]. apply andb_true_iff in Hu as [Hd Hu].
    destruct (is_high_surrogate c && is_low_surrogate d) eqn:Epair.
    + apply andb_true_iff in Epair as [Hh Hl]. simpl in Hs.
      apply andb_true_iff in Hs as [_ Hs].
      destruct IH2 as [IHa IHb]; [now rewrite Hu, Hs|].
      split.
      * simpl. rewrite IHa, andb_true_r. apply is_scalar_true.
        pose proof (surrogate_pair_range c d Hh Hl). lia.
      * simpl. rewrite IHb, utf16_encode_pair by assumption. reflexivity.
    + simpl in Hs. apply andb_true_iff in Hs as [Hcs Hs].
      destruct IH1 as [IHa IHb]; [simpl; now rewrite Hd, Hu, Hs|].
      apply negb_true_iff, is_surrogate_false in Hcs. apply is_code_unit_true in Hc.
      split.
      * cbn [forallb]. rewrite IHa, andb_true_r. apply is_scalar_true. lia.
      * cbn [flat_map]. rewrite IHb. unfold utf16_encode.
        destruct (c <? 0x10000) eqn:E; zbool; [reflexivity | lia].
Qed.

Lemma StringToCodePoints_cons c s :
  is_high_surrogate c = false ->
  StringToCodePoints (c :: s) = c :: StringToCodePoints s.
Proof. intros H. destruct s; simpl; [reflexivity | now rewrite H]. Qed.

Lemma StringToCodePoints_pair h l s :
  is_high_surrogate h = true -> is_low_surrogate l = true ->
  StringToCodePoints (h :: l :: s) = surrogate_pair h l :: StringToCodePoints s.
Proof. intros Hh Hl. simpl. now rewrite Hh, Hl. Qed.

Lemma utf16_encode_code_points cp s :
  is_scalar cp = true ->
  StringToCodePoints (utf16_encode cp ++ s) = cp :: StringToCodePoints s
  /\ forallb is_code_unit (utf16_encode cp) = true.
Proof.
  intros Hcp. apply is_scalar_true in Hcp. unfold utf16_encode.
  destruct (cp <? 0x10000) eqn:E; zbool.
  - split.
    + apply StringToCodePoints_cons. unfold is_high_surrogate.
      apply andb_false_iff. rewrite !Z.leb_gt. lia.
    + simpl. rewrite andb_true_r. apply is_code_unit_true. lia.
  - split.
    + cbn [app]. rewrite StringToCodePoints_pair.
      * f_equal. unfold surrogate_pair. div_lia.
      * unfold is_high_surrogate. zbool_goal; div_lia.
      * unfold is_low_surrogate. zbool_goal; div_lia.
    + cbn [forallb]. rewrite !andb_true_iff, !is_code_unit_true. repeat split; div_lia.
Qed.

(** Scalar values written as UTF-16 give a well-formed string with these
    code points. *)
Lemma code_points_well_formed cps :
  forallb is_scalar cps = true ->
  StringToCodePoints (CodePointsToString cps) = cps
  /\ well_formed (CodePointsToString cps) = true.
Proof.
  unfold well_formed, CodePointsToString.
  induction cps as [|cp cps IH]; intros H; [split; reflexivity|].
  simpl in H. apply andb_true_iff in H as [Hcp Hcps].
  destruct (IH Hcps) as [IHa IHb]. apply andb_true_iff in IHb as [IHu IHs].
  destruct (utf16_encode_code_points cp (flat_map utf16_encode cps) Hcp) as [Ha Hb].
  cbn [flat_map]. rewrite Ha, IHa. split; [reflexivity|].
  rewrite forallb_app, Hb, IHu. cbn [forallb andb].
  rewrite <- IHa at 1. rewrite IHs, andb_true_r.
  apply is_scalar_true in Hcp. apply negb_true_iff, is_surrogate_false. lia.
Qed.

Lemma well_formed_to_usv s :
  well_formed s = true -> to_usv s = StringToCodePoints s.
Proof.
  unfold well_formed, to_usv. intros H. apply andb_true_iff in H as [_ H].
  induction (StringToCodePoints s) as [|cp cps IH]; [reflexivity|].
  simpl in *. apply andb_true_iff in H as [Hcp H].
  apply negb_true_iff in Hcp. rewrite Hcp, IH by exact H. reflexivity.
Qed.

Lemma ascii_code_points s :
  forallb is_ascii s = true -> StringToCodePoints s = s.
Proof.
  induction s as [|c s IH]; intros H; [reflexivity|].
  simpl in H. apply andb_true_iff in H as [Hc H].
  rewrite StringToCodePoints_cons, IH by (unfold is_ascii, is_high_surrogate in *;
    try assumption; zbool; apply andb_false_iff; rewrite !Z.leb_gt; lia).
  reflexivity.
Qed.

Lemma ascii_utf8_bytes s :
  forallb is_ascii s = true -> utf8_bytes s = s.
Proof.
  intros H. unfold utf8_bytes, to_usv. rewrite ascii_code_points by exact H.
  induction s as [|c s IH]; [reflexivity|].
  simpl in H. apply andb_true_iff in H as [Hc H].
  cbn [map flat_map]. rewrite IH by exact H.
  unfold is_ascii in Hc. zbool.
  replace (is_surrogate c) with false
    by (symmetry; apply is_surrogate_false; lia).
  unfold utf8_encode. destruct (c <? 0x80) eqn:E; zbool; [reflexivity | lia].
Qed.

(** ** UTF-8: the decoder inverts the encoder and yields scalar values *)

Ltac case_cmp :=
  repeat match goal with
  | |- context [?a <=? ?b] => destruct (a <=? b) eqn:?
  | |- context [?a <? ?b] => destruct (a <? b) eqn:?
  | |- context [?a =? ?b] => destruct (a =? b) eqn:?
  end.

(** The digits of a code point in base 64, as the encoder takes them. *)
Lemma base64_digits cp :
  0 <= cp ->
  cp = (cp / 0x40000) * 0x40000 + ((cp / 0x1000) mod 0x40) * 0x1000
       + ((cp / 0x40) mod 0x40) * 0x40 + cp mod 0x40
  /\ cp / 0x1000 = (cp / 0x40000) * 0x40 + (cp / 0x1000) mod 0x40
  /\ cp / 0x40 = (cp / 0x1000) * 0x40 + (cp / 0x40) mod 0x40
  /\ 0 <= (cp / 0x1000) mod 0x40 < 0x40
  /\ 0 <= (cp / 0x40) mod 0x40 < 0x40
  /\ 0 <= cp mod 0x40 < 0x40
  /\ 0 <= cp / 0x40000.
Proof. intros H. div_lia. Qed.

Lemma utf8_encode_bytes cp :
  is_scalar cp = true -> forallb is_byte (utf8_encode cp) = true.
Proof.
  intros H. apply is_scalar_true in H. unfold utf8_encode.
  destruct (base64_digits cp ltac:(lia)) as (Hcp & H3 & H2 & B2 & B1 & B0 & B3).
  revert Hcp H3 H2 B2 B1 B0 B3.
  generalize (cp / 0x40000) ((cp / 0x1000) mod 0x40) ((cp / 0x40) mod 0x40) (cp mod 0x40)
    (cp / 0x1000) (cp / 0x40).
  intros d3 d2 d1 d0 q2 q1 Hcp H3 H2 B2 B1 B0 B3.
  case_cmp; zbool; cbn [forallb]; rewrite ?andb_true_iff, ?is_byte_true;
    repeat split; lia.
Qed.

Lemma utf8_decode_continue_last cp lo hi b rest :
  lo <= b <= hi ->
  utf8_decode_from (Some (Pending cp 1 lo hi)) (b :: rest)
  = (cp * 64 + (b - 128)) :: utf8_decode_from None rest.
Proof.
  intros H. cbn [utf8_decode_from u_lower u_upper u_needed u_cp].
  replace ((lo <=? b) && (b <=? hi)) with true; [reflexivity|].
  symmetry. zbool_goal; lia.
Qed.

Lemma utf8_decode_continue_more cp n lo hi b rest :
  lo <= b <= hi ->
  utf8_decode_from (Some (Pending cp (S (S n)) lo hi)) (b :: rest)
  = utf8_decode_from (Some (Pending (cp * 64 + (b - 128)) (S n) 128 191)) rest.
Proof.
  intros H. cbn [utf8_decode_from u_lower u_upper u_needed u_cp].
  replace ((lo <=? b) && (b <=? hi)) with true; [reflexivity|].
  symmetry. zbool_goal; lia.
Qed.

Lemma utf8_decode_start b rest :
  utf8_decode_from None (b :: rest) =
  match utf8_lead b with
  | inl cp => cp :: utf8_decode_from None rest
  | inr p => utf8_decode_from (Some p) rest
  end.
Proof. reflexivity. Qed.

Lemma utf8_lead_ascii b : 0 <= b <= 0x7F -> utf8_lead b = inl b.
Proof.
  intros H. unfold utf8_lead.
  replace (b <=? 0x7F) with true by (symmetry; zbool_goal; lia). reflexivity.
Qed.

Lemma utf8_lead_two q :
  2 <= q <= 31 -> utf8_lead (0xC0 + q) = inr (Pending q 1 0x80 0xBF).
Proof.
  intros H. unfold utf8_lead.
  replace (0xC0 + q <=? 0x7F) with false by (symmetry; zbool_goal; lia).
  replace ((0xC2 <=? 0xC0 + q) && (0xC0 + q <=? 0xDF)) with true
    by (symmetry; zbool_goal; lia).
  do 2 f_equal. lia.
Qed.

Lemma utf8_lead_three q :
  0 <= q <= 15 ->
  utf8_lead (0xE0 + q) =
  inr (Pending q 2 (if q =? 0 then 0xA0 else 0x80) (if q =? 13 then 0x9F else 0xBF)).
Proof.
  intros H. unfold utf8_lead.
  replace (0xE0 + q <=? 0x7F) with false by (symmetry; zbool_goal; lia).
  replace ((0xC2 <=? 0xE0 + q) && (0xE0 + q <=? 0xDF)) with false
    by (symmetry; apply andb_false_iff; right; zbool_goal; lia).
  replace ((0xE0 <=? 0xE0 + q) && (0xE0 + q <=? 0xEF)) with true
    by (symmetry; zbool_goal; lia).
  replace (0xE0 + q =? 0xE0) with (q =? 0)
    by (destruct (q =? 0) eqn:E; symmetry; zbool; zbool_goal; lia).
  replace (0xE0 + q =? 0xED) with (q =? 13)
    by (destruct (q =? 13) eqn:E; symmetry; zbool; zbool_goal; lia).
  do 2 f_equal. lia.
Qed.

Lemma utf8_lead_four q :
  0 <= q <= 4 ->
  utf8_lead (0xF0 + q) =
  inr (Pending q 3 (if q =? 0 then 0x90 else 0x80) (if q =? 4 then 0x8F else 0xBF)).
Proof.
  intros H. unfold utf8_lead.
  replace (0xF0 + q <=? 0x7F) with false by (symmetry; zbool_goal; lia).
  replace ((0xC2 <=? 0xF0 + q) && (0xF0 + q <=? 0xDF)) with false
    by (symmetry; apply andb_false_iff; right; zbool_goal; lia).
  replace ((0xE0 <=? 0xF0 + q) && (0xF0 + q <=? 0xEF)) with false
    by (symmetry; apply andb_false_iff; right; zbool_goal; lia).
  replace ((0xF0 <=? 0xF0 + q) && (0xF0 + q <=? 0xF4)) with true
    by (symmetry; zbool_goal; lia).
  replace (0xF0 + q =? 0xF0) with (q =? 0)
    by (destruct (q =? 0) eqn:E; symmetry; zbool; zbool_goal; lia).
  replace (0xF0 + q =? 0xF4) with (q =? 4)
    by (destruct (q =? 4) eqn:E; symmetry; zbool; zbool_goal; lia).
  do 2 f_equal. lia.
Qed.

(** One encoded scalar value is decoded to itself. *)
Lemma utf8_decode_encode cp rest :
  is_scalar cp = true ->
  utf8_decode_from None (utf8_encode cp ++ rest) = cp :: utf8_decode_from None rest.
Proof.
  intros H. apply is_scalar_true in H. unfold utf8_encode.
  destruct (base64_digits cp ltac:(lia)) as (Hcp & H3 & H2 & B2 & B1 & B0 & B3).
  revert Hcp H3 H2 B2 B1 B0 B3.
  generalize (cp / 0x40000) ((cp / 0x1000) mod 0x40) ((cp / 0x40) mod 0x40) (cp mod 0x40)
    (cp / 0x1000) (cp / 0x40).
  intros d3 d2 d1 d0 q2 q1 Hcp H3 H2 B2 B1 B0 B3.
  destruct (cp <? 0x80) eqn:E1; [|destruct (cp <? 0x800) eqn:E2;
    [|destruct (cp <? 0x10000) eqn:E3]]; zbool; cbn [app]; rewrite utf8_decode_start.
  - rewrite utf8_lead_ascii by lia. reflexivity.
  - rewrite utf8_lead_two by lia.
    rewrite utf8_decode_continue_last by lia. f_equal. lia.
  - rewrite utf8_lead_three by lia.
    rewrite utf8_decode_continue_more
      by (destruct (q2 =? 0) eqn:?; destruct (q2 =? 13) eqn:?; zbool; lia).
    rewrite utf8_decode_continue_last by lia. f_equal. lia.
  - rewrite utf8_lead_four by lia.
    rewrite utf8_decode_continue_more
      by (destruct (d3 =? 0) eqn:?; destruct (d3 =? 4) eqn:?; zbool; lia).
    rewrite utf8_decode_continue_more by lia.
    rewrite utf8_decode_continue_last by lia. f_equal. lia.
Qed.

Lemma utf8_decode_encode_all cps :
  forallb is_scalar cps = true -> utf8_decode (flat_map utf8_encode cps) = cps.
Proof.
  unfold utf8_decode. induction cps as [|cp cps IH]; intros H; [reflexivity|].
  simpl in H. apply andb_true_iff in H as [Hcp H].
  cbn [flat_map]. rewrite utf8_decode_encode by exact Hcp. now rewrite IH.
Qed.

Lemma utf8_lead_ok b :
  is_byte b = true ->
  match utf8_lead b with
  | inl cp => is_scalar cp = true
  | inr p => pending_ok p
  end.
Proof.
  intros H. apply is_byte_true in H. unfold utf8_lead.
  destruct (b <=? 0x7F) eqn:E1; zbool; [apply is_scalar_true; lia|].
  destruct ((0xC2 <=? b) && (b <=? 0xDF)) eqn:E2; zbool.
  { unfold pending_ok; cbn [u_lower u_upper u_needed u_cp]. lia. }
  destruct ((0xE0 <=? b) && (b <=? 0xEF)) eqn:E3; zbool.
  { unfold pending_ok; cbn [u_lower u_upper u_needed u_cp].
    destruct (b =? 0xE0) eqn:?; destruct (b =? 0xED) eqn:?; zbool; lia. }
  destruct ((0xF0 <=? b) && (b <=? 0xF4)) eqn:E4; zbool.
  { unfold pending_ok; cbn [u_lower u_upper u_needed u_cp].
    destruct (b =? 0xF0) eqn:?; destruct (b =? 0xF4) eqn:?; zbool; lia. }
  reflexivity.
Qed.

Lemma pending_ok_step p b :
  pending_ok p -> u_lower p <= b <= u_upper p ->
  match u_needed p with
  | S (S n) => pending_ok (Pending (u_cp p * 64 + (b - 128)) (S n) 128 191)
  | _ => is_scalar (u_cp p * 64 + (b - 128)) = true
  end.
Proof.
  destruct p as [cp n lo hi]. unfold pending_ok. cbn [u_lower u_upper u_needed u_cp].
  intros (Hlo & Hhi & H) Hb.
  destruct n as [|[|[|[|n]]]]; try contradiction.
  - apply is_scalar_true. lia.
  - cbn [u_lower u_upper u_needed u_cp]. lia.
  - cbn [u_lower u_upper u_needed u_cp]. lia.
Qed.

(** Whatever the bytes, the decoder yields scalar values only. *)
Lemma utf8_decode_from_scalar bytes : forall st,
  match st with None => True | Some p => pending_ok p end ->
  forallb is_byte bytes = true ->
  forallb is_scalar (utf8_decode_from st bytes) = true.
Proof.
  induction bytes as [|b rest IH]; intros st Hst Hbytes.
  - destruct st; reflexivity.
  - simpl in Hbytes. apply andb_true_iff in Hbytes as [Hb Hrest].
    assert (Hstart : forallb is_scalar
              match utf8_lead b with
              | inl cp => cp :: utf8_decode_from None rest
              | inr p => utf8_decode_from (Some p) rest
              end = true).
    { pose proof (utf8_lead_ok b Hb) as Hl. destruct (utf8_lead b) as [cp|p].
      - cbn [forallb]. rewrite Hl. now apply IH.
      - now apply IH. }
    destruct st as [p|]; [|exact Hstart].
    cbn [utf8_decode_from].
    destruct ((u_lower p <=? b) && (b <=? u_upper p)) eqn:E; zbool.
    + pose proof (pending_ok_step p b Hst ltac:(lia)) as Hs.
      destruct (u_needed p) as [|[|n]].
      * cbn [forallb]. rewrite Hs. now apply IH.
      * cbn [forallb]. rewrite Hs. now apply IH.
      * now apply IH.
    + cbn [forallb]. exact Hstart.
Qed.

Lemma utf8_decode_scalar bytes :
  forallb is_byte bytes = true -> forallb is_scalar (utf8_decode bytes) = true.
Proof. intros H. now apply utf8_decode_from_scalar. Qed.

(** ** Percent-encoding: decoding inverts both encoders *)

Ltac zcases :=
  repeat (zbool; match goal with
                 | H : _ \/ _ |- _ => destruct H
                 end); zbool.

Lemma hex_value_digit d : 0 <= d < 16 -> hex_value (hex_digit d) = Some d.
Proof.
  intros H. unfold hex_value, hex_digit.
  destruct (d <? 10) eqn:E; zbool.
  - replace ((48 <=? 48 + d) && (48 + d <=? 57)) with true by (symmetry; zbool_goal; lia).
    f_equal. lia.
  - replace ((48 <=? 55 + d) && (55 + d <=? 57)) with false
      by (symmetry; apply andb_false_iff; right; zbool_goal; lia).
    replace ((65 <=? 55 + d) && (55 + d <=? 70)) with true by (symmetry; zbool_goal; lia).
    f_equal. lia.
Qed.

Lemma hex_digit_range d :
  0 <= d < 16 -> 48 <= hex_digit d <= 57 \/ 65 <= hex_digit d <= 70.
Proof. intros H. unfold hex_digit. destruct (d <? 10) eqn:E; zbool; lia. Qed.

Lemma percent_decode_byte b rest :
  is_byte b = true -> percent_decode (percent_byte b ++ rest) = b :: percent_decode rest.
Proof.
  intros H. apply is_byte_true in H. unfold percent_byte. cbn [app percent_decode].
  rewrite Z.eqb_refl, !hex_value_digit by div_lia. f_equal. div_lia.
Qed.

Lemma percent_decode_other c rest :
  c <> 37 -> percent_decode (c :: rest) = c :: percent_decode rest.
Proof.
  intros H. cbn [percent_decode]. apply Z.eqb_neq in H. now rewrite H.
Qed.

Lemma plus_to_space_byte b rest :
  is_byte b = true ->
  plus_to_space (percent_byte b ++ rest) = percent_byte b ++ plus_to_space rest.
Proof.
  intros H. apply is_byte_true in H. unfold percent_byte, plus_to_space. cbn [app map].
  pose proof (hex_digit_range (b / 16) ltac:(div_lia)).
  pose proof (hex_digit_range (b mod 16) ltac:(div_lia)).
  replace (hex_digit (b / 16) =? 43) with false by (symmetry; zbool_goal; lia).
  replace (hex_digit (b mod 16) =? 43) with false by (symmetry; zbool_goal; lia).
  reflexivity.
Qed.

Lemma percent_bytes_decode bytes rest :
  forallb is_byte bytes = true ->
  percent_decode (plus_to_space (flat_map percent_byte bytes ++ rest))
  = bytes ++ percent_decode (plus_to_space rest).
Proof.
  induction bytes as [|b bytes IH]; intros H; [reflexivity|].
  simpl in H. apply andb_true_iff in H as [Hb H].
  cbn [flat_map]. rewrite <- app_assoc, plus_to_space_byte, percent_decode_byte by exact Hb.
  rewrite IH by exact H. reflexivity.
Qed.

Lemma is_alnum_range c :
  is_alnum c = true -> 48 <= c <= 57 \/ 65 <= c <= 90 \/ 97 <= c <= 122.
Proof. unfold is_alnum. intros H. zcases; lia. Qed.

Lemma uri_unescaped_range c :
  uri_unescaped c = true ->
  0 <= c < 128 /\ c <> 37 /\ c <> 38 /\ c <> 43 /\ c <> 61 /\ c <> 63.
Proof.
  unfold uri_unescaped. cbn [existsb]. intros H.
  apply orb_true_iff in H as [H|H].
  - apply is_alnum_range in H. lia.
  - zcases; try discriminate; lia.
Qed.

Lemma urlencoded_safe_range c :
  urlencoded_safe c = true ->
  0 <= c < 128 /\ c <> 37 /\ c <> 38 /\ c <> 43 /\ c <> 61 /\ c <> 63.
Proof.
  unfold urlencoded_safe. cbn [existsb]. intros H.
  apply orb_true_iff in H as [H|H].
  - apply is_alnum_range in H. lia.
  - zcases; try discriminate; lia.
Qed.

Lemma is_delimiter_free_true c :
  is_delimiter_free c = true <-> 0 <= c < 128 /\ c <> 38 /\ c <> 61 /\ c <> 63.
Proof.
  unfold is_delimiter_free, is_ascii.
  rewrite !andb_true_iff, negb_true_iff, !orb_false_iff, Z.leb_le, Z.ltb_lt, !Z.eqb_neq.
  tauto.
Qed.

Lemma percent_byte_delimiter_free b :
  is_byte b = true -> forallb is_delimiter_free (percent_byte b) = true.
Proof.
  intros H. apply is_byte_true in H. unfold percent_byte. cbn [forallb].
  pose proof (hex_digit_range (b / 16) ltac:(div_lia)).
  pose proof (hex_digit_range (b mod 16) ltac:(div_lia)).
  rewrite !andb_true_iff, !is_delimiter_free_true. repeat split; lia.
Qed.

Lemma percent_bytes_delimiter_free bytes :
  forallb is_byte bytes = true ->
  forallb is_delimiter_free (flat_map percent_byte bytes) = true.
Proof.
  induction bytes as [|b bytes IH]; intros H; [reflexivity|].
  simpl in H. apply andb_true_iff in H as [Hb H].
  cbn [flat_map]. rewrite forallb_app, percent_byte_delimiter_free, IH by assumption.
  reflexivity.
Qed.

Lemma encode_code_points_spec cps :
  encode_code_points cps =
  if forallb (fun cp => negb (is_surrogate cp)) cps
  then Ok (flat_map encoded_code_point cps) else Throw URIError.
Proof.
  induction cps as [|cp cps IH]; [reflexivity|].
  cbn [encode_code_points forallb flat_map]. rewrite IH.
  unfold encode_code_point, encoded_code_point.
  destruct (uri_unescaped cp) eqn:Eu.
  - apply uri_unescaped_range in Eu.
    replace (is_surrogate cp) with false by (symmetry; apply is_surrogate_false; lia).
    cbn [negb andb rbind]. destruct (forallb _ cps); reflexivity.
  - destruct (is_surrogate cp); cbn [negb andb rbind]; [reflexivity|].
    destruct (forallb _ cps); reflexivity.
Qed.

(** [encodeURIComponent] throws exactly on an unpaired surrogate. *)
Lemma encodeURIComponent_string_spec s :
  encodeURIComponent_string s =
  if no_lone_surrogate s then Ok (encoded s) else Throw URIError.
Proof. apply encode_code_points_spec. Qed.

Lemma well_formed_no_lone_surrogate s :
  well_formed s = true -> no_lone_surrogate s = true.
Proof. unfold well_formed. intros H. now apply andb_true_iff in H. Qed.

Lemma utf8_encode_all_bytes cps :
  forallb is_scalar cps = true -> forallb is_byte (flat_map utf8_encode cps) = true.
Proof.
  induction cps as [|cp cps IH]; intros H; [reflexivity|].
  simpl in H. apply andb_true_iff in H as [Hcp H].
  cbn [flat_map]. rewrite forallb_app, utf8_encode_bytes, IH by assumption. reflexivity.
Qed.

Lemma utf8_encode_ascii cp : 0 <= cp < 128 -> utf8_encode cp = [cp].
Proof.
  intros H. unfold utf8_encode.
  replace (cp <? 0x80) with true by (symmetry; zbool_goal; lia). reflexivity.
Qed.

Lemma plus_to_space_cons c rest :
  c <> 43 -> plus_to_space (c :: rest) = c :: plus_to_space rest.
Proof.
  intros H. unfold plus_to_space. cbn [map]. apply Z.eqb_neq in H. now rewrite H.
Qed.

Lemma encoded_code_points_decode cps rest :
  forallb is_scalar cps = true ->
  percent_decode (plus_to_space (flat_map encoded_code_point cps ++ rest))
  = flat_map utf8_encode cps ++ percent_decode (plus_to_space rest).
Proof.
  induction cps as [|cp cps IH]; intros H; [reflexivity|].
  simpl in H. apply andb_true_iff in H as [Hcp H].
  cbn [flat_map]. rewrite <- !app_assoc. unfold encoded_code_point at 1.
  destruct (uri_unescaped cp) eqn:Eu.
  - apply uri_unescaped_range in Eu. cbn [app].
    rewrite plus_to_space_cons, percent_decode_other, utf8_encode_ascii by lia.
    cbn [app]. now rewrite IH.
  - rewrite percent_bytes_decode by now apply utf8_encode_bytes.
    now rewrite IH.
Qed.

Lemma encoded_code_points_delimiter_free cps :
  forallb is_scalar cps = true ->
  forallb is_delimiter_free (flat_map encoded_code_point cps) = true.
Proof.
  induction cps as [|cp cps IH]; intros H; [reflexivity|].
  simpl in H. apply andb_true_iff in H as [Hcp H].
  cbn [flat_map]. rewrite forallb_app, IH, andb_true_r by exact H.
  unfold encoded_code_point. destruct (uri_unescaped cp) eqn:Eu.
  - apply uri_unescaped_range in Eu. cbn [forallb]. rewrite andb_true_r.
    apply is_delimiter_free_true. lia.
  - apply percent_bytes_delimiter_free. now apply utf8_encode_bytes.
Qed.

(** Decoding what [encodeURIComponent] wrote gives the string back. *)
Lemma urlencoded_decode_encoded s :
  well_formed s = true ->
  urlencoded_decode (encoded s) = s /\ forallb is_delimiter_free (encoded s) = true.
Proof.
  intros Hwf. destruct (well_formed_code_points s Hwf) as [Hsc Hback].
  unfold urlencoded_decode, encoded. split.
  - rewrite <- (app_nil_r (flat_map encoded_code_point _)).
    rewrite encoded_code_points_decode by exact Hsc.
    cbn [plus_to_space map percent_decode]. rewrite app_nil_r.
    rewrite utf8_decode_encode_all by exact Hsc. exact Hback.
  - now apply encoded_code_points_delimiter_free.
Qed.

Lemma serialized_bytes_decode bytes rest :
  forallb is_byte bytes = true ->
  percent_decode (plus_to_space (flat_map urlencoded_serialize_byte bytes ++ rest))
  = bytes ++ percent_decode (plus_to_space rest).
Proof.
  induction bytes as [|b bytes IH]; intros H; [reflexivity|].
  simpl in H. apply andb_true_iff in H as [Hb H].
  cbn [flat_map]. rewrite <- !app_assoc. unfold urlencoded_serialize_byte at 1.
  destruct (b =? 32) eqn:E32; zbool.
  - subst b. cbn [app]. unfold plus_to_space at 1. cbn [map]. fold (plus_to_space).
    change (43 =? 43) with true. cbv iota.
    rewrite percent_decode_other by lia. cbn [app]. f_equal. now apply IH.
  - destruct (urlencoded_safe b) eqn:Es.
    + apply urlencoded_safe_range in Es. cbn [app].
      rewrite plus_to_space_cons, percent_decode_other by lia.
      cbn [app]. f_equal. now apply IH.
    + change (percent_byte b) with (flat_map percent_byte [b] ).
      cbn [flat_map]. rewrite app_nil_r.
      rewrite plus_to_space_byte, percent_decode_byte by exact Hb.
      cbn [app]. f_equal. now apply IH.
Qed.

Lemma serialized_bytes_delimiter_free bytes :
  forallb is_byte bytes = true ->
  forallb is_delimiter_free (flat_map urlencoded_serialize_byte bytes) = true.
Proof.
  induction bytes as [|b bytes IH]; intros H; [reflexivity|].
  simpl in H. apply andb_true_iff in H as [Hb H].
  cbn [flat_map]. rewrite forallb_app, IH, andb_true_r by exact H.
  unfold urlencoded_serialize_byte. destruct (b =? 32); [reflexivity|].
  destruct (urlencoded_safe b) eqn:Es.
  - apply urlencoded_safe_range in Es. cbn [forallb]. rewrite andb_true_r.
    apply is_delimiter_free_true. lia.
  - now apply percent_byte_delimiter_free.
Qed.

(** Decoding what the urlencoded serializer wrote gives the string back. *)
Lemma urlencoded_decode_serialized s :
  well_formed s = true ->
  urlencoded_decode (urlencoded_serialize_string s) = s
  /\ forallb is_delimiter_free (urlencoded_serialize_string s) = true.
Proof.
  intros Hwf. destruct (well_formed_code_points s Hwf) as [Hsc Hback].
  unfold urlencoded_decode, urlencoded_serialize_string, utf8_bytes.
  rewrite well_formed_to_usv by exact Hwf.
  pose proof (utf8_encode_all_bytes _ Hsc) as Hbytes. split.
  - rewrite <- (app_nil_r (flat_map urlencoded_serialize_byte _)).
    rewrite serialized_bytes_decode by exact Hbytes.
    cbn [plus_to_space map percent_decode]. rewrite app_nil_r.
    rewrite utf8_decode_encode_all by exact Hsc. exact Hback.
  - now apply serialized_bytes_delimiter_free.
Qed.

(** ** Splitting and joining *)

Lemma split_on_free sep seg :
  free_of sep seg = true -> split_on sep seg = [seg].
Proof.
  unfold free_of. induction seg as [|c seg IH]; intros H; [reflexivity|].
  simpl in H. apply andb_true_iff in H as [Hc H]. apply negb_true_iff in Hc.
  cbn [split_on]. rewrite Hc, IH by exact H. reflexivity.
Qed.

Lemma split_on_app sep seg rest :
  free_of sep seg = true ->
  split_on sep (seg ++ sep :: rest) = seg :: split_on sep rest.
Proof.
  unfold free_of. induction seg as [|c seg IH]; intros H.
  - cbn [app split_on]. now rewrite Z.eqb_refl.
  - simpl in H. apply andb_true_iff in H as [Hc H]. apply negb_true_iff in Hc.
    cbn [app split_on]. rewrite Hc, IH by exact H. reflexivity.
Qed.

Lemma split_on_join sep segs :
  forallb (free_of sep) segs = true ->
  split_on sep (join [sep] segs) = match segs with [] => [[]] | _ => segs end.
Proof.
  induction segs as [|seg segs IH]; intros H; [reflexivity|].
  simpl in H. apply andb_true_iff in H as [Hseg H].
  cbn [join]. destruct segs as [|seg' segs].
  - now apply split_on_free.
  - cbn [app]. rewrite split_on_app by exact Hseg. f_equal. now apply IH.
Qed.

Lemma split_first_app sep a b :
  free_of sep a = true -> split_first sep (a ++ sep :: b) = Some (a, b).
Proof.
  unfold free_of. induction a as [|c a IH]; intros H.
  - cbn [app split_first]. now rewrite Z.eqb_refl.
  - simpl in H. apply andb_true_iff in H as [Hc H]. apply negb_true_iff in Hc.
    cbn [app split_first]. rewrite Hc, IH by exact H. reflexivity.
Qed.

Lemma urlencoded_parse_join segs :
  forallb (free_of 38) segs = true ->
  urlencoded_parse (join [38] segs) = flat_map urlencoded_parse_sequence segs.
Proof.
  intros H. unfold urlencoded_parse. rewrite split_on_join by exact H.
  destruct segs; reflexivity.
Qed.

Lemma urlencoded_parse_sequence_pair a b :
  free_of 61 a = true ->
  urlencoded_parse_sequence (a ++ 61 :: b) = [(urlencoded_decode a, urlencoded_decode b)].
Proof.
  intros H. unfold urlencoded_parse_sequence.
  rewrite split_first_app by exact H. destruct a; reflexivity.
Qed.

Lemma delimiter_free_free_of sep e :
  sep = 38 \/ sep = 61 \/ sep = 63 ->
  forallb is_delimiter_free e = true -> free_of sep e = true.
Proof.
  intros Hsep. unfold free_of. induction e as [|c e IH]; intros H; [reflexivity|].
  simpl in H. apply andb_true_iff in H as [Hc H]. apply is_delimiter_free_true in Hc.
  cbn [forallb]. rewrite IH by exact H. rewrite andb_true_r.
  apply negb_true_iff, Z.eqb_neq. lia.
Qed.

Lemma delimiter_free_query e :
  forallb is_delimiter_free e = true -> forallb is_query_char e = true.
Proof.
  induction e as [|c e IH]; intros H; [reflexivity|].
  simpl in H. apply andb_true_iff in H as [Hc H].
  cbn [forallb]. rewrite IH by exact H. unfold is_query_char. now rewrite Hc.
Qed.

Lemma join_query_chars segs :
  forallb (forallb is_query_char) segs = true ->
  forallb is_query_char (join [38] segs) = true.
Proof.
  induction segs as [|seg segs IH]; intros H; [reflexivity|].
  simpl in H. apply andb_true_iff in H as [Hseg H].
  cbn [join]. destruct segs as [|seg' segs]; [exact Hseg|].
  rewrite !forallb_app, Hseg, IH by exact H. reflexivity.
Qed.

Lemma is_query_char_range c :
  is_query_char c = true -> 0 <= c < 128 /\ c <> 63.
Proof.
  unfold is_query_char. intros H. apply orb_true_iff in H as [H|H].
  - apply orb_true_iff in H as [H|H]; [apply is_delimiter_free_true in H; lia|zbool; lia].
  - zbool. lia.
Qed.

(** A query string made of encoded parts is read as it stands: it is its
    own UTF-8 encoding and has no leading [?] to drop. *)
Lemma new_URLSearchParams_query q :
  forallb is_query_char q = true -> new_URLSearchParams q = urlencoded_parse q.
Proof.
  intros H. unfold new_URLSearchParams.
  assert (Hascii : forallb is_ascii q = true).
  { clear -H. induction q as [|c q IH]; [reflexivity|].
    simpl in H. apply andb_true_iff in H as [Hc H]. apply is_query_char_range in Hc.
    cbn [forallb]. rewrite IH by exact H. rewrite andb_true_r.
    unfold is_ascii. zbool_goal; lia. }
  destruct q as [|c q]; [reflexivity|].
  simpl in H. apply andb_true_iff in H as [Hc H]. apply is_query_char_range in Hc.
  replace (c =? 63) with false by (symmetry; zbool_goal; lia).
  now rewrite ascii_utf8_bytes.
Qed.

(** ** What [stringifyQueryString] returns *)

Lemma mapM_spec {A B} (f : A -> result B) (ok : A -> bool) (g : A -> B) l :
  (forall a, In a l -> f a = if ok a then Ok (g a) else Throw URIError) ->
  mapM f l = if forallb ok l then Ok (map g l) else Throw URIError.
Proof.
  induction l as [|a l IH]; intros H; [reflexivity|].
  cbn [mapM forallb map]. rewrite (H a) by now left.
  rewrite IH by (intros x Hx; apply H; now right).
  destruct (ok a); cbn [rbind andb]; [|reflexivity].
  destruct (forallb ok l); reflexivity.
Qed.

Lemma stringify_pair_spec key item :
  stringify_pair key item =
  if forallb (fun kv => no_lone_surrogate (fst kv) && no_lone_surrogate (snd kv))
       (if is_nullish item then [] else [(key, ToString item)])
  then Ok (rendered_pair key item) else Throw URIError.
Proof.
  unfold stringify_pair, rendered_pair, encodeURIComponent.
  destruct (is_nullish item); [reflexivity|].
  rewrite !encodeURIComponent_string_spec. cbn [forallb fst snd].
  destruct (no_lone_surrogate key); cbn [rbind andb]; [|reflexivity].
  destruct (no_lone_surrogate (ToString item)); reflexivity.
Qed.

Lemma forallb_flat_map {A B} (p : B -> bool) (f : A -> list B) l :
  forallb p (flat_map f l) = forallb (fun a => forallb p (f a)) l.
Proof.
  induction l as [|a l IH]; [reflexivity|].
  cbn [flat_map forallb]. now rewrite forallb_app, IH.
Qed.

Lemma stringify_entry_spec entry :
  stringify_entry entry =
  if forallb (fun kv => no_lone_surrogate (fst kv) && no_lone_surrogate (snd kv))
       (emitted_pairs_of (fst entry) (snd entry))
  then Ok (rendered_entry entry) else Throw URIError.
Proof.
  destruct entry as [key v]. unfold stringify_entry, rendered_entry, emitted_pairs_of.
  cbn [fst snd].
  destruct v as [| |b|n|s|items];
    try (rewrite stringify_pair_spec; cbn [is_nullish];
         match goal with |- context [forallb ?p ?l] => destruct (forallb p l) end;
         reflexivity).
  rewrite forallb_flat_map. apply mapM_spec. intros item _. apply stringify_pair_spec.
Qed.

(** [stringifyQueryString] throws exactly when a key or a text it has to
    encode holds an unpaired surrogate, and otherwise joins what [flatMap]
    kept. *)
Lemma stringifyQueryString_spec o :
  stringifyQueryString o =
  if emits_encodable (own o)
  then Ok (Array_join [38] (flat_map rendered_entry (own o)))
  else Throw URIError.
Proof.
  unfold stringifyQueryString, emits_encodable, emitted_pairs.
  rewrite forallb_flat_map.
  rewrite (mapM_spec stringify_entry _ rendered_entry)
    by (intros entry _; apply stringify_entry_spec).
  destruct (forallb _ (own o)); cbn [rbind]; [|reflexivity].
  now rewrite flat_map_concat_map.
Qed.

(** ** Reading back what was written *)

Lemma present_app {A} (l1 l2 : list (option A)) : present (l1 ++ l2) = present l1 ++ present l2.
Proof. unfold present. apply flat_map_app. Qed.

Lemma emitted_pairs_of_items key v :
  emitted_pairs_of key v = present (entry_items (key, v)).
Proof.
  unfold emitted_pairs_of, entry_items, pair_item. cbn [fst snd].
  destruct v as [| |b|n|s|items]; try reflexivity.
  induction items as [|i items IH]; [reflexivity|].
  cbn [flat_map map]. rewrite IH. unfold present at 2. cbn [flat_map].
  destruct (is_nullish i); reflexivity.
Qed.

Lemma emitted_pairs_items props :
  emitted_pairs props = present (flat_map entry_items props).
Proof.
  unfold emitted_pairs. induction props as [|[k v] props IH]; [reflexivity|].
  cbn [flat_map fst snd]. now rewrite present_app, IH, emitted_pairs_of_items.
Qed.

Lemma rendered_entry_items entry :
  map (fun i => match i with Some s => s | None => [] end) (rendered_entry entry)
  = map rendered_item (entry_items entry).
Proof.
  assert (Hpair : forall k i,
    match rendered_pair k i with Some s => s | None => [] end
    = rendered_item (pair_item k i)).
  { intros k i. unfold rendered_pair, pair_item. destruct (is_nullish i); reflexivity. }
  destruct entry as [k v]. unfold rendered_entry, entry_items. cbn [fst snd].
  destruct v as [| |b|n|s|items]; cbn [map]; rewrite ?Hpair; try reflexivity.
  rewrite !map_map. apply map_ext. intros i. apply Hpair.
Qed.

Lemma Array_join_rendered props :
  Array_join [38] (flat_map rendered_entry props)
  = join [38] (map rendered_item (flat_map entry_items props)).
Proof.
  unfold Array_join. f_equal.
  induction props as [|entry props IH]; [reflexivity|].
  simpl flat_map. rewrite !map_app. f_equal; [apply rendered_entry_items | exact IH].
Qed.

(** The pairs read from the joined items are the pairs that were written;
    an item that is not there leaves an empty sequence, which is skipped. *)
Lemma rendered_items_parse items :
  pairs_well_formed (present items) = true ->
  forallb (free_of 38) (map rendered_item items) = true
  /\ forallb (forallb is_query_char) (map rendered_item items) = true
  /\ flat_map urlencoded_parse_sequence (map rendered_item items) = present items.
Proof.
  unfold pairs_well_formed.
  induction items as [|[[k t]|] items IH]; intros H.
  - repeat split.
  - unfold present in H. cbn [flat_map app forallb fst snd] in H.
    apply andb_true_iff in H as [Hkt H]. apply andb_true_iff in Hkt as [Hk Ht].
    destruct (IH H) as (IH1 & IH2 & IH3).
    destruct (urlencoded_decode_encoded k Hk) as [Dk Fk].
    destruct (urlencoded_decode_encoded t Ht) as [Dt Ft].
    cbn [map forallb flat_map rendered_item]. rewrite IH1, IH2, IH3.
    repeat split.
    + rewrite andb_true_r. unfold free_of. rewrite forallb_app. cbn [forallb].
      fold (free_of 38 (encoded k)). fold (free_of 38 (encoded t)).
      rewrite !delimiter_free_free_of by (assumption || lia). reflexivity.
    + rewrite andb_true_r, forallb_app. cbn [forallb].
      rewrite !delimiter_free_query by assumption. reflexivity.
    + rewrite urlencoded_parse_sequence_pair
        by (apply delimiter_free_free_of; [lia | assumption]).
      now rewrite Dk, Dt.
  - destruct (IH H) as (IH1 & IH2 & IH3).
    cbn [map forallb flat_map rendered_item]. rewrite IH1, IH2, IH3. repeat split.
Qed.

(** The query string written for a mapping, read by [URLSearchParams],
    gives the pairs the mapping emits. *)
Lemma rendered_read_back props :
  pairs_well_formed (emitted_pairs props) = true ->
  new_URLSearchParams (Array_join [38] (flat_map rendered_entry props))
  = emitted_pairs props.
Proof.
  intros H. rewrite emitted_pairs_items in *. rewrite Array_join_rendered.
  destruct (rendered_items_parse _ H) as (H1 & H2 & H3).
  rewrite new_URLSearchParams_query by now apply join_query_chars.
  now rewrite urlencoded_parse_join.
Qed.

(** The query string the serializer writes for a list of pairs is read
    back as that list. *)
Lemma usp_toString_read_back p :
  pairs_well_formed p = true -> new_URLSearchParams (usp_toString p) = p.
Proof.
  intros H. unfold usp_toString.
  set (seg := fun kv : jsstring * jsstring =>
                urlencoded_serialize_string (fst kv) ++ 61 :: urlencoded_serialize_string (snd kv)).
  assert (Hsegs : forallb (free_of 38) (map seg p) = true
                  /\ forallb (forallb is_query_char) (map seg p) = true
                  /\ flat_map urlencoded_parse_sequence (map seg p) = p).
  { unfold pairs_well_formed in H. induction p as [|[k v] p IH]; [repeat split|].
    cbn [forallb fst snd] in H.
    apply andb_true_iff in H as [Hkv H]. apply andb_true_iff in Hkv as [Hk Hv].
    destruct (IH H) as (IH1 & IH2 & IH3).
    destruct (urlencoded_decode_serialized k Hk) as [Dk Fk].
    destruct (urlencoded_decode_serialized v Hv) as [Dv Fv].
    cbn [map forallb flat_map]. rewrite IH1, IH2, IH3. unfold seg at 1 2 3. cbn [fst snd].
    repeat split.
    - rewrite andb_true_r. unfold free_of. rewrite forallb_app. cbn [forallb].
      fold (free_of 38 (urlencoded_serialize_string k)).
      fold (free_of 38 (urlencoded_serialize_string v)).
      rewrite !delimiter_free_free_of by (assumption || lia). reflexivity.
    - rewrite andb_true_r, forallb_app. cbn [forallb].
      rewrite !delimiter_free_query by assumption. reflexivity.
    - rewrite urlencoded_parse_sequence_pair
        by (apply delimiter_free_free_of; [lia | assumption]).
      now rewrite Dk, Dv. }
  destruct Hsegs as (H1 & H2 & H3).
  rewrite new_URLSearchParams_query by now apply join_query_chars.
  now rewrite urlencoded_parse_join.
Qed.

(** ** The text of a number is ASCII *)

Lemma ascii_well_formed s : forallb is_ascii s = true -> well_formed s = true.
Proof.
  intros H. unfold well_formed. rewrite ascii_code_points by exact H.
  induction s as [|c s IH]; [reflexivity|].
  simpl in H. apply andb_true_iff in H as [Hc H].
  apply andb_true_iff in IH as [IH1 IH2]; [|exact H].
  unfold is_ascii in Hc. zbool.
  assert (Hu : is_code_unit c = true) by (apply is_code_unit_true; lia).
  assert (Hs : is_surrogate c = false) by (apply is_surrogate_false; lia).
  cbn [forallb]. rewrite Hu, Hs, IH1, IH2. reflexivity.
Qed.

Lemma digit_chars_ascii ds : forallb is_ascii (digit_chars ds) = true.
Proof.
  unfold digit_chars. induction ds as [|d ds IH]; [reflexivity|].
  cbn [map forallb]. rewrite IH, andb_true_r. unfold is_ascii. zbool_goal; div_lia.
Qed.

Lemma repeat_zero_ascii n : forallb is_ascii (repeat_zero n) = true.
Proof.
  unfold repeat_zero. induction (Z.to_nat n) as [|k IH]; [reflexivity|].
  cbn [repeat forallb]. now rewrite IH.
Qed.

Lemma render_decimal_ascii ds n : forallb is_ascii (render_decimal ds n) = true.
Proof.
  unfold render_decimal.
  repeat match goal with
         | |- context [if ?b then _ else _] => destruct b
         | |- context [match ?l with [] => _ | _ :: _ => _ end] => destruct l
         end;
    repeat first
      [ rewrite forallb_app
      | rewrite digit_chars_ascii
      | rewrite repeat_zero_ascii
      | progress cbn [forallb app andb]
      | match goal with
        | |- context [is_ascii ?k] => change (is_ascii k) with true
        end ];
    reflexivity.
Qed.

Lemma NumberToString_ascii x : forallb is_ascii (NumberToString x) = true.
Proof.
  destruct x as [s|s| |s m e]; try (destruct s; reflexivity); try reflexivity.
  unfold NumberToString.
  destruct (shortest_digits _ _ _ _ _ _) as [c t].
  destruct (strip_zeros _ _) as [rds t'].
  rewrite forallb_app, render_decimal_ascii, andb_true_r. destruct s; reflexivity.
Qed.

Lemma NumberToString_well_formed x : well_formed (NumberToString x) = true.
Proof. apply ascii_well_formed, NumberToString_ascii. Qed.

(** ** The values of a key among the pairs a mapping emits *)

Lemma usp_getAll_app k (p1 p2 : URLSearchParams) :
  usp_getAll k (p1 ++ p2) = usp_getAll k p1 ++ usp_getAll k p2.
Proof. unfold usp_getAll. now rewrite filter_app, map_app. Qed.

Lemma usp_getAll_emitted_of k k' v :
  usp_getAll k (emitted_pairs_of k' v) = if streqb k' k then emitted_texts v else [].
Proof.
  unfold emitted_texts, emitted_pairs_of, usp_getAll.
  destruct v as [| |b|n|s|items]; cbn [is_nullish filter map fst snd];
    try (destruct (streqb k' k); reflexivity).
  induction items as [|i items IH]; [destruct (streqb k' k); reflexivity|].
  cbn [flat_map]. rewrite !filter_app, !map_app, IH.
  destruct (is_nullish i); cbn [filter map fst snd app];
    destruct (streqb k' k); reflexivity.
Qed.

Lemma get_own_none k props :
  get_own k props = None <-> existsb (streqb k) (map fst props) = false.
Proof.
  induction props as [|[k' v] props IH]; cbn [get_own map existsb fst]; [tauto|].
  rewrite (streqb_sym k k'). destruct (streqb k' k); cbn [orb]; [split; discriminate | exact IH].
Qed.

Lemma usp_getAll_emitted_absent k props :
  get_own k props = None -> usp_getAll k (emitted_pairs props) = [].
Proof.
  unfold emitted_pairs. induction props as [|[k' v] props IH]; [reflexivity|].
  cbn [get_own flat_map fst snd]. rewrite usp_getAll_app, usp_getAll_emitted_of.
  destruct (streqb k' k); [discriminate|]. exact IH.
Qed.

(** With distinct keys, the values of a key among the emitted pairs are the
    texts of its entry. *)
Lemma usp_getAll_emitted k props :
  no_dup_keys (map fst props) = true ->
  usp_getAll k (emitted_pairs props) =
  match get_own k props with Some v => emitted_texts v | None => [] end.
Proof.
  induction props as [|[k' v] props IH]; intros H; [reflexivity|].
  cbn [map fst no_dup_keys] in H. apply andb_true_iff in H as [Hk' H].
  apply negb_true_iff, get_own_none in Hk'.
  unfold emitted_pairs in *. cbn [get_own flat_map fst snd].
  rewrite usp_getAll_app, usp_getAll_emitted_of.
  case_streqb k' k.
  - subst k'. fold (emitted_pairs props).
    now rewrite usp_getAll_emitted_absent, app_nil_r.
  - now apply IH.
Qed.

(** ** Errors *)

(** C7, the counterexample: [stringify] raises a URIError for
    [{q: "\uD800"}], and [setState] lets it reach the caller. *)
Lemma stringify_raises_on_lone_surrogate :
  stringifyQueryString (lit [(js "q", VStr [0xD800])]) = Throw URIError
  /\ snd (setState [(js "q", VStr [])] default_options
            (Value (lit [(js "q", VStr [0xD800])]))
            (mount [(js "q", VStr [])] default_options (browser_at (js "/p") [])))
     = Throw URIError.
Proof. split; vm_compute; reflexivity. Qed.

Lemma useQueryStringState_returns initialValue options s :
  exists st, snd (useQueryStringState initialValue options s) = Ok st.
Proof.
  unfold useQueryStringState. destruct (isSyncPathname_of options).
  - unfold bind at 1.
    destruct (getInitialStateWithQueryString_frame initialValue options s) as [errors ->].
    eexists. reflexivity.
  - eexists. reflexivity.
Qed.

Lemma handlePopState_returns initialValue options s :
  snd (handlePopState initialValue options s) = Ok tt.
Proof.
  unfold handlePopState. destruct (isSyncPathname_of options); [|reflexivity].
  unfold bind.
  destruct (getInitialStateWithQueryString_frame initialValue options s) as [errors ->].
  reflexivity.
Qed.

(** C7, as amended: the default [parse] returns for every string;
    [stringify], on a mapping of strings, numbers, booleans, null, undefined
    and arrays of them, raises, a URIError, exactly when a key or a text it
    has to encode holds an unpaired surrogate; the first render and the
    popstate handler return whatever the codec and the environment do; in
    sync mode at a URL, a failure of the codec's [parse] is caught there and
    logged, once, with [console.error], and the defaults become the state,
    and when [parse] returns nothing is logged and the state is the defaults
    overlaid with what it returned. *)
Theorem errors_parse_stringify_and_resync
    (initialValue : literal) (options : UseQueryStringStateOptions) (s : session)
    (searchParams : jsstring) (o : obj) :
  (exists parsed, parse (createQueryString initialValue) searchParams = Ok parsed)
  /\ (emits_encodable (own o) = true -> exists q, stringifyQueryString o = Ok q)
  /\ (emits_encodable (own o) = false -> stringifyQueryString o = Throw URIError)
  /\ (exists st, snd (useQueryStringState initialValue options s) = Ok st)
  /\ snd (handlePopState initialValue options s) = Ok tt
  /\ snd (popstate initialValue options s) = Ok tt
  /\ (forall url listen e,
        isSyncPathname_of options = true ->
        window s = Some {| location := Href url; has_addEventListener := listen |} ->
        parse (queryString_of initialValue options)
          (usp_toString (delete_foreign_keys (fun k => has_property k initialValue)
                           (URL_searchParams url))) = Throw e ->
        useQueryStringState initialValue options s
        = ({| state := lit initialValue; window := window s;
              events := events s ++ [ConsoleError e] |}, Ok (lit initialValue))
        /\ handlePopState initialValue options s
           = ({| state := lit initialValue; window := window s;
                 events := events s ++ [ConsoleError e] |}, Ok tt))
  /\ (forall url listen parsed,
        isSyncPathname_of options = true ->
        window s = Some {| location := Href url; has_addEventListener := listen |} ->
        parse (queryString_of initialValue options)
          (usp_toString (delete_foreign_keys (fun k => has_property k initialValue)
                           (URL_searchParams url))) = Ok parsed ->
        let st := Object_assign (Object_assign empty_obj (lit initialValue)) parsed in
        useQueryStringState initialValue options s
        = ({| state := st; window := window s; events := events s |}, Ok st)
        /\ handlePopState initialValue options s
           = ({| state := st; window := window s; events := events s |}, Ok tt)).
Proof.
  repeat match goal with |- _ /\ _ => split end.
  - eexists. reflexivity.
  - intros H. rewrite stringifyQueryString_spec, H. eexists. reflexivity.
  - intros H. now rewrite stringifyQueryString_spec, H.
  - apply useQueryStringState_returns.
  - apply handlePopState_returns.
  - unfold popstate, bind, get_window.
    destruct (window s) as [[loc listen]|]; [|reflexivity].
    cbn [has_addEventListener]. destruct listen; [apply handlePopState_returns | reflexivity].
  - intros url listen e Hsync Hw Hparse.
    destruct s as [st0 w evs]. cbn [window] in Hw. subst w.
    unfold useQueryStringState, handlePopState. rewrite Hsync.
    unfold getInitialStateWithQueryString, try_catch, bind, get_window, lift, ret, emit,
      _setState.
    cbn [window location isValidUrl new_URL]. rewrite Hparse.
    cbn [state window events]. split; reflexivity.
  - intros url listen parsed Hsync Hw Hparse st.
    destruct s as [st0 w evs]. cbn [window] in Hw. subst w.
    unfold useQueryStringState, handlePopState. rewrite Hsync.
    unfold getInitialStateWithQueryString, try_catch, bind, get_window, lift, ret, emit,
      _setState.
    cbn [window location isValidUrl new_URL]. rewrite Hparse.
    cbn [state window events]. split; reflexivity.
Qed.

(** A codec whose [parse] throws, at [/p?page=2]: the first render logs the
    error and shows the defaults. *)
Lemma errors_parse_stringify_and_resync_witness :
  useQueryStringState (page 1) failing_options
    {| state := empty_obj; window := browser_at (js "/p") (js "page=2"); events := [] |}
  = ({| state := lit (page 1); window := browser_at (js "/p") (js "page=2");
        events := [ConsoleError CodecError] |}, Ok (lit (page 1))).
Proof.
  destruct (errors_parse_stringify_and_resync (page 1) failing_options
              {| state := empty_obj; window := browser_at (js "/p") (js "page=2");
                 events := [] |} [] empty_obj)
    as (_ & _ & _ & _ & _ & _ & Hthrow & _).
  apply (Hthrow (page_at (js "/p") (js "page=2")) true CodecError); reflexivity.
Defined.

(** ** The round trip *)

(** C3, the counterexample: the one-element array of [{tags: ["a"]}] comes
    back as the string ["a"], and the empty array of [{tags: []}] loses its
    key; neither is a copy up to coercion between number and string. *)
Lemma round_trip_fails_on_short_arrays :
  ~ round_trip (lit [(js "tags", VArr [VStr (js "a")])]) [(js "tags", VArr [VStr (js "a")])]
  /\ ~ round_trip (lit [(js "tags", VArr [])]) [(js "tags", VArr [])].
Proof.
  split; intros [q [Hq Hrep]]; vm_compute in Hq; injection Hq as <-;
    specialize (Hrep (js "tags")); vm_compute in Hrep; exact Hrep.
Qed.

Lemma well_formed_encodable (p : URLSearchParams) :
  pairs_well_formed p = true ->
  forallb (fun kv => no_lone_surrogate (fst kv) && no_lone_surrogate (snd kv)) p = true.
Proof.
  unfold pairs_well_formed. induction p as [|[k v] p IH]; intros H; [reflexivity|].
  cbn [forallb fst snd] in *. apply andb_true_iff in H as [Hkv H].
  apply andb_true_iff in Hkv as [Hk Hv].
  now rewrite !well_formed_no_lone_surrogate, IH.
Qed.

Lemma round_trippable_scalar_text v :
  round_trippable_scalar v = true ->
  well_formed (ToString v) = true /\ is_nullish v = false.
Proof.
  destruct v; cbn [round_trippable_scalar]; try discriminate; intros H; split;
    try reflexivity; [apply NumberToString_well_formed | exact H].
Qed.

Lemma round_trippable_value_pairs k v :
  well_formed k = true -> round_trippable_value v = true ->
  pairs_well_formed (emitted_pairs_of k v) = true
  /\ emitted_texts v = match v with VArr items => map ToString items | _ => [ToString v] end.
Proof.
  intros Hk Hv. unfold emitted_texts, pairs_well_formed.
  destruct v as [| |b|n|s|items]; cbn [round_trippable_value round_trippable_scalar] in Hv;
    try discriminate.
  - cbn. rewrite Hk, NumberToString_well_formed. split; reflexivity.
  - cbn. rewrite Hk, Hv. split; reflexivity.
  - apply andb_true_iff in Hv as [_ Hv]. cbn [emitted_pairs_of].
    induction items as [|i items IH]; [split; reflexivity|].
    cbn [forallb] in Hv. apply andb_true_iff in Hv as [Hi Hv].
    destruct (round_trippable_scalar_text i Hi) as [Hwf Hnull].
    destruct (IH Hv) as [IH1 IH2].
    cbn [flat_map map]. rewrite Hnull. cbn [app forallb map fst snd].
    rewrite Hk, Hwf, IH1, IH2. split; reflexivity.
Qed.

Lemma round_trippable_pairs props :
  forallb (fun kv => well_formed (fst kv) && negb (streqb (fst kv) proto_key)
                     && round_trippable_value (snd kv)) props = true ->
  pairs_well_formed (emitted_pairs props) = true.
Proof.
  unfold pairs_well_formed, emitted_pairs.
  induction props as [|[k v] props IH]; intros H; [reflexivity|].
  cbn [forallb fst snd] in H. apply andb_true_iff in H as [Hkv H].
  apply andb_true_iff in Hkv as [Hk Hv]. apply andb_true_iff in Hk as [Hk _].
  cbn [flat_map fst snd]. rewrite forallb_app, IH by exact H.
  destruct (round_trippable_value_pairs k v Hk Hv) as [Hp _].
  unfold pairs_well_formed in Hp. now rewrite Hp.
Qed.

Lemma round_trippable_lookup props k v :
  forallb (fun kv => well_formed (fst kv) && negb (streqb (fst kv) proto_key)
                     && round_trippable_value (snd kv)) props = true ->
  get_own k props = Some v ->
  well_formed k = true /\ k <> proto_key /\ round_trippable_value v = true.
Proof.
  induction props as [|[k' v'] props IH]; intros H Hget; [discriminate|].
  cbn [forallb fst snd] in H. apply andb_true_iff in H as [Hkv H].
  cbn [get_own] in Hget. case_streqb k' k.
  - injection Hget as <-. subst k'.
    apply andb_true_iff in Hkv as [Hk Hv]. apply andb_true_iff in Hk as [Hk Hp].
    apply negb_true_iff, streqb_false in Hp. auto.
  - now apply IH.
Qed.

Lemma coerced_copy_read_back schema k v :
  round_trippable_value v = true -> coerced_copy v (read_back schema k v).
Proof.
  intros Hv. unfold read_back.
  destruct v as [| |b|n|s|items]; cbn [round_trippable_value round_trippable_scalar] in Hv;
    try discriminate.
  - destruct (_ && _); cbn [toNumberable]; [destruct (isNumber _)|];
      cbn [coerced_copy ToString]; auto.
  - destruct (_ && _); cbn [toNumberable]; [destruct (isNumber _)|];
      cbn [coerced_copy ToString]; auto.
  - cbn [coerced_copy]. rewrite map_map. apply map_ext_in. intros i Hi.
    apply andb_true_iff in Hv as [_ Hv].
    rewrite forallb_forall in Hv. specialize (Hv i Hi).
    destruct i; try discriminate; reflexivity.
Qed.

Lemma usp_get_value_first k p s rest :
  usp_getAll k p = s :: rest -> usp_get_value k p = VStr s.
Proof. intros H. unfold usp_get_value, usp_get. now rewrite H. Qed.

(** The value [parse] assigns to a key whose occurrences are the texts of
    a value that makes the round trip. *)
Lemma parsed_value_read_back p schema k v :
  round_trippable_value v = true ->
  usp_getAll k p = match v with VArr items => map ToString items | _ => [ToString v] end ->
  parsed_value p schema k = read_back schema k v.
Proof.
  intros Hv Hall. unfold parsed_value, read_back.
  destruct v as [| |b|n|s|items]; cbn [round_trippable_value round_trippable_scalar] in Hv;
    try discriminate.
  - rewrite (usp_get_value_first _ _ _ _ Hall), Hall. reflexivity.
  - rewrite (usp_get_value_first _ _ _ _ Hall), Hall. reflexivity.
  - apply andb_true_iff in Hv as [Hlen _]. rewrite Hall, length_map.
    replace (1 <? Z.of_nat (List.length items)) with true
      by (symmetry; zbool; zbool_goal; lia).
    now rewrite map_map.
Qed.

(** C3, as amended: a state with distinct well-formed keys other than
    [__proto__], whose values are well-formed strings, numbers, or arrays of
    at least two of them, is stringified without error, and parsing the
    result against any schema gives exactly its keys: an array reads back as
    the array of the texts of its elements, a scalar under a numeric default
    as [toNumberable] of its text, any other scalar as its text. So the
    state is reproduced up to coercion between number and string. *)
Theorem round_trip_of_scalars_and_longer_arrays
    (st : literal) (schema : literal)
    (Hst : round_trippable st = true) :
  (exists q, stringifyQueryString (lit st) = Ok q
             /\ forall k, get_own k (own (parseQueryString q schema))
                          = option_map (read_back schema k) (get_own k st))
  /\ round_trip (lit st) schema.
Proof.
  unfold round_trippable in Hst. apply andb_true_iff in Hst as [Hdup Hvals].
  pose proof (round_trippable_pairs st Hvals) as Hwf.
  assert (Hq : stringifyQueryString (lit st)
               = Ok (Array_join [38] (flat_map rendered_entry st))).
  { rewrite stringifyQueryString_spec. cbn [own lit].
    unfold emits_encodable. now rewrite well_formed_encodable. }
  assert (Hkeys : forall k,
            get_own k (own (parseQueryString (Array_join [38] (flat_map rendered_entry st)) schema))
            = option_map (read_back schema k) (get_own k st)).
  { intros k.
    pose proof (parseQueryString_shape (Array_join [38] (flat_map rendered_entry st)) schema)
      as [Hown _].
    destruct (get_own k st) as [v|] eqn:Ek; cbn [option_map].
    - destruct (round_trippable_lookup st k v Hvals Ek) as (Hk & Hproto & Hv).
      destruct (round_trippable_value_pairs k v Hk Hv) as [_ Htexts].
      rewrite parseQueryString_own by exact Hproto.
      rewrite rendered_read_back by exact Hwf.
      assert (Hall : usp_getAll k (emitted_pairs st)
                     = match v with VArr items => map ToString items | _ => [ToString v] end).
      { now rewrite usp_getAll_emitted, Ek, Htexts. }
      assert (Hin : existsb (streqb k) (usp_keys (emitted_pairs st)) = true).
      { apply existsb_streqb, usp_getAll_keys. rewrite Hall.
        destruct v as [| |b|n|s|items]; try discriminate.
        cbn [round_trippable_value] in Hv. apply andb_true_iff in Hv as [Hlen _].
        destruct items; [zbool; cbn in Hlen; lia | discriminate]. }
      rewrite Hin. f_equal. now apply parsed_value_read_back.
    - case_streqb k proto_key; [subst k; exact Hown|].
      rewrite parseQueryString_own by exact E.
      rewrite rendered_read_back by exact Hwf.
      destruct (existsb (streqb k) (usp_keys (emitted_pairs st))) eqn:Ein; [|reflexivity].
      apply existsb_streqb, usp_getAll_keys in Ein.
      rewrite usp_getAll_emitted, Ek in Ein by exact Hdup. congruence. }
  split.
  - eexists. split; [exact Hq | exact Hkeys].
  - eexists. split; [exact Hq|]. intros k. rewrite Hkeys. cbn [own lit].
    destruct (get_own k st) as [v|] eqn:Ek; cbn [option_map]; [|exact I].
    apply coerced_copy_read_back.
    now destruct (round_trippable_lookup st k v Hvals Ek) as (_ & _ & Hv).
Qed.

Lemma round_trip_of_scalars_and_longer_arrays_witness :
  round_trippable (page_q_tags 3 "hello" ["a"%string; "b"%string]) = true
  /\ round_trip (lit (page_q_tags 3 "hello" ["a"%string; "b"%string])) (page_q_tags 1 "" []).
Proof.
  split; [vm_compute; reflexivity|].
  exact (proj2 (round_trip_of_scalars_and_longer_arrays
                  (page_q_tags 3 "hello" ["a"%string; "b"%string]) (page_q_tags 1 "" [])
                  ltac:(vm_compute; reflexivity))).
Defined.

(** ** What [URLSearchParams] reads is well-formed *)

Lemma to_usv_scalar s :
  forallb is_code_unit s = true -> forallb is_scalar (to_usv s) = true.
Proof.
  unfold to_usv.
  assert (Hcp : forall c, is_code_unit c = true ->
                is_scalar (if is_surrogate c then 0xFFFD else c) = true).
  { intros c Hc. apply is_code_unit_true in Hc. destruct (is_surrogate c) eqn:E.
    - reflexivity.
    - apply is_surrogate_false in E. apply is_scalar_true. lia. }
  revert s. apply (code_units_ind (fun s => forallb is_code_unit s = true ->
    forallb is_scalar (map (fun cp => if is_surrogate cp then 0xFFFD else cp)
                           (StringToCodePoints s)) = true)).
  3: intros c d rest IH1 IH2 H.
  1, 2: intros; try intros H.
  - reflexivity.
  - cbn [forallb] in H. apply andb_true_iff in H as [Hc _].
    cbn [StringToCodePoints map forallb]. now rewrite Hcp.
  - cbn [forallb] in H. apply andb_true_iff in H as [Hc H].
    pose proof H as Hd. apply andb_true_iff in Hd as [Hd Hrest].
    change (StringToCodePoints (c :: d :: rest)) with
      (if is_high_surrogate c && is_low_surrogate d
       then surrogate_pair c d :: StringToCodePoints rest
       else c :: StringToCodePoints (d :: rest)).
    destruct (is_high_surrogate c && is_low_surrogate d) eqn:Epair.
    + apply andb_true_iff in Epair as [Hh Hl].
      pose proof (surrogate_pair_range c d Hh Hl) as Hr.
      cbn [map forallb]. rewrite IH2 by exact Hrest. rewrite andb_true_r.
      replace (is_surrogate (surrogate_pair c d)) with false
        by (symmetry; apply is_surrogate_false; lia).
      apply is_scalar_true. lia.
    + cbn [map forallb]. rewrite IH1 by exact H. now rewrite Hcp.
Qed.

Lemma utf8_bytes_bytes s :
  forallb is_code_unit s = true -> forallb is_byte (utf8_bytes s) = true.
Proof. intros H. apply utf8_encode_all_bytes, to_usv_scalar, H. Qed.

Lemma split_on_bytes sep bytes :
  forallb is_byte bytes = true -> forallb (forallb is_byte) (split_on sep bytes) = true.
Proof.
  induction bytes as [|b bytes IH]; intros H; [reflexivity|].
  cbn [forallb] in H. apply andb_true_iff in H as [Hb H]. specialize (IH H).
  cbn [split_on]. destruct (b =? sep); [exact IH|].
  destruct (split_on sep bytes) as [|seg segs].
  - cbn [forallb]. now rewrite Hb.
  - cbn [forallb] in *. now rewrite Hb.
Qed.

Lemma split_first_bytes sep bytes a b :
  forallb is_byte bytes = true -> split_first sep bytes = Some (a, b) ->
  forallb is_byte a = true /\ forallb is_byte b = true.
Proof.
  revert a b. induction bytes as [|c bytes IH]; intros a b H Hs; [discriminate|].
  cbn [forallb] in H. apply andb_true_iff in H as [Hc H].
  cbn [split_first] in Hs. destruct (c =? sep).
  - injection Hs as <- <-. auto.
  - destruct (split_first sep bytes) as [[a' b']|]; [|discriminate].
    injection Hs as <- <-. destruct (IH a' b' H eq_refl) as [Ha Hb].
    cbn [forallb]. now rewrite Hc, Ha.
Qed.

Lemma plus_to_space_bytes bytes :
  forallb is_byte bytes = true -> forallb is_byte (plus_to_space bytes) = true.
Proof.
  unfold plus_to_space. induction bytes as [|b bytes IH]; intros H; [reflexivity|].
  cbn [forallb] in H. apply andb_true_iff in H as [Hb H].
  cbn [map forallb]. rewrite IH by exact H. destruct (b =? 43); [reflexivity | now rewrite Hb].
Qed.

Lemma hex_value_range c x : hex_value c = Some x -> 0 <= x < 16.
Proof.
  unfold hex_value. intros H.
  repeat match type of H with
         | (if ?b then _ else _) = _ => destruct b eqn:?
         end; try discriminate; injection H as <-; zbool; lia.
Qed.

Lemma percent_decode_bytes bytes :
  forallb is_byte bytes = true -> forallb is_byte (percent_decode bytes) = true.
Proof.
  assert (H : forall n bytes, (List.length bytes <= n)%nat ->
              forallb is_byte bytes = true -> forallb is_byte (percent_decode bytes) = true).
  { induction n as [|n IH]; intros l Hlen Hl.
    - destruct l; [reflexivity | cbn in Hlen; lia].
    - destruct l as [|b rest]; [reflexivity|].
      cbn [forallb] in Hl. apply andb_true_iff in Hl as [Hb Hrest].
      cbn [List.length] in Hlen.
      assert (Hskip : forallb is_byte (b :: percent_decode rest) = true).
      { cbn [forallb]. rewrite Hb. apply IH; [lia | exact Hrest]. }
      cbn [percent_decode].
      destruct (b =? 37) eqn:E37; [apply Z.eqb_eq in E37; subst b | exact Hskip].
      destruct rest as [|h [|l rest']]; try exact Hskip.
      destruct (hex_value h) as [x|] eqn:Ex; [|exact Hskip].
      destruct (hex_value l) as [y|] eqn:Ey; [|exact Hskip].
      apply hex_value_range in Ex, Ey.
      cbn [forallb] in Hrest. apply andb_true_iff in Hrest as [_ Hrest].
      apply andb_true_iff in Hrest as [_ Hrest].
      cbn [forallb]. rewrite IH by (cbn [List.length] in Hlen; (lia || exact Hrest)).
      rewrite andb_true_r. apply is_byte_true. lia. }
  now apply (H (List.length bytes)).
Qed.

Lemma urlencoded_decode_well_formed bytes :
  forallb is_byte bytes = true -> well_formed (urlencoded_decode bytes) = true.
Proof.
  intros H. unfold urlencoded_decode.
  apply code_points_well_formed, utf8_decode_scalar, percent_decode_bytes,
    plus_to_space_bytes, H.
Qed.

Lemma urlencoded_parse_well_formed input :
  forallb is_byte input = true -> pairs_well_formed (urlencoded_parse input) = true.
Proof.
  intros H. unfold urlencoded_parse, pairs_well_formed.
  pose proof (split_on_bytes 38 input H) as Hsegs.
  induction (split_on 38 input) as [|seg segs IH]; [reflexivity|].
  cbn [forallb] in Hsegs. apply andb_true_iff in Hsegs as [Hseg Hsegs].
  cbn [flat_map]. rewrite forallb_app, IH by exact Hsegs. rewrite andb_true_r.
  unfold urlencoded_parse_sequence. destruct seg as [|c seg]; [reflexivity|].
  destruct (split_first 61 (c :: seg)) as [[a b]|] eqn:Es.
  - destruct (split_first_bytes _ _ _ _ Hseg Es) as [Ha Hb].
    cbn [forallb fst snd]. now rewrite !urlencoded_decode_well_formed.
  - cbn [forallb fst snd]. now rewrite urlencoded_decode_well_formed.
Qed.

(** The pairs of the current URL are well-formed strings. *)
Lemma URL_searchParams_well_formed url :
  forallb is_code_unit (query url) = true ->
  pairs_well_formed (URL_searchParams url) = true.
Proof. intros H. apply urlencoded_parse_well_formed, utf8_bytes_bytes, H. Qed.

(** ** Objects built by assignment *)

Lemma no_dup_keys_NoDup l : no_dup_keys l = true <-> NoDup l.
Proof.
  induction l as [|k l IH]; cbn [no_dup_keys].
  - split; [constructor | reflexivity].
  - rewrite andb_true_iff, negb_true_iff, IH, NoDup_cons_iff.
    rewrite <- existsb_streqb. destruct (existsb (streqb k) l); intuition congruence.
Qed.

Lemma get_own_not_in k props : get_own k props = None <-> ~ In k (map fst props).
Proof.
  rewrite get_own_none, <- existsb_streqb.
  destruct (existsb (streqb k) (map fst props)); intuition congruence.
Qed.

Lemma keys_replace_own k v props : map fst (replace_own k v props) = map fst props.
Proof.
  unfold replace_own. rewrite map_map. apply map_ext. intros [k' v']. cbn [fst].
  case_streqb k' k; [now subst | reflexivity].
Qed.

Lemma insert_index_split i k v props :
  exists l1 l2, props = l1 ++ l2 /\ insert_index i k v props = l1 ++ (k, v) :: l2.
Proof.
  induction props as [|kv props (l1 & l2 & Hp & Hi)].
  - exists [], []. split; reflexivity.
  - cbn [insert_index]. destruct (array_index (fst kv)) as [j|]; [destruct (j <? i)|].
    + exists (kv :: l1), l2. split; [now rewrite Hp | now rewrite Hi].
    + exists [], (kv :: props). split; reflexivity.
    + exists [], (kv :: props). split; reflexivity.
Qed.

Lemma define_own_split k v props :
  exists l1 l2, props = l1 ++ l2 /\ define_own k v props = l1 ++ (k, v) :: l2.
Proof.
  unfold define_own. destruct (array_index k); [apply insert_index_split|].
  exists props, []. split; [now rewrite app_nil_r | reflexivity].
Qed.

Lemma own_set_cases k v o :
  (exists l1 l2, own o = l1 ++ l2 /\ own (obj_set k v o) = l1 ++ (k, v) :: l2
                 /\ get_own k (own o) = None)
  \/ (own (obj_set k v o) = replace_own k v (own o) /\ get_own k (own o) <> None)
  \/ own (obj_set k v o) = own o.
Proof.
  unfold obj_set. destruct (get_own k (own o)) eqn:E.
  - right. left. split; [reflexivity | discriminate].
  - destruct (streqb k proto_key && _).
    + right. right. destruct v; reflexivity.
    + left. destruct (define_own_split k v (own o)) as (l1 & l2 & H1 & H2).
      exists l1, l2. cbn [own]. auto.
Qed.

Lemma NoDup_keys_set k v o :
  NoDup (map fst (own o)) -> NoDup (map fst (own (obj_set k v o))).
Proof.
  intros H. destruct (own_set_cases k v o) as [(l1 & l2 & H1 & H2 & Hk)|[[H1 _]|H1]].
  - rewrite H2, map_app. cbn [map fst].
    apply get_own_not_in in Hk. rewrite H1, map_app in H, Hk.
    apply (Permutation_NoDup (Permutation_middle _ _ _)).
    now constructor.
  - now rewrite H1, keys_replace_own.
  - now rewrite H1.
Qed.

Lemma In_own_set k v o kv :
  In kv (own (obj_set k v o)) -> kv = (k, v) \/ In kv (own o).
Proof.
  destruct (own_set_cases k v o) as [(l1 & l2 & H1 & H2 & Hk)|[[H1 _]|H1]]; rewrite H1.
  - rewrite H2, !in_app_iff. cbn [In]. intuition auto.
  - unfold replace_own. rewrite in_map_iff. intros [[k' v'] [E Hin]].
    cbn [fst] in E. destruct (streqb k' k); [left; congruence | right; congruence].
  - auto.
Qed.

Lemma forallb_own_set (P : jsstring * value -> bool) k v o :
  P (k, v) = true -> forallb P (own o) = true -> forallb P (own (obj_set k v o)) = true.
Proof.
  rewrite !forallb_forall. intros Hkv Ho kv Hin.
  apply In_own_set in Hin as [-> | Hin]; auto.
Qed.

(** [Object.assign(target, source)] read at a key other than [__proto__]:
    the value of the source where it has the key, that of the target
    elsewhere. *)
Lemma get_own_Object_assign target source k :
  k <> proto_key -> no_dup_keys (keys source) = true ->
  get_own k (own (Object_assign target source)) =
  match get_own k (own source) with
  | Some v => Some v
  | None => get_own k (own target)
  end.
Proof.
  intros Hk. unfold Object_assign, keys. revert target.
  induction (own source) as [|[k0 v0] props IH]; intros target Hdup; [reflexivity|].
  cbn [map fst no_dup_keys] in Hdup. apply andb_true_iff in Hdup as [Hk0 Hdup].
  apply negb_true_iff, get_own_none in Hk0.
  cbn [fold_left fst snd get_own]. rewrite IH by exact Hdup.
  case_streqb k0 k.
  - subst k0. rewrite Hk0. now apply get_own_set_same.
  - rewrite get_own_set_other by congruence. reflexivity.
Qed.

Lemma Object_assign_preserves (P : jsstring * value -> bool) target source :
  forallb P (own target) = true -> forallb P (own source) = true ->
  forallb P (own (Object_assign target source)) = true.
Proof.
  unfold Object_assign. revert target.
  induction (own source) as [|[k0 v0] props IH]; intros target Ht Hs; [exact Ht|].
  cbn [forallb] in Hs. apply andb_true_iff in Hs as [H0 Hs].
  cbn [fold_left fst snd]. apply IH; [|exact Hs]. now apply forallb_own_set.
Qed.

Lemma Object_assign_NoDup target source :
  NoDup (map fst (own target)) -> NoDup (map fst (own (Object_assign target source))).
Proof.
  unfold Object_assign. revert target.
  induction (own source) as [|[k0 v0] props IH]; intros target Ht; [exact Ht|].
  cbn [fold_left fst snd]. apply IH. now apply NoDup_keys_set.
Qed.

Lemma assign_keys_NoDup f ks : forall o,
  NoDup (map fst (own o)) -> NoDup (map fst (own (assign_keys f ks o))).
Proof.
  unfold assign_keys. induction ks as [|k ks IH]; intros o Ho; [exact Ho|].
  cbn [fold_left]. apply IH. now apply NoDup_keys_set.
Qed.

Lemma assign_keys_preserves (P : jsstring * value -> bool) f ks : forall o,
  (forall k, In k ks -> P (k, f k) = true) ->
  forallb P (own o) = true -> forallb P (own (assign_keys f ks o)) = true.
Proof.
  unfold assign_keys. induction ks as [|k ks IH]; intros o Hf Ho; [exact Ho|].
  cbn [fold_left]. apply IH.
  - intros k' Hk'. apply Hf. now right.
  - apply forallb_own_set; [apply Hf; now left | exact Ho].
Qed.

(** ** The URL [setState] writes *)

Lemma pairs_well_formed_entries props :
  pairs_well_formed (emitted_pairs props) = forallb entry_well_formed props.
Proof. unfold pairs_well_formed, emitted_pairs. apply forallb_flat_map. Qed.

Lemma pairs_well_formed_key (p : URLSearchParams) k :
  pairs_well_formed p = true -> In k (usp_keys p) ->
  well_formed k = true /\ forallb well_formed (usp_getAll k p) = true.
Proof.
  unfold pairs_well_formed, usp_keys, usp_getAll.
  induction p as [|[k' v] p IH]; intros H Hin; [contradiction|].
  cbn [forallb fst snd] in H. apply andb_true_iff in H as [Hkv H].
  apply andb_true_iff in Hkv as [Hk' Hv].
  cbn [map fst filter]. case_streqb k' k.
  - subst k'. split; [exact Hk'|]. cbn [map snd forallb]. rewrite Hv.
    destruct (in_dec (list_eq_dec Z.eq_dec) k (map fst p)) as [Hin'|Hout].
    + now apply IH.
    + clear -Hout. induction p as [|[k'' v'] p IH]; [reflexivity|].
      cbn [map fst filter] in *. case_streqb k'' k.
      * subst. exfalso. apply Hout. now left.
      * apply IH. intros Hp. apply Hout. now right.
  - destruct Hin as [Hin|Hin]; [cbn in Hin; congruence|]. now apply IH.
Qed.

Lemma emitted_pairs_of_strings k strs :
  emitted_pairs_of k (VArr (map VStr strs)) = map (fun s => (k, s)) strs.
Proof.
  cbn [emitted_pairs_of]. induction strs as [|s strs IH]; [reflexivity|].
  cbn [map flat_map is_nullish ToString app]. now rewrite IH.
Qed.

(** Every entry [parse] makes from well-formed pairs emits well-formed
    pairs. *)
Lemma parsed_value_well_formed p schema k :
  pairs_well_formed p = true -> In k (usp_keys p) ->
  entry_well_formed (k, parsed_value p schema k) = true.
Proof.
  intros Hp Hin. destruct (pairs_well_formed_key p k Hp Hin) as [Hk Hall].
  apply usp_getAll_keys in Hin.
  unfold entry_well_formed, parsed_value, usp_get_value, usp_get. cbn [fst snd].
  destruct (1 <? _).
  - rewrite emitted_pairs_of_strings. unfold pairs_well_formed.
    clear Hin. induction (usp_getAll k p) as [|s l IH]; [reflexivity|].
    cbn [forallb] in Hall. apply andb_true_iff in Hall as [Hs Hall].
    cbn [map forallb fst snd]. now rewrite Hk, Hs, IH.
  - destruct (usp_getAll k p) as [|s l]; [congruence|].
    cbn [forallb] in Hall. apply andb_true_iff in Hall as [Hs _].
    cbn [hd_error]. destruct (_ && _).
    + cbn [toNumberable]. destruct (isNumber (VStr s)); cbn.
      * now rewrite Hk, NumberToString_well_formed.
      * now rewrite Hk, Hs.
    + cbn. now rewrite Hk, Hs.
Qed.

Lemma emitted_texts_foreign p schema k :
  get_own k schema = None -> usp_getAll k p <> [] ->
  emitted_texts (parsed_value p schema k) = usp_getAll k p.
Proof.
  intros Hk Hall. unfold parsed_value, typeof_member. rewrite Hk.
  replace (has_property k schema && is_number_type _) with false
    by (destruct (has_property k schema), (streqb k proto_key),
          (existsb (streqb k) Object_prototype_names); reflexivity).
  destruct (1 <? _) eqn:Elen.
  - unfold emitted_texts. rewrite emitted_pairs_of_strings, map_map. cbn [snd].
    apply map_id.
  - unfold usp_get_value, usp_get.
    destruct (usp_getAll k p) as [|s [|s' l]]; [congruence | reflexivity|].
    apply Z.ltb_ge in Elen. cbn [List.length] in Elen. lia.
Qed.

(** What [parse] makes of the current URL: entries that emit well-formed
    pairs, under distinct keys, one for each key of the URL. *)
Lemma parsed_current_url initialValue url :
  forallb is_code_unit (query url) = true ->
  forallb entry_well_formed
    (own (parseQueryString (usp_toString (URL_searchParams url)) initialValue)) = true
  /\ NoDup (map fst (own (parseQueryString (usp_toString (URL_searchParams url)) initialValue)))
  /\ forall k, k <> proto_key ->
       get_own k (own (parseQueryString (usp_toString (URL_searchParams url)) initialValue))
       = if existsb (streqb k) (usp_keys (URL_searchParams url))
         then Some (parsed_value (URL_searchParams url) initialValue k) else None.
Proof.
  intros Hq. pose proof (URL_searchParams_well_formed url Hq) as Hwf.
  pose proof (usp_toString_read_back _ Hwf) as Hback.
  repeat split.
  - rewrite parseQueryString_assign, Hback. apply assign_keys_preserves; [|reflexivity].
    intros k Hk. apply parsed_value_well_formed; [exact Hwf | now apply In_unique].
  - rewrite parseQueryString_assign. apply assign_keys_NoDup. constructor.
  - intros k Hk. now rewrite parseQueryString_own, Hback.
Qed.

(** The scenario of the specification: [setState({page: 3, q: "hello"})]
    at [/p?page=2&ref=abc]. *)
Example setState_scenario :
  events (fst (setState (page_q 1 "") default_options (Value (lit (page_q 3 "hello")))
                 (mount (page_q 1 "") default_options
                    (browser_at (js "/p") (js "page=2&ref=abc")))))
  = [PushState (js "/p?page=3&ref=abc&q=hello")].
Proof. vm_compute. reflexivity. Qed.

(** C9, the counterexample: at [/p?ref=abc], the state [{tags: ["a", "b"]}]
    is written with two pairs for its key [tags]; and at [/p?q=x&ref=abc]
    the state [{q: null}] is written with no pair for [q]. *)
Lemma setState_does_not_write_one_pair_per_key :
  (events (fst (setState [(js "tags", VArr [])] default_options
                  (Value (lit [(js "tags", VArr [VStr (js "a"); VStr (js "b")])]))
                  (mount [(js "tags", VArr [])] default_options
                     (browser_at (js "/p") (js "ref=abc")))))
   = [PushState (js "/p?ref=abc&tags=a&tags=b")]
   /\ usp_getAll (js "tags") (new_URLSearchParams (js "ref=abc&tags=a&tags=b"))
      = [js "a"; js "b"])
  /\ (events (fst (setState [(js "q", VStr [])] default_options
                     (Value (lit [(js "q", VNull)]))
                     (mount [(js "q", VStr [])] default_options
                        (browser_at (js "/p") (js "q=x&ref=abc")))))
      = [PushState (js "/p?&ref=abc")]
      /\ usp_getAll (js "q") (new_URLSearchParams (js "&ref=abc")) = []).
Proof. repeat split; vm_compute; reflexivity. Qed.

(** A foreign key named [__proto__] is not kept: the assignment in [parse]
    reaches the setter of [Object.prototype] and makes no property. *)
Example setState_drops_proto_key :
  events (fst (setState (page 1) default_options (Value (lit (page 3)))
                 (mount (page 1) default_options
                    (browser_at (js "/p") (js "__proto__=x&ref=abc")))))
  = [PushState (js "/p?ref=abc&page=3")].
Proof. vm_compute. reflexivity. Qed.

(** ** The bounded loops end on their own *)

(** The loop that deletes while iterating stops because the iterator runs
    past the end of the list: more iterations allowed change nothing. *)
Lemma delete_while_iterating_enough keep : forall fuel index params extra,
  (List.length params < index + fuel)%nat ->
  delete_while_iterating (fuel + extra) keep index params
  = delete_while_iterating fuel keep index params.
Proof.
  induction fuel as [|fuel IH]; intros index params extra Hlen.
  - assert (Hnone : nth_error params index = None) by (apply nth_error_None; lia).
    destruct extra; cbn [Nat.add delete_while_iterating]; [reflexivity|].
    now rewrite Hnone.
  - cbn [Nat.add delete_while_iterating].
    destruct (nth_error params index) as [[k v]|]; [|reflexivity].
    apply IH. destruct (keep k); [lia|].
    pose proof (filter_length_le (fun kv => negb (streqb (fst kv) k)) params).
    unfold usp_delete. lia.
Qed.

Lemma delete_foreign_keys_enough keep params extra :
  delete_while_iterating (S (List.length params) + extra) keep 0 params
  = delete_foreign_keys keep params.
Proof. unfold delete_foreign_keys. apply delete_while_iterating_enough. lia. Qed.

Lemma decimal_digits_fuel_value : forall fuel n acc,
  0 <= n < 10 ^ Z.of_nat (S fuel) ->
  fold_left (fun a d => a * 10 + d) (decimal_digits_fuel fuel n acc) 0
  = fold_left (fun a d => a * 10 + d) acc n.
Proof.
  induction fuel as [|fuel IH]; intros n acc Hn.
  - change (10 ^ Z.of_nat 1) with 10 in Hn. cbn [decimal_digits_fuel fold_left].
    f_equal. div_lia.
  - cbn [decimal_digits_fuel]. destruct (n <? 10) eqn:E.
    + apply Z.ltb_lt in E. cbn [fold_left]. f_equal. div_lia.
    + apply Z.ltb_ge in E. rewrite IH.
      * cbn [fold_left]. f_equal. div_lia.
      * rewrite Nat2Z.inj_succ, Z.pow_succ_r in Hn by lia.
        generalize dependent (10 ^ Z.of_nat (S fuel)). intros m Hn. div_lia.
Qed.

(** [decimal_digits] has fuel for every digit: the digits give the number
    back. *)
Lemma decimal_digits_value n : 0 <= n -> digits_to_Z 10 (decimal_digits n) = n.
Proof.
  intros Hn. unfold digits_to_Z, decimal_digits.
  rewrite decimal_digits_fuel_value; [reflexivity|].
  split; [exact Hn|].
  destruct (Z.eq_dec n 0) as [->|Hpos]; [reflexivity|].
  rewrite Nat2Z.inj_succ, Z2Nat.id by apply Z.log2_nonneg.
  pose proof (Z.log2_spec n ltac:(lia)) as [_ Hlt].
  apply Z.lt_le_trans with (1 := Hlt).
  apply Z.pow_le_mono_l. pose proof (Z.log2_nonneg n). lia.
Qed.

(** ** When the round trip is exact *)

(** A value reads back as itself when it is a string under a default that
    is not a number, an array of strings, or a number under a numeric
    default whose text is a finite numeric literal denoting it. *)
Lemma read_back_same schema key v :
  match v with
  | VStr s => has_property key schema && is_number_type (typeof_member key schema) = false
  | VArr items => forall i, In i items -> exists s, i = VStr s
  | VNum n =>
      has_property key schema && is_number_type (typeof_member key schema) = true
      /\ isNumber (VStr (NumberToString n)) = true
      /\ StringToNumber (NumberToString n) = n
  | _ => False
  end ->
  read_back schema key v = v.
Proof.
  unfold read_back. destruct v as [| |b|n|s|items]; try contradiction.
  - intros (Hnum & Hfin & Hback). rewrite Hnum. cbn [ToString toNumberable].
    now rewrite Hfin, Hback.
  - intros Hstr. now rewrite Hstr.
  - intros Hitems. f_equal. induction items as [|i items IH]; [reflexivity|].
    cbn [map]. destruct (Hitems i (or_introl eq_refl)) as [s ->].
    cbn [ToString]. f_equal. apply IH. intros j Hj. apply Hitems. now right.
Qed.

Example round_trip_exact :
  rbind (stringifyQueryString (lit (page_q_tags 3 "hello" ["a"%string; "b"%string])))
    (fun q => Ok (parseQueryString q (page_q_tags 1 "" [])))
  = Ok (lit (page_q_tags 3 "hello" ["a"%string; "b"%string])).
Proof. vm_compute. reflexivity. Qed.

(** * Further properties of the code *)

(** ** [isNumber] and [toNumberable] *)

(** X1: [isNumber] on a number: the test [num - num === 0] holds exactly of the
    finite numbers, both zeros included. *)
Theorem isNumber_number_iff_finite (n : number) : isNumber (VNum n) = is_finite n.
Proof.
  destruct n as [s|s| |s m e]; cbn [isNumber is_finite].
  - destruct s; reflexivity.
  - destruct s; reflexivity.
  - reflexivity.
  - cbn [SFsub]. rewrite Z.sub_diag. reflexivity.
Qed.

(** The test of [parseQueryString] for a numeric default sees own
    properties only: what [Object.prototype] provides is never a number. *)
Lemma numeric_default_own key (initialValue : literal) :
  has_property key initialValue && is_number_type (typeof_member key initialValue)
  = match get_own key initialValue with Some (VNum _) => true | _ => false end.
Proof.
  unfold has_property, typeof_member.
  destruct (get_own key initialValue) as [v|].
  - destruct v; reflexivity.
  - destruct (existsb (streqb key) Object_prototype_names), (streqb key proto_key);
      reflexivity.
Qed.

(** X2: A key that occurs once: its text stays a string unless the default
    under that key is a number and the text is not blank and denotes a
    finite number, in which case it becomes that number. *)
Theorem parse_single_occurrence
    (searchParams : jsstring) (initialValue : literal) (key s : jsstring)
    (Honce : usp_getAll key (new_URLSearchParams searchParams) = [s])
    (Hkey : key <> proto_key) :
  get_own key (own (parseQueryString searchParams initialValue)) =
  Some (match get_own key initialValue with
        | Some (VNum _) =>
            if negb (streqb (trim s) []) && is_finite (StringToNumber s)
            then VNum (StringToNumber s) else VStr s
        | _ => VStr s
        end).
Proof.
  rewrite parseQueryString_own by exact Hkey.
  assert (Hin : existsb (streqb key) (usp_keys (new_URLSearchParams searchParams)) = true).
  { apply existsb_streqb, usp_getAll_keys. rewrite Honce. discriminate. }
  rewrite Hin. f_equal. unfold parsed_value.
  rewrite numeric_default_own, (usp_get_value_first _ _ _ _ Honce), Honce.
  cbn [List.length Z.of_nat]. change (1 <? Z.of_nat 1) with false. cbv iota.
  destruct (get_own key initialValue) as [[| | |n| |]|]; reflexivity.
Qed.

Lemma parse_single_occurrence_witness :
  (usp_getAll (js "page") (new_URLSearchParams (js "page=1e999&q=7")) = [js "1e999"]
   /\ js "page" <> proto_key)
  /\ get_own (js "page") (own (parseQueryString (js "page=1e999&q=7") (page_q 1 "")))
     = Some (VStr (js "1e999")).
Proof.
  split; [split; [reflexivity | discriminate]|].
  rewrite (parse_single_occurrence (js "page=1e999&q=7") (page_q 1 "") (js "page")
             (js "1e999") eq_refl ltac:(discriminate)).
  vm_compute. reflexivity.
Defined.

Lemma parse_number_origin searchParams initialValue key n :
  get_data key (parseQueryString searchParams initialValue) = Some (VNum n) ->
  exists s, usp_getAll key (new_URLSearchParams searchParams) = [s]
            /\ n = StringToNumber s /\ is_finite n = true /\ trim s <> [].
Proof.
  set (p := new_URLSearchParams searchParams).
  pose proof (parseQueryString_shape searchParams initialValue) as [Hown Hproto].
  intros Hget. unfold get_data in Hget. case_streqb key proto_key.
  - subst key. rewrite Hown in Hget. destruct (proto _); discriminate.
  - rewrite parseQueryString_own in Hget by exact E. fold p in Hget.
    destruct (existsb (streqb key) (usp_keys p)) eqn:Ek; [|destruct (proto _); discriminate].
    injection Hget as Hget. unfold parsed_value, usp_get_value, usp_get in Hget.
    destruct (1 <? _) eqn:Elen; [discriminate|]. apply Z.ltb_ge in Elen.
    apply (proj1 (existsb_streqb _ _)), (proj1 (usp_getAll_keys _ _)) in Ek.
    destruct (usp_getAll key p) as [|s [|s' l]] eqn:Eall; cbn in Elen; try congruence; try lia.
    exists s. cbn [hd_error] in Hget. destruct (has_property key initialValue && _);
      [|discriminate].
    cbn [toNumberable isNumber] in Hget.
    destruct (negb (streqb (trim s) [])) eqn:Eblank; [|discriminate].
    destruct (is_finite (StringToNumber s)) eqn:Efin; [|discriminate].
    injection Hget as <-. repeat split; try assumption.
    apply negb_true_iff, streqb_false in Eblank. exact Eblank.
Qed.

(** X3: Every number in the result of [parseQueryString] is finite and comes
    from the single text of its key, which is not blank: [NaN], [Infinity],
    an overflowing literal and the empty string are never made numbers. *)
Theorem parse_numbers_are_finite
    (searchParams : jsstring) (initialValue : literal) (key : jsstring) (n : number)
    (Hnum : get_data key (parseQueryString searchParams initialValue) = Some (VNum n)) :
  is_finite n = true
  /\ exists s, usp_getAll key (new_URLSearchParams searchParams) = [s]
               /\ n = StringToNumber s /\ trim s <> [].
Proof.
  destruct (parse_number_origin searchParams initialValue key n Hnum)
    as (s & Hall & Hn & Hfin & Hblank).
  split; [exact Hfin|]. exists s. auto.
Qed.

Lemma parse_numbers_are_finite_witness :
  get_data (js "page") (parseQueryString (js "page=42") (page 1))
    = Some (VNum (number_of_Z 42))
  /\ is_finite (number_of_Z 42) = true.
Proof.
  split; [vm_compute; reflexivity|].
  exact (proj1 (parse_numbers_are_finite (js "page=42") (page 1) (js "page")
                  (number_of_Z 42) ltac:(vm_compute; reflexivity))).
Defined.

(** ** The keys and the prototype of what [parseQueryString] returns *)

Lemma proto_set_scalar v o :
  plain_shape o -> v <> VNull -> (forall items, v <> VArr items) ->
  proto (obj_set proto_key v o) = proto o.
Proof.
  intros [Hown Hproto] Hnull Harr. unfold obj_set. rewrite Hown, streqb_refl.
  destruct v as [| |b|n|s|items]; try congruence;
    try (destruct (true && negb _); reflexivity).
Qed.

Lemma assign_keys_proto_scalar f ks : forall o,
  (forall k, In k ks -> f k <> VNull) -> plain_shape o ->
  (forall items, f proto_key <> VArr items) ->
  proto (assign_keys f ks o) = proto o.
Proof.
  induction ks as [|a ks IH]; intros o Hf Ho Hp; [reflexivity|].
  assert (Ha : f a <> VNull) by (apply Hf; now left).
  unfold assign_keys in *. cbn [fold_left].
  rewrite IH; [| intros k Hk; apply Hf; now right | now apply plain_shape_set | exact Hp].
  case_streqb a proto_key.
  - subst a. now apply proto_set_scalar.
  - now apply proto_set_other.
Qed.

(** X4: The own keys of the result are the names that occur in the query
    string, [__proto__] excepted: that name never becomes a property. When
    it occurs more than once the array of its values becomes the prototype
    of the result; otherwise the prototype is [Object.prototype]. *)
Theorem parse_own_keys_and_prototype (searchParams : jsstring) (initialValue : literal) :
  (forall k,
     get_own k (own (parseQueryString searchParams initialValue)) <> None
     <-> k <> proto_key /\ In k (usp_keys (new_URLSearchParams searchParams)))
  /\ proto (parseQueryString searchParams initialValue)
     = if 1 <? Z.of_nat (List.length (usp_getAll proto_key (new_URLSearchParams searchParams)))
       then ProtoArray (map VStr (usp_getAll proto_key (new_URLSearchParams searchParams)))
       else ProtoObject.
Proof.
  set (p := new_URLSearchParams searchParams).
  pose proof (parseQueryString_shape searchParams initialValue) as [Hown _].
  split.
  - intros k. case_streqb k proto_key.
    + subst k. rewrite Hown. split; [congruence | intros [H _]; congruence].
    + rewrite parseQueryString_own by exact E. fold p.
      destruct (existsb (streqb k) (usp_keys p)) eqn:Ein.
      * apply existsb_streqb in Ein. split; [auto | discriminate].
      * split; [congruence|]. intros [_ Hin].
        apply (proj2 (existsb_streqb _ _)) in Hin. congruence.
  - rewrite parseQueryString_assign. fold p.
    assert (Hnull : forall k, In k (unique (usp_keys p)) ->
                    parsed_value p initialValue k <> VNull).
    { intros k Hk. apply parsed_value_not_null. now apply In_unique. }
    destruct (1 <? Z.of_nat (List.length (usp_getAll proto_key p))) eqn:Elen.
    + rewrite (assign_keys_proto _ (map VStr (usp_getAll proto_key p)));
        [| exact Hnull | apply empty_obj_shape | unfold parsed_value; now rewrite Elen].
      assert (Hin : In proto_key (unique (usp_keys p))).
      { apply In_unique, usp_getAll_keys. apply Z.ltb_lt in Elen.
        destruct (usp_getAll proto_key p); [cbn in Elen; lia | discriminate]. }
      apply (proj2 (existsb_streqb _ _)) in Hin. now rewrite Hin.
    + apply assign_keys_proto_scalar; [exact Hnull | apply empty_obj_shape|].
      intros items. unfold parsed_value, usp_get_value. rewrite Elen.
      destruct (_ && _); destruct (usp_get proto_key p); cbn [toNumberable];
        try discriminate.
      destruct (isNumber _); discriminate.
Qed.

(** ** What [stringifyQueryString] writes, and how it is read *)

Lemma is_uri_char_unescaped c : uri_unescaped c = true -> is_uri_char c = true.
Proof. intros H. unfold is_uri_char. now rewrite H. Qed.

Lemma hex_digit_uri_char d : 0 <= d < 16 -> is_uri_char (hex_digit d) = true.
Proof.
  intros H. apply is_uri_char_unescaped. unfold uri_unescaped, is_alnum.
  pose proof (hex_digit_range d H) as [Hr|Hr].
  - replace ((48 <=? hex_digit d) && (hex_digit d <=? 57)) with true
      by (symmetry; zbool_goal; lia). reflexivity.
  - replace ((65 <=? hex_digit d) && (hex_digit d <=? 90)) with true
      by (symmetry; zbool_goal; lia). now rewrite orb_true_r.
Qed.

Lemma percent_bytes_uri_chars bytes :
  forallb is_byte bytes = true -> forallb is_uri_char (flat_map percent_byte bytes) = true.
Proof.
  induction bytes as [|b bytes IH]; intros H; [reflexivity|].
  cbn [forallb] in H. apply andb_true_iff in H as [Hb H]. apply is_byte_true in Hb.
  cbn [flat_map percent_byte app forallb].
  rewrite !hex_digit_uri_char, IH by (assumption || div_lia). reflexivity.
Qed.

Lemma encoded_uri_chars s :
  well_formed s = true -> forallb is_uri_char (encoded s) = true.
Proof.
  intros Hwf. destruct (well_formed_code_points s Hwf) as [Hsc _]. unfold encoded.
  induction (StringToCodePoints s) as [|cp cps IH]; [reflexivity|].
  cbn [forallb] in Hsc. apply andb_true_iff in Hsc as [Hcp Hsc].
  cbn [flat_map]. rewrite forallb_app, IH, andb_true_r by exact Hsc.
  unfold encoded_code_point. destruct (uri_unescaped cp) eqn:Eu.
  - cbn [forallb]. now rewrite is_uri_char_unescaped.
  - apply percent_bytes_uri_chars. now apply utf8_encode_bytes.
Qed.

Lemma join_uri_chars segs :
  forallb (forallb is_uri_char) segs = true -> forallb is_uri_char (join [38] segs) = true.
Proof.
  induction segs as [|seg segs IH]; intros H; [reflexivity|].
  cbn [forallb] in H. apply andb_true_iff in H as [Hseg H].
  cbn [join]. destruct segs as [|seg' segs]; [exact Hseg|].
  rewrite !forallb_app, Hseg, IH by exact H. reflexivity.
Qed.

Lemma rendered_items_uri_chars items :
  pairs_well_formed (present items) = true ->
  forallb (forallb is_uri_char) (map rendered_item items) = true.
Proof.
  unfold pairs_well_formed. induction items as [|[[k t]|] items IH]; intros H.
  - reflexivity.
  - unfold present in H. cbn [flat_map app forallb fst snd] in H.
    apply andb_true_iff in H as [Hkt H]. apply andb_true_iff in Hkt as [Hk Ht].
    cbn [map forallb rendered_item]. rewrite IH by exact H.
    rewrite forallb_app. cbn [forallb]. now rewrite !encoded_uri_chars.
  - cbn [map forallb rendered_item]. now rewrite IH.
Qed.

(** X6: A mapping whose keys and texts are well-formed is stringified to a
    string of unreserved characters, [%], [&] and [=], and [URLSearchParams]
    reads from it exactly the pairs the mapping emits, in order: the empty
    sequences left by null and undefined entries are skipped. *)
Theorem stringify_is_read_back (o : obj)
    (Hwf : pairs_well_formed (emitted_pairs (own o)) = true) :
  exists q, stringifyQueryString o = Ok q
            /\ forallb is_uri_char q = true
            /\ new_URLSearchParams q = emitted_pairs (own o).
Proof.
  exists (Array_join [38] (flat_map rendered_entry (own o))). repeat split.
  - rewrite stringifyQueryString_spec. unfold emits_encodable.
    now rewrite well_formed_encodable.
  - rewrite Array_join_rendered. apply join_uri_chars, rendered_items_uri_chars.
    now rewrite <- emitted_pairs_items.
  - now apply rendered_read_back.
Qed.

Lemma stringify_is_read_back_witness :
  pairs_well_formed
    (emitted_pairs [(js "a", VStr (js "x y")); (js "b", VNull);
                    (js "c", VArr [VNum (number_of_Z 1); VUndefined; VStr (js "&")])]) = true
  /\ exists q,
       stringifyQueryString
         (lit [(js "a", VStr (js "x y")); (js "b", VNull);
               (js "c", VArr [VNum (number_of_Z 1); VUndefined; VStr (js "&")])]) = Ok q
       /\ new_URLSearchParams q
          = [(js "a", js "x y"); (js "c", js "1"); (js "c", js "&")].
Proof.
  split; [vm_compute; reflexivity|].
  destruct (stringify_is_read_back
              (lit [(js "a", VStr (js "x y")); (js "b", VNull);
                    (js "c", VArr [VNum (number_of_Z 1); VUndefined; VStr (js "&")])])
              ltac:(vm_compute; reflexivity)) as (q & Hq & _ & Hback).
  exists q. split; [exact Hq|]. rewrite Hback. vm_compute. reflexivity.
Defined.

(** ** The loop that deletes foreign keys *)

Section delete_loop.

Variable keep : jsstring -> bool.

Lemma usp_delete_kept k p :
  keep k = false -> filter (passes keep) (usp_delete k p) = filter (passes keep) p.
Proof.
  intros Hk. unfold usp_delete. induction p as [|[k' v] p IH]; [reflexivity|].
  cbn [filter fst]. case_streqb k' k; cbn [negb].
  - subst k'. unfold passes at 2. cbn [fst]. now rewrite Hk.
  - cbn [filter]. now rewrite IH.
Qed.

Lemma delete_while_iterating_kept : forall fuel index params,
  filter (passes keep) (delete_while_iterating fuel keep index params) = filter (passes keep) params.
Proof.
  induction fuel as [|fuel IH]; intros index params; [reflexivity|].
  cbn [delete_while_iterating].
  destruct (nth_error params index) as [[k v]|]; [|reflexivity].
  rewrite IH. destruct (keep k) eqn:Ek; [reflexivity | now apply usp_delete_kept].
Qed.

Lemma filter_all_kept p : forallb (passes keep) p = true -> filter (passes keep) p = p.
Proof.
  induction p as [|kv p IH]; intros H; [reflexivity|].
  cbn [forallb] in H. apply andb_true_iff in H as [Hkv H].
  cbn [filter]. now rewrite Hkv, IH.
Qed.

Lemma delete_while_iterating_all_kept : forall fuel index params,
  forallb (passes keep) params = true -> delete_while_iterating fuel keep index params = params.
Proof.
  induction fuel as [|fuel IH]; intros index params H; [reflexivity|].
  cbn [delete_while_iterating].
  destruct (nth_error params index) as [[k v]|] eqn:En; [|reflexivity].
  apply nth_error_In in En. rewrite forallb_forall in H.
  pose proof (H _ En) as Hk. unfold passes in Hk. cbn [fst] in Hk. rewrite Hk.
  apply IH. now apply forallb_forall.
Qed.

Lemma usp_delete_not_there k p :
  (forall kv, In kv p -> fst kv <> k) -> usp_delete k p = p.
Proof.
  unfold usp_delete. induction p as [|[k' v] p IH]; intros H; [reflexivity|].
  cbn [filter fst]. case_streqb k' k.
  - exfalso. apply (H (k', v)); [now left | exact E].
  - cbn [negb]. rewrite IH; [reflexivity|]. intros kv Hin. apply H. now right.
Qed.

Lemma usp_delete_only_foreign k p :
  keep k = false ->
  (forall kv, In kv p -> (passes keep) kv = false -> fst kv = k) ->
  usp_delete k p = filter (passes keep) p.
Proof.
  intros Hk. unfold usp_delete. induction p as [|[k' v] p IH]; intros H; [reflexivity|].
  cbn [filter fst]. unfold passes at 1. cbn [fst].
  assert (IH' : filter (fun kv => negb (streqb (fst kv) k)) p = filter (passes keep) p)
    by (apply IH; intros kv Hin; apply H; now right).
  case_streqb k' k; cbn [negb].
  - subst k'. now rewrite Hk.
  - destruct (keep k') eqn:Ek'; [now rewrite IH'|].
    exfalso. apply E. apply (H (k', v)); [now left | exact Ek'].
Qed.

Lemma delete_while_iterating_one_foreign_name k0 : forall fuel pre post,
  (List.length post < fuel)%nat ->
  forallb (passes keep) pre = true ->
  (forall kv, In kv post -> (passes keep) kv = false -> fst kv = k0) ->
  delete_while_iterating fuel keep (List.length pre) (pre ++ post)
  = pre ++ filter (passes keep) post.
Proof.
  induction fuel as [|fuel IH]; intros pre post Hlen Hpre Hone; [lia|].
  cbn [delete_while_iterating]. destruct post as [|[k v] post].
  - cbn [filter]. rewrite !app_nil_r.
    replace (nth_error pre (List.length pre)) with (@None (jsstring * jsstring))
      by (symmetry; apply nth_error_None; lia).
    reflexivity.
  - rewrite nth_error_app2, Nat.sub_diag by lia. cbn [nth_error].
    cbn [List.length] in Hlen. cbn [filter]. change (passes keep (k, v)) with (keep k).
    destruct (keep k) eqn:Ek.
    + replace (S (List.length pre)) with (List.length (pre ++ [(k, v)]))
        by (rewrite length_app; cbn; lia).
      replace (pre ++ (k, v) :: post) with ((pre ++ [(k, v)]) ++ post)
        by (now rewrite <- app_assoc).
      rewrite IH.
      * now rewrite <- app_assoc.
      * lia.
      * rewrite forallb_app, Hpre. cbn [forallb]. unfold passes. cbn [fst]. now rewrite Ek.
      * intros kv Hin. apply Hone. now right.
    + assert (Hk : k = k0) by (apply (Hone (k, v)); [now left | exact Ek]).
      assert (Hdel : usp_delete k (pre ++ (k, v) :: post) = pre ++ filter (passes keep) post).
      { unfold usp_delete. rewrite filter_app. cbn [filter fst]. rewrite streqb_refl.
        cbn [negb]. f_equal.
        - apply usp_delete_not_there. intros kv Hin Heq.
          rewrite forallb_forall in Hpre. specialize (Hpre kv Hin).
          unfold passes in Hpre. congruence.
        - apply usp_delete_only_foreign; [exact Ek|].
          intros kv Hin Hf. rewrite Hk. apply Hone; [now right | exact Hf]. }
      rewrite Hdel. apply delete_while_iterating_all_kept.
      rewrite forallb_app, Hpre. apply forallb_forall. intros kv Hin.
      now apply filter_In in Hin.
Qed.

End delete_loop.

(** X8: The loop of [getInitialStateWithQueryString] never loses an entry
    whose key passes the test: the entries of schema keys stay, in order,
    whatever it skips. *)
Theorem delete_foreign_keys_keeps_schema_entries
    (keep : jsstring -> bool) (params : URLSearchParams) :
  filter (passes keep) (delete_foreign_keys keep params) = filter (passes keep) params.
Proof. apply delete_while_iterating_kept. Qed.

(** X9: When all the entries that fail the test have one and the same name,
    the loop removes them all and nothing else. *)
Theorem delete_foreign_keys_one_foreign_name
    (keep : jsstring -> bool) (params : URLSearchParams) (k0 : jsstring)
    (Hone : forall kv, In kv params -> keep (fst kv) = false -> fst kv = k0) :
  delete_foreign_keys keep params = filter (passes keep) params.
Proof.
  unfold delete_foreign_keys.
  apply (delete_while_iterating_one_foreign_name keep k0 _ [] params);
    [lia | reflexivity | exact Hone].
Qed.

Lemma delete_foreign_keys_one_foreign_name_witness :
  (forall kv, In kv (new_URLSearchParams (js "x=1&page=2&x=3&q=a")) ->
     has_property (fst kv) (page_q 1 "") = false -> fst kv = js "x")
  /\ delete_foreign_keys (fun k => has_property k (page_q 1 ""))
       (new_URLSearchParams (js "x=1&page=2&x=3&q=a"))
     = [(js "page", js "2"); (js "q", js "a")].
Proof.
  assert (Hone : forall kv, In kv (new_URLSearchParams (js "x=1&page=2&x=3&q=a")) ->
                 has_property (fst kv) (page_q 1 "") = false -> fst kv = js "x").
  { intros kv Hin. vm_compute in Hin.
    destruct Hin as [<-|[<-|[<-|[<-|[]]]]]; vm_compute; congruence. }
  split; [exact Hone|].
  rewrite (delete_foreign_keys_one_foreign_name _ _ (js "x") Hone).
  vm_compute. reflexivity.
Defined.

(** ** Reconciliation: the state computed from the defaults and the URL *)

Lemma get_own_set_present k v o k' :
  get_own k' (own o) <> None -> get_own k' (own (obj_set k v o)) <> None.
Proof.
  intros H. case_streqb k' k.
  - subst k'. unfold obj_set. destruct (get_own k (own o)) eqn:Ek; [|congruence].
    cbn [own]. rewrite get_own_replace_same; congruence.
  - now rewrite get_own_set_other.
Qed.

Lemma Object_assign_present_target target source k :
  get_own k (own target) <> None -> get_own k (own (Object_assign target source)) <> None.
Proof.
  unfold Object_assign. revert target.
  induction (own source) as [|[k0 v0] props IH]; intros target H; [exact H|].
  cbn [fold_left fst snd]. apply IH. now apply get_own_set_present.
Qed.

Lemma Object_assign_present_source target source k :
  k <> proto_key -> get_own k (own source) <> None ->
  get_own k (own (Object_assign target source)) <> None.
Proof.
  intros Hk. unfold Object_assign. revert target.
  induction (own source) as [|[k0 v0] props IH]; intros target H; [cbn in H; congruence|].
  cbn [fold_left fst snd]. cbn [get_own] in H. case_streqb k0 k.
  - subst k0.
    apply (Object_assign_present_target (obj_set k v0 target) (Obj props ProtoObject)).
    rewrite get_own_set_same by exact Hk. discriminate.
  - now apply IH.
Qed.

Lemma mount_no_sync initialValue options w :
  isSyncPathname_of options = false ->
  mount initialValue options w = {| state := lit initialValue; window := w; events := [] |}.
Proof. intros H. unfold mount, useQueryStringState. now rewrite H. Qed.

Lemma reconciled_cases initialValue options w :
  reconciled initialValue options w = lit initialValue
  \/ exists parsed,
       reconciled initialValue options w
       = Object_assign (Object_assign empty_obj (lit initialValue)) parsed.
Proof.
  unfold reconciled, getInitialStateWithQueryString, try_catch, bind, get_window, lift, ret.
  cbn [window]. destruct w as [[[|url] listen]|]; cbn [location isValidUrl new_URL];
    try (left; reflexivity).
  destruct (parse _ _) as [parsed|e]; [right; exists parsed | left]; reflexivity.
Qed.

(** X10: The defaults supply every key: whatever the codec, the environment
    and the sync flag, each key of the defaults other than [__proto__] is a
    key of the state of the first render. *)
Theorem initial_state_has_every_default_key
    (initialValue : literal) (options : UseQueryStringStateOptions)
    (w : option Window) (k : jsstring)
    (Hkey : get_own k initialValue <> None) (Hproto : k <> proto_key) :
  get_own k (own (state (mount initialValue options w))) <> None.
Proof.
  destruct (isSyncPathname_of options) eqn:Hsync.
  - rewrite mount_sync by exact Hsync.
    destruct (reconciled_cases initialValue options w) as [-> | [parsed ->]]; [exact Hkey|].
    apply Object_assign_present_target, Object_assign_present_source; assumption.
  - rewrite mount_no_sync by exact Hsync. exact Hkey.
Qed.

Lemma initial_state_has_every_default_key_witness :
  (get_own (js "q") (page_q 1 "") <> None /\ js "q" <> proto_key)
  /\ get_own (js "q")
       (own (state (mount (page_q 1 "") default_options
                      (browser_at (js "/p") (js "page=2&x=1&y=2"))))) <> None.
Proof.
  split; [split; discriminate|].
  apply initial_state_has_every_default_key; discriminate.
Defined.

(** X11: Without a usable URL the first render takes the defaults as they are
    and does nothing else: with sync mode off, without a [window], or with a
    location that is not a URL (which is not an error: nothing is logged). *)
Theorem initial_state_without_url
    (initialValue : literal) (options : UseQueryStringStateOptions) (w : option Window)
    (Hno : isSyncPathname_of options = false
           \/ w = None
           \/ exists listen, w = Some {| location := HrefInvalid;
                                         has_addEventListener := listen |}) :
  mount initialValue options w = {| state := lit initialValue; window := w; events := [] |}.
Proof.
  destruct (isSyncPathname_of options) eqn:Hsync; [|now apply mount_no_sync].
  unfold mount, useQueryStringState. rewrite Hsync.
  destruct Hno as [Hno | [-> | [listen ->]]]; [discriminate | reflexivity | reflexivity].
Qed.

Lemma initial_state_without_url_witness :
  (isSyncPathname_of default_options = false
   \/ @None Window = None
   \/ exists listen, @None Window = Some {| location := HrefInvalid;
                                            has_addEventListener := listen |})
  /\ mount (page 1) default_options None
     = {| state := lit (page 1); window := None; events := [] |}.
Proof.
  split; [right; left; reflexivity|].
  apply initial_state_without_url. right. left. reflexivity.
Defined.

Lemma forallb_filter_kept {A} (P f : A -> bool) l :
  forallb P l = true -> forallb P (filter f l) = true.
Proof.
  induction l as [|a l IH]; intros H; [reflexivity|].
  cbn [forallb] in H. apply andb_true_iff in H as [Ha H].
  cbn [filter]. destruct (f a); cbn [forallb]; [rewrite Ha|]; now apply IH.
Qed.

Lemma delete_while_iterating_forallb (P : jsstring * jsstring -> bool) keep :
  forall fuel index params,
    forallb P params = true ->
    forallb P (delete_while_iterating fuel keep index params) = true.
Proof.
  induction fuel as [|fuel IH]; intros index params H; [exact H|].
  cbn [delete_while_iterating].
  destruct (nth_error params index) as [[k v]|]; [|exact H].
  apply IH. destruct (keep k); [exact H | now apply forallb_filter_kept].
Qed.

Lemma usp_getAll_passes keep k p :
  keep k = true -> usp_getAll k (filter (passes keep) p) = usp_getAll k p.
Proof.
  intros Hk. unfold usp_getAll. f_equal.
  induction p as [|[k' v] p IH]; [reflexivity|].
  cbn [filter fst]. change (passes keep (k', v)) with (keep k').
  case_streqb k' k.
  - subst k'. rewrite Hk. cbn [filter fst]. rewrite streqb_refl. now rewrite IH.
  - destruct (keep k'); [cbn [filter fst]; case_streqb k' k; [congruence|]|]; exact IH.
Qed.

Lemma usp_getAll_delete_foreign_keys keep k p :
  keep k = true -> usp_getAll k (delete_foreign_keys keep p) = usp_getAll k p.
Proof.
  intros Hk. rewrite <- (usp_getAll_passes keep k (delete_foreign_keys keep p)) by exact Hk.
  unfold delete_foreign_keys. rewrite delete_while_iterating_kept.
  now apply usp_getAll_passes.
Qed.

Lemma parsed_value_ext p p' schema k :
  usp_getAll k p = usp_getAll k p' -> parsed_value p schema k = parsed_value p' schema k.
Proof.
  intros H. unfold parsed_value, usp_get_value, usp_get. now rewrite H.
Qed.

Lemma reconciled_default initialValue options url listen :
  queryString options = None ->
  reconciled initialValue options
    (Some {| location := Href url; has_addEventListener := listen |})
  = Object_assign (Object_assign empty_obj (lit initialValue))
      (parseQueryString
         (usp_toString
            (delete_foreign_keys (fun k => has_property k initialValue)
               (URL_searchParams url)))
         initialValue).
Proof.
  intros Hcodec.
  unfold reconciled, getInitialStateWithQueryString, queryString_of, try_catch, bind,
    get_window, lift, ret.
  rewrite Hcodec. reflexivity.
Qed.

Lemma get_own_defaults_copy initialValue k :
  k <> proto_key -> no_dup_keys (map fst initialValue) = true ->
  get_own k (own (Object_assign empty_obj (lit initialValue))) = get_own k initialValue.
Proof.
  intros Hk Hnd. rewrite get_own_Object_assign by assumption.
  cbn [own lit empty_obj get_own]. now destruct (get_own k initialValue).
Qed.

(** What the filtered URL parses to: the entries of the URL that the loop
    leaves, read by the default codec. *)
Lemma parsed_filtered_url initialValue url k :
  forallb is_code_unit (query url) = true ->
  k <> proto_key ->
  let kept := delete_foreign_keys (fun k => has_property k initialValue)
                (URL_searchParams url) in
  NoDup (keys (parseQueryString (usp_toString kept) initialValue))
  /\ get_own k (own (parseQueryString (usp_toString kept) initialValue))
     = if existsb (streqb k) (usp_keys kept)
       then Some (parsed_value kept initialValue k) else None.
Proof.
  intros Hq Hk kept.
  assert (Hwf : pairs_well_formed kept = true).
  { apply delete_while_iterating_forallb. now apply URL_searchParams_well_formed. }
  split.
  - apply assign_keys_NoDup. constructor.
  - rewrite parseQueryString_own by exact Hk.
    now rewrite usp_toString_read_back by exact Hwf.
Qed.

Lemma existsb_keys_ext (p p' : URLSearchParams) k :
  usp_getAll k p = usp_getAll k p' ->
  existsb (streqb k) (usp_keys p) = existsb (streqb k) (usp_keys p').
Proof.
  intros H.
  destruct (existsb (streqb k) (usp_keys p)) eqn:E, (existsb (streqb k) (usp_keys p')) eqn:E';
    try reflexivity.
  - apply existsb_streqb, usp_getAll_keys in E. rewrite H in E.
    apply usp_getAll_keys, existsb_streqb in E. congruence.
  - apply existsb_streqb, usp_getAll_keys in E'. rewrite <- H in E'.
    apply usp_getAll_keys, existsb_streqb in E'. congruence.
Qed.

(** The state under a key of the defaults, in terms of the URL before the
    loop: the loop keeps every occurrence of such a key. *)
Lemma reconciled_schema_key initialValue options url listen k d :
  queryString options = None ->
  forallb is_code_unit (query url) = true ->
  no_dup_keys (map fst initialValue) = true ->
  k <> proto_key ->
  get_own k initialValue = Some d ->
  get_own k
    (own (reconciled initialValue options
            (Some {| location := Href url; has_addEventListener := listen |})))
  = Some (if existsb (streqb k) (usp_keys (URL_searchParams url))
          then parsed_value (URL_searchParams url) initialValue k
          else d).
Proof.
  intros Hcodec Hquery Hkeys Hproto Hdefault.
  rewrite reconciled_default by exact Hcodec.
  destruct (parsed_filtered_url initialValue url k Hquery Hproto) as [Hnd Hget].
  cbv zeta in Hnd, Hget.
  rewrite get_own_Object_assign; [|exact Hproto | now apply no_dup_keys_NoDup].
  rewrite Hget, get_own_defaults_copy, Hdefault by assumption.
  assert (Hkeep : (fun k => has_property k initialValue) k = true)
    by (cbv beta; unfold has_property; now rewrite Hdefault).
  pose proof (usp_getAll_delete_foreign_keys _ k (URL_searchParams url) Hkeep) as Hall.
  rewrite (parsed_value_ext _ _ initialValue k Hall), (existsb_keys_ext _ _ k Hall).
  now destruct (existsb (streqb k) (usp_keys (URL_searchParams url))).
Qed.

(** X12: For a key of the defaults, the URL decides: the state of the first
    render holds what the default codec reads from the occurrences of the
    key in the URL, and the default when there is none. Entries of other
    names, and what the deleting loop does to them, play no part. *)
Theorem initial_state_of_schema_key
    (initialValue : literal) (options : UseQueryStringStateOptions)
    (url : URL) (listen : bool) (k : jsstring) (d : value)
    (Hcodec : queryString options = None)
    (Hquery : forallb is_code_unit (query url) = true)
    (Hkeys : no_dup_keys (map fst initialValue) = true)
    (Hproto : k <> proto_key)
    (Hdefault : get_own k initialValue = Some d) :
  get_own k
    (own (reconciled initialValue options
            (Some {| location := Href url; has_addEventListener := listen |})))
  = Some (match usp_getAll k (URL_searchParams url) with
          | [] => d
          | _ :: _ => parsed_value (URL_searchParams url) initialValue k
          end).
Proof.
  rewrite (reconciled_schema_key initialValue options url listen k d) by assumption.
  f_equal. destruct (existsb (streqb k) (usp_keys (URL_searchParams url))) eqn:E.
  - apply existsb_streqb, usp_getAll_keys in E.
    destruct (usp_getAll k (URL_searchParams url)); [congruence | reflexivity].
  - destruct (usp_getAll k (URL_searchParams url)) eqn:Eall; [reflexivity|].
    assert (Hin : In k (usp_keys (URL_searchParams url)))
      by (apply usp_getAll_keys; congruence).
    apply (proj2 (existsb_streqb _ _)) in Hin. congruence.
Qed.

Lemma initial_state_of_schema_key_witness :
  (queryString default_options = None
   /\ forallb is_code_unit (query (page_at (js "/p") (js "x=1&page=7&y=2&z=3")))
      = true
   /\ no_dup_keys (map fst (page_q 1 "a")) = true
   /\ js "page" <> proto_key
   /\ get_own (js "page") (page_q 1 "a") = Some (VNum (number_of_Z 1)))
  /\ get_own (js "page")
       (own (reconciled (page_q 1 "a") default_options
               (Some {| location := Href (page_at (js "/p") (js "x=1&page=7&y=2&z=3"));
                        has_addEventListener := true |})))
     = Some (VNum (number_of_Z 7)).
Proof.
  split; [repeat split; try reflexivity; discriminate|].
  rewrite (initial_state_of_schema_key (page_q 1 "a") default_options
             (page_at (js "/p") (js "x=1&page=7&y=2&z=3")) true
             (js "page") (VNum (number_of_Z 1)));
    [vm_compute; reflexivity | reflexivity | reflexivity | reflexivity | discriminate
    | reflexivity].
Defined.

Lemma Object_assign_no_own_proto target source :
  get_own proto_key (own target) = None ->
  get_own proto_key (own source) = None ->
  get_own proto_key (own (Object_assign target source)) = None.
Proof.
  unfold Object_assign. revert target.
  induction (own source) as [|[k0 v0] props IH]; intros target Ht Hs; [exact Ht|].
  cbn [fold_left fst snd]. cbn [get_own] in Hs. case_streqb k0 proto_key; [discriminate|].
  apply IH; [|exact Hs]. rewrite get_own_set_other by congruence. exact Ht.
Qed.

Lemma In_keys_filter_passes keep k (p : URLSearchParams) :
  In k (usp_keys (filter (passes keep) p)) -> keep k = true /\ In k (usp_keys p).
Proof.
  unfold usp_keys. rewrite !in_map_iff. intros [kv [<- Hin]].
  apply filter_In in Hin as [Hin Hkeep]. split; [exact Hkeep | now exists kv].
Qed.

(** X13: When the loop that deletes foreign keys has only one foreign name to
    delete, no name of the URL is a name inherited from [Object.prototype]
    without being a key of the defaults, and the defaults have no key
    [__proto__], the state of the first render has exactly the keys of the
    defaults. *)
Theorem initial_state_has_the_keys_of_the_defaults
    (initialValue : literal) (options : UseQueryStringStateOptions)
    (url : URL) (listen : bool) (k0 : jsstring)
    (Hcodec : queryString options = None)
    (Hquery : forallb is_code_unit (query url) = true)
    (Hkeys : no_dup_keys (map fst initialValue) = true)
    (Hone : forall kv, In kv (URL_searchParams url) ->
              has_property (fst kv) initialValue = false -> fst kv = k0)
    (Hinherited : forall kv, In kv (URL_searchParams url) ->
                    get_own (fst kv) initialValue = None ->
                    has_property (fst kv) initialValue = false)
    (Hproto : get_own proto_key initialValue = None) :
  forall k,
    get_own k
      (own (reconciled initialValue options
              (Some {| location := Href url; has_addEventListener := listen |}))) = None
    <-> get_own k initialValue = None.
Proof.
  intros k. rewrite reconciled_default by exact Hcodec.
  case_streqb k proto_key.
  - subst k. split; intros _; [exact Hproto|].
    apply Object_assign_no_own_proto; [|apply parseQueryString_shape].
    now apply Object_assign_no_own_proto.
  - rename E into Hk.
    destruct (parsed_filtered_url initialValue url k Hquery Hk) as [Hnd Hget].
    cbv zeta in Hnd, Hget.
    rewrite get_own_Object_assign; [|exact Hk | now apply no_dup_keys_NoDup].
    rewrite Hget, get_own_defaults_copy by assumption.
    destruct (existsb (streqb k) (usp_keys _)) eqn:E; [|tauto].
    split; [discriminate|]. intros Hnone. exfalso.
    apply existsb_streqb in E. unfold delete_foreign_keys in E.
    rewrite (delete_while_iterating_one_foreign_name
               (fun k => has_property k initialValue) k0 _ [] (URL_searchParams url))
      in E by (solve [cbn [List.length]; lia | reflexivity | exact Hone]).
    cbn [app] in E. apply In_keys_filter_passes in E as [Hkeep Hin].
    unfold usp_keys in Hin. apply in_map_iff in Hin as [kv [Hkv Hin]]. subst k.
    rewrite (Hinherited kv Hin Hnone) in Hkeep. discriminate.
Qed.

Lemma initial_state_has_the_keys_of_the_defaults_witness :
  get_own (js "x")
    (own (reconciled (page_q 1 "a") default_options
            (Some {| location := Href (page_at (js "/p") (js "x=1&page=7&x=2"));
                     has_addEventListener := true |}))) = None
  <-> get_own (js "x") (page_q 1 "a") = None.
Proof.
  apply (initial_state_has_the_keys_of_the_defaults (page_q 1 "a") default_options
           (page_at (js "/p") (js "x=1&page=7&x=2")) true (js "x"));
    try reflexivity.
  - intros kv Hin Hp. vm_compute in Hin.
    destruct Hin as [<- | [<- | [<- | []]]]; [reflexivity | discriminate Hp | reflexivity].
  - intros kv Hin Hp. vm_compute in Hin.
    destruct Hin as [<- | [<- | [<- | []]]]; [reflexivity | discriminate Hp | reflexivity].
Defined.

(** ** [setState] with a pathname delegate *)

(** X15: With a pathname delegate the hook never touches the history: the
    location is as before and no [pushState] is among the events. *)
Theorem setState_with_delegate_keeps_location
    (initialValue : literal) (options : UseQueryStringStateOptions)
    (value : SetStateAction) (s : session)
    (Hdelegate : onPathnameChange options = true) :
  window (fst (setState initialValue options value s)) = window s
  /\ exists evs,
       events (fst (setState initialValue options value s)) = events s ++ evs
       /\ forall resultUrl, ~ In (PushState resultUrl) evs.
Proof.
  unfold setState, setState_of, bind, get_state, _setState, get_window, lift, ret, emit.
  rewrite Hdelegate.
  destruct s as [st w evs]. cbn [state window events fst snd].
  set (payload := match value with RESET => lit initialValue | Updater f => f st | Value v => v end).
  assert (Hobs : forall resultUrl,
             ~ In (PushState resultUrl)
                 (if onValueChange options then [ValueChange payload] else []))
    by (intros u; destruct (onValueChange options); cbn; intuition discriminate).
  destruct (onValueChange options); cbn [state window events fst snd];
    (destruct w as [[[|url] listen]|]; cbn [location isValidUrl new_URL fst snd state window events];
     [ | destruct (parse _ _) as [parsed|e]; cbn [fst snd state window events];
         [ destruct (stringify _ _) as [q|e]; cbn [fst snd state window events] | ] | ]);
    (split; [reflexivity|]);
    try (eexists; split; [rewrite <- ?app_assoc; reflexivity|];
         intros u; cbn; intuition discriminate);
    try (exists []; split; [now rewrite app_nil_r | intros u []]).
Qed.

Lemma setState_with_delegate_keeps_location_witness :
  let options := {| onValueChange := true; onPathnameChange := true;
                    queryString := None; isSyncPathname := None |} in
  let s := mount (page 1) options (browser_at (js "/p") (js "page=2")) in
  onPathnameChange options = true
  /\ window (fst (setState (page 1) options (Value (lit (page 3))) s)) = window s.
Proof.
  cbv zeta. split; [reflexivity|].
  apply (setState_with_delegate_keeps_location (page 1)
           {| onValueChange := true; onPathnameChange := true;
              queryString := None; isSyncPathname := None |}).
  reflexivity.
Defined.

(** ** From a query string to a mapping and back *)

Lemma new_URLSearchParams_well_formed q :
  forallb is_code_unit q = true -> pairs_well_formed (new_URLSearchParams q) = true.
Proof.
  intros H. unfold new_URLSearchParams.
  apply urlencoded_parse_well_formed, utf8_bytes_bytes.
  destruct q as [|c q]; [reflexivity|]. destruct (c =? 63); [|exact H].
  cbn [forallb] in H. now apply andb_true_iff in H as [_ H].
Qed.

Lemma emitted_texts_parsed_value p schema k :
  emitted_texts (parsed_value p schema k)
  = match get_own k schema, usp_getAll k p with
    | Some (VNum _), [s] => [ToString (toNumberable (VStr s))]
    | _, l => l
    end.
Proof.
  unfold parsed_value. rewrite numeric_default_own.
  unfold usp_get_value, usp_get.
  destruct (usp_getAll k p) as [|s [|s' l]] eqn:Eall.
  - cbn [List.length Z.of_nat Z.ltb Z.compare hd_error].
    destruct (get_own k schema) as [[]|]; reflexivity.
  - cbn [List.length Z.of_nat Z.ltb Z.compare hd_error].
    destruct (get_own k schema) as [[]|]; try reflexivity.
    cbn [toNumberable]. destruct (isNumber (VStr s)); reflexivity.
  - replace (1 <? Z.of_nat (List.length (s :: s' :: l))) with true
      by (symmetry; apply Z.ltb_lt; cbn [List.length]; lia).
    unfold emitted_texts. rewrite emitted_pairs_of_strings, map_map. cbn [snd].
    rewrite map_id. destruct (get_own k schema) as [[]|]; reflexivity.
Qed.

(** X7: Parsing a query string and writing the result again keeps, under
    every name other than [__proto__], the values of the name in their
    order; only a single value under a numeric default is replaced by the
    text of the number it denotes. The name [__proto__] is dropped. *)
Theorem parse_then_stringify_keeps_values (q : jsstring) (initialValue : literal)
    (Hq : forallb is_code_unit q = true) :
  exists q',
    stringifyQueryString (parseQueryString q initialValue) = Ok q'
    /\ usp_getAll proto_key (new_URLSearchParams q') = []
    /\ forall k, k <> proto_key ->
         usp_getAll k (new_URLSearchParams q')
         = match get_own k initialValue, usp_getAll k (new_URLSearchParams q) with
           | Some (VNum _), [s] => [ToString (toNumberable (VStr s))]
           | _, l => l
           end.
Proof.
  pose proof (new_URLSearchParams_well_formed q Hq) as Hwf.
  set (p := new_URLSearchParams q) in *.
  set (parsed := parseQueryString q initialValue).
  assert (Hentries : forallb entry_well_formed (own parsed) = true).
  { unfold parsed. rewrite parseQueryString_assign. fold p.
    apply assign_keys_preserves; [|reflexivity].
    intros k Hk. apply parsed_value_well_formed; [exact Hwf | now apply In_unique]. }
  assert (Hdup : no_dup_keys (map fst (own parsed)) = true).
  { apply no_dup_keys_NoDup. unfold parsed. rewrite parseQueryString_assign.
    apply assign_keys_NoDup. constructor. }
  assert (Hpairs : pairs_well_formed (emitted_pairs (own parsed)) = true)
    by now rewrite pairs_well_formed_entries.
  exists (Array_join [38] (flat_map rendered_entry (own parsed))). repeat split.
  - rewrite stringifyQueryString_spec. unfold emits_encodable.
    now rewrite well_formed_encodable.
  - rewrite rendered_read_back by exact Hpairs.
    apply usp_getAll_emitted_absent, parseQueryString_shape.
  - intros k Hk. rewrite rendered_read_back by exact Hpairs.
    rewrite usp_getAll_emitted by exact Hdup.
    unfold parsed. rewrite parseQueryString_own by exact Hk. fold p.
    destruct (existsb (streqb k) (usp_keys p)) eqn:E.
    + apply emitted_texts_parsed_value.
    + destruct (usp_getAll k p) eqn:Eall.
      * destruct (get_own k initialValue) as [[]|]; reflexivity.
      * assert (Hin : In k (usp_keys p)) by (apply usp_getAll_keys; congruence).
        apply (proj2 (existsb_streqb _ _)) in Hin. congruence.
Qed.

Lemma parse_then_stringify_keeps_values_witness :
  forallb is_code_unit (js "page=1.0&q=a%26&__proto__=z&q=b") = true
  /\ exists q',
       stringifyQueryString (parseQueryString (js "page=1.0&q=a%26&__proto__=z&q=b")
                               (page_q 1 "")) = Ok q'
       /\ usp_getAll (js "q") (new_URLSearchParams q') = [js "a&"; js "b"]
       /\ usp_getAll (js "page") (new_URLSearchParams q') = [js "1"].
Proof.
  split; [reflexivity|].
  destruct (parse_then_stringify_keeps_values (js "page=1.0&q=a%26&__proto__=z&q=b")
              (page_q 1 "") eq_refl) as (q' & Hstr & _ & Hall).
  exists q'. split; [exact Hstr|]. split.
  - rewrite (Hall (js "q")) by discriminate. vm_compute. reflexivity.
  - rewrite (Hall (js "page")) by discriminate. vm_compute. reflexivity.
Defined.

(** ** Coercion to numbers *)

Lemma value_nested_ind (P : value -> Prop) :
  P VUndefined -> P VNull -> (forall b, P (VBool b)) -> (forall n, P (VNum n)) ->
  (forall s, P (VStr s)) ->
  (forall items, Forall P items -> P (VArr items)) ->
  forall v, P v.
Proof.
  intros Hu Hn Hb Hnum Hs Harr. fix IH 1.
  intros [| |b|n|s|items]; [exact Hu | exact Hn | apply Hb | apply Hnum | apply Hs |].
  apply Harr. induction items as [|i items IHitems]; constructor; [apply IH | exact IHitems].
Qed.

(** X5: [toNumberable] is idempotent: a second pass finds nothing more to
    convert, also inside nested arrays. *)
Theorem toNumberable_idempotent (v : value) :
  toNumberable (toNumberable v) = toNumberable v.
Proof.
  induction v as [| |b|n|s|items IH] using value_nested_ind; try reflexivity.
  - cbn [toNumberable]. destruct (isNumber (VStr s)) eqn:E; [reflexivity|].
    cbn [toNumberable]. now rewrite E.
  - cbn [toNumberable]. f_equal. rewrite map_map.
    induction IH as [|i items Hi _ IHitems]; [reflexivity|].
    cbn [map]. now rewrite Hi, IHitems.
Qed.

(** * [setState] and the history *)

(** ** What [history.pushState] makes of the URL that [setState] writes *)

Lemma to_usv_ascii s : forallb is_ascii s = true -> to_usv s = s.
Proof.
  intros H. unfold to_usv. rewrite ascii_code_points by exact H.
  induction s as [|c s IH]; [reflexivity|].
  cbn [forallb] in H. apply andb_true_iff in H as [Hc H].
  cbn [map]. rewrite IH by exact H. f_equal.
  unfold is_ascii in Hc. unfold is_surrogate.
  destruct (0xD800 <=? c) eqn:E; [|reflexivity].
  apply andb_true_iff in Hc as [_ Hc]. apply Z.ltb_lt in Hc. apply Z.leb_le in E. lia.
Qed.

Lemma is_visible_range c : is_visible c = true <-> 0x21 <= c <= 0x7E.
Proof. unfold is_visible. rewrite andb_true_iff, !Z.leb_le. tauto. Qed.

Lemma forallb_impl {A} (P Q : A -> bool) l :
  (forall a, P a = true -> Q a = true) -> forallb P l = true -> forallb Q l = true.
Proof.
  intros HPQ. rewrite !forallb_forall. intros H a Ha. apply HPQ, H, Ha.
Qed.

Lemma filter_all {A} (f : A -> bool) l : forallb f l = true -> filter f l = l.
Proof.
  induction l as [|a l IH]; intros H; [reflexivity|].
  cbn [forallb] in H. apply andb_true_iff in H as [Ha H].
  cbn [filter]. now rewrite Ha, IH.
Qed.

Lemma strip_leading_visible s : forallb is_visible s = true -> strip_leading s = s.
Proof.
  destruct s as [|c s]; [reflexivity|]. cbn [forallb strip_leading]. intros H.
  apply andb_true_iff in H as [Hc _]. apply is_visible_range in Hc.
  destruct (c <=? 0x20) eqn:E; [apply Z.leb_le in E; lia | reflexivity].
Qed.

Lemma url_input_visible s : forallb is_visible s = true -> url_input s = s.
Proof.
  intros H. unfold url_input.
  rewrite to_usv_ascii.
  - rewrite (strip_leading_visible s H).
    rewrite strip_leading_visible, rev_involutive.
    + apply filter_all. revert H. apply forallb_impl. intros c Hc.
      apply is_visible_range in Hc. cbn [existsb].
      destruct (c =? 9) eqn:E9; [apply Z.eqb_eq in E9; lia|].
      destruct (c =? 10) eqn:E10; [apply Z.eqb_eq in E10; lia|].
      destruct (c =? 13) eqn:E13; [apply Z.eqb_eq in E13; lia | reflexivity].
    + rewrite forallb_forall in *. intros c Hc. apply H. now apply in_rev.
  - revert H. apply forallb_impl. intros c Hc. apply is_visible_range in Hc.
    unfold is_ascii. zbool_goal; lia.
Qed.

Lemma is_path_unit_range c :
  is_path_unit c = true -> 0x21 <= c <= 0x7E /\ c <> 35 /\ c <> 63 /\ c <> 92.
Proof.
  unfold is_path_unit. cbn [existsb]. intros H.
  apply andb_true_iff in H as [H Hn]. apply andb_true_iff in H as [H1 H2].
  apply Z.leb_le in H1, H2. apply negb_true_iff in Hn.
  apply orb_false_iff in Hn as [H35 Hn]. apply orb_false_iff in Hn as [H63 Hn].
  apply orb_false_iff in Hn as [H92 _].
  apply Z.eqb_neq in H35, H63, H92. lia.
Qed.

Lemma same_site_path_units p :
  is_same_site_path p = true ->
  exists rest, p = 47 :: rest /\ forallb is_path_unit rest = true
               /\ match rest with c :: _ => is_slash c | [] => false end = false.
Proof.
  destruct p as [|c rest]; [discriminate|]. cbn [is_same_site_path]. intros H.
  apply andb_true_iff in H as [H Hunits]. apply andb_true_iff in H as [Hc Hsecond].
  apply Z.eqb_eq in Hc. subst c. exists rest. repeat split; [exact Hunits|].
  destruct rest as [|c' rest']; [reflexivity|].
  cbn [forallb] in Hunits. apply andb_true_iff in Hunits as [Hc' _].
  apply is_path_unit_range in Hc'. apply negb_true_iff in Hsecond.
  unfold is_slash. rewrite Hsecond.
  destruct (c' =? 92) eqn:E; [apply Z.eqb_eq in E; lia | reflexivity].
Qed.

Lemma is_uri_char_range c : is_uri_char c = true -> 0x21 <= c <= 0x7E /\ c <> 35 /\ c <> 63.
Proof.
  unfold is_uri_char. cbn [existsb]. intros H.
  apply orb_true_iff in H as [H|H].
  - unfold uri_unescaped in H. cbn [existsb] in H.
    apply orb_true_iff in H as [H|H]; [apply is_alnum_range in H; lia|].
    zcases; try discriminate; lia.
  - zcases; try discriminate; lia.
Qed.

Lemma url_query_encode_uri_chars q :
  forallb is_uri_char q = true -> url_query_encode q = flat_map escape_apostrophe q.
Proof.
  induction q as [|c q IH]; intros H; [reflexivity|].
  cbn [forallb] in H. apply andb_true_iff in H as [Hc H].
  unfold url_query_encode in *. cbn [flat_map]. rewrite IH by exact H. f_equal.
  unfold escape_apostrophe. destruct (c =? 39) eqn:E39.
  - apply Z.eqb_eq in E39. subst c. reflexivity.
  - replace (in_special_query_set c) with false; [reflexivity|].
    symmetry. unfold in_special_query_set. cbn [existsb]. rewrite E39.
    pose proof (is_uri_char_range c Hc) as (Hr & H35 & _).
    assert (H34 : c <> 34 /\ c <> 60 /\ c <> 62).
    { unfold is_uri_char in Hc. cbn [existsb] in Hc.
      apply orb_true_iff in Hc as [Hc|Hc].
      - unfold uri_unescaped in Hc. cbn [existsb] in Hc.
        apply orb_true_iff in Hc as [Hc|Hc]; [apply is_alnum_range in Hc; lia|].
        zcases; try discriminate; lia.
      - zcases; try discriminate; lia. }
    destruct (c <=? 32) eqn:E1; [apply Z.leb_le in E1; lia|].
    destruct (126 <? c) eqn:E2; [apply Z.ltb_lt in E2; lia|].
    destruct (c =? 34) eqn:E3; [apply Z.eqb_eq in E3; lia|].
    destruct (c =? 35) eqn:E4; [apply Z.eqb_eq in E4; lia|].
    destruct (c =? 60) eqn:E5; [apply Z.eqb_eq in E5; lia|].
    destruct (c =? 62) eqn:E6; [apply Z.eqb_eq in E6; lia | reflexivity].
Qed.

(** ** The apostrophe that the URL parser escapes is read back *)

Lemma escape_cons c s :
  flat_map escape_apostrophe (c :: s) = escape_apostrophe c ++ flat_map escape_apostrophe s.
Proof. reflexivity. Qed.

Lemma escape_other c : c <> 39 -> escape_apostrophe c = [c].
Proof.
  intros H. unfold escape_apostrophe.
  destruct (c =? 39) eqn:E; [apply Z.eqb_eq in E; contradiction | reflexivity].
Qed.

Lemma escape_39 : escape_apostrophe 39 = [37; 50; 55].
Proof. reflexivity. Qed.

Lemma percent_decode_escape_bounded : forall n y,
  (List.length y <= n)%nat ->
  percent_decode (flat_map escape_apostrophe y) = percent_decode y.
Proof.
  induction n as [|n IH]; intros y Hlen.
  - destruct y; [reflexivity | cbn [List.length] in Hlen; lia].
  - destruct y as [|b rest]; [reflexivity|]. cbn [List.length] in Hlen.
    assert (IHrest : percent_decode (flat_map escape_apostrophe rest) = percent_decode rest)
      by (apply IH; lia).
    rewrite escape_cons.
    destruct (Z.eq_dec b 39) as [->|Hb].
    { rewrite escape_39. cbn [app percent_decode Z.eqb Pos.eqb hex_value]. cbn.
      now rewrite IHrest. }
    rewrite escape_other by exact Hb. cbn [app].
    destruct (b =? 37) eqn:Eb; [|cbn [percent_decode]; now rewrite Eb, IHrest].
    apply Z.eqb_eq in Eb. subst b.
    destruct rest as [|h rest1].
    { reflexivity. }
    destruct (Z.eq_dec h 39) as [->|Hh].
    { (* the digit place holds an apostrophe: the percent sign is literal *)
      rewrite escape_cons, escape_39 in *. cbn [app] in *.
      change (percent_decode (37 :: 37 :: 50 :: 55 :: flat_map escape_apostrophe rest1))
        with (37 :: percent_decode (37 :: 50 :: 55 :: flat_map escape_apostrophe rest1)).
      rewrite IHrest.
      destruct rest1 as [|l rest2]; reflexivity. }
    rewrite escape_cons, escape_other in * by exact Hh. cbn [app] in *.
    destruct rest1 as [|l rest2].
    { reflexivity. }
    cbn [List.length] in Hlen.
    destruct (Z.eq_dec l 39) as [->|Hl].
    { rewrite escape_cons, escape_39 in *. cbn [app] in *.
      cbn [percent_decode Z.eqb Pos.eqb] in *.
      replace (hex_value 37) with (@None Z) in * by reflexivity.
      replace (hex_value 39) with (@None Z) by reflexivity.
      destruct (hex_value h); now rewrite IHrest. }
    rewrite escape_cons, escape_other in * by exact Hl. cbn [app] in *.
    cbn [percent_decode Z.eqb Pos.eqb] in *.
    destruct (hex_value h), (hex_value l); try (now rewrite IHrest).
    f_equal. apply IH. lia.
Qed.

Lemma percent_decode_escape y :
  percent_decode (flat_map escape_apostrophe y) = percent_decode y.
Proof. now apply (percent_decode_escape_bounded (List.length y)). Qed.

Lemma plus_to_space_escape s :
  plus_to_space (flat_map escape_apostrophe s) = flat_map escape_apostrophe (plus_to_space s).
Proof.
  unfold plus_to_space. induction s as [|c s IH]; [reflexivity|].
  rewrite escape_cons, map_app, IH. cbn [map]. rewrite escape_cons. f_equal.
  destruct (Z.eq_dec c 39) as [->|Hc]; [reflexivity|].
  rewrite escape_other by exact Hc. cbn [map].
  destruct (c =? 43) eqn:E; [reflexivity | now rewrite escape_other].
Qed.

Lemma urlencoded_decode_escape s :
  urlencoded_decode (flat_map escape_apostrophe s) = urlencoded_decode s.
Proof.
  unfold urlencoded_decode. now rewrite plus_to_space_escape, percent_decode_escape.
Qed.

Lemma split_on_escape s :
  split_on 38 (flat_map escape_apostrophe s)
  = map (flat_map escape_apostrophe) (split_on 38 s).
Proof.
  induction s as [|c s IH]; [reflexivity|].
  rewrite escape_cons.
  destruct (Z.eq_dec c 39) as [->|Hc].
  - rewrite escape_39. cbn [app split_on Z.eqb Pos.eqb]. rewrite IH.
    destruct (split_on 38 s) as [|seg segs]; reflexivity.
  - rewrite escape_other by exact Hc. cbn [app split_on].
    destruct (c =? 38) eqn:E; rewrite IH.
    + reflexivity.
    + destruct (split_on 38 s) as [|seg segs]; cbn [map]; rewrite ?escape_cons,
        ?escape_other by exact Hc; reflexivity.
Qed.

Lemma split_first_escape s :
  split_first 61 (flat_map escape_apostrophe s)
  = match split_first 61 s with
    | Some (a, b) => Some (flat_map escape_apostrophe a, flat_map escape_apostrophe b)
    | None => None
    end.
Proof.
  induction s as [|c s IH]; [reflexivity|].
  rewrite escape_cons.
  destruct (Z.eq_dec c 39) as [->|Hc].
  - rewrite escape_39. cbn [app split_first Z.eqb Pos.eqb]. rewrite IH.
    destruct (split_first 61 s) as [[a b]|]; reflexivity.
  - rewrite escape_other by exact Hc. cbn [app split_first].
    destruct (c =? 61) eqn:E; [reflexivity|]. rewrite IH.
    destruct (split_first 61 s) as [[a b]|]; [|reflexivity].
    now rewrite escape_cons, escape_other by exact Hc.
Qed.

Lemma urlencoded_parse_sequence_escape seg :
  urlencoded_parse_sequence (flat_map escape_apostrophe seg) = urlencoded_parse_sequence seg.
Proof.
  unfold urlencoded_parse_sequence.
  destruct seg as [|c seg]; [reflexivity|].
  remember (flat_map escape_apostrophe (c :: seg)) as e eqn:He.
  destruct e as [|c' rest'].
  - exfalso. rewrite escape_cons in He. unfold escape_apostrophe in He.
    destruct (c =? 39); discriminate.
  - rewrite He, split_first_escape.
    destruct (split_first 61 (c :: seg)) as [[a b]|]; now rewrite !urlencoded_decode_escape.
Qed.

Lemma urlencoded_parse_escape s :
  urlencoded_parse (flat_map escape_apostrophe s) = urlencoded_parse s.
Proof.
  unfold urlencoded_parse. rewrite split_on_escape.
  induction (split_on 38 s) as [|seg segs IH]; [reflexivity|].
  cbn [map flat_map]. now rewrite urlencoded_parse_sequence_escape, IH.
Qed.

(** ** A result URL on the host of the page *)

Lemma split_first_free sep s : free_of sep s = true -> split_first sep s = None.
Proof.
  unfold free_of. induction s as [|c s IH]; intros H; [reflexivity|].
  cbn [forallb] in H. apply andb_true_iff in H as [Hc H].
  apply negb_true_iff in Hc. cbn [split_first]. now rewrite Hc, IH.
Qed.

Lemma path_units_visible p :
  forallb is_path_unit p = true ->
  forallb is_visible p = true /\ free_of 35 p = true /\ free_of 63 p = true.
Proof.
  intros H. unfold free_of. repeat split; revert H; apply forallb_impl; intros c Hc;
    apply is_path_unit_range in Hc.
  - apply is_visible_range. lia.
  - apply negb_true_iff, Z.eqb_neq. lia.
  - apply negb_true_iff, Z.eqb_neq. lia.
Qed.

Lemma uri_chars_visible q :
  forallb is_uri_char q = true ->
  forallb is_visible q = true /\ free_of 35 q = true.
Proof.
  intros H. unfold free_of. split; revert H; apply forallb_impl; intros c Hc;
    apply is_uri_char_range in Hc.
  - apply is_visible_range. lia.
  - apply negb_true_iff, Z.eqb_neq. lia.
Qed.

Lemma escaped_uri_chars_units q :
  forallb is_uri_char q = true ->
  forallb is_code_unit (flat_map escape_apostrophe q) = true.
Proof.
  induction q as [|c q IH]; intros H; [reflexivity|].
  cbn [forallb] in H. apply andb_true_iff in H as [Hc H].
  rewrite escape_cons, forallb_app, IH by exact H. rewrite andb_true_r.
  apply is_uri_char_range in Hc. unfold escape_apostrophe.
  destruct (c =? 39); [reflexivity|]. cbn [forallb]. rewrite andb_true_r.
  unfold is_code_unit. zbool_goal; lia.
Qed.

(** A path of the page that starts with one slash, [?] and a query string
    made by [encodeURIComponent] resolve to that path on the host of the
    page, with the apostrophes of the query escaped. *)
Lemma resolve_same_site base p q :
  is_same_site_path p = true -> forallb is_uri_char q = true ->
  resolve_URL base (p ++ 63 :: q)
  = Some {| pathname := p; query := flat_map escape_apostrophe q;
            names_own_host := names_own_host base |}.
Proof.
  intros Hp Hq.
  destruct (same_site_path_units p Hp) as (rest & -> & Hunits & Hsecond).
  destruct (path_units_visible rest Hunits) as (Hvis & H35 & H63).
  destruct (uri_chars_visible q Hq) as (Hqvis & Hq35).
  assert (Hpath35 : free_of 35 (47 :: rest) = true) by (unfold free_of in *; cbn [forallb]; exact H35).
  assert (Hpath63 : free_of 63 (47 :: rest) = true) by (unfold free_of in *; cbn [forallb]; exact H63).
  unfold resolve_URL.
  rewrite url_input_visible
    by (rewrite forallb_app; cbn [forallb]; now rewrite Hvis, Hqvis).
  rewrite (split_first_free 35 ((47 :: rest) ++ 63 :: q))
    by (unfold free_of in *; rewrite forallb_app; cbn [forallb] in *; now rewrite H35, Hq35).
  rewrite (split_first_app 63 (47 :: rest) q) by exact Hpath63.
  cbn [fst snd]. rewrite url_query_encode_uri_chars by exact Hq.
  change (is_slash 47) with true. cbv iota. rewrite Hsecond. reflexivity.
Qed.

Lemma pushState_same_site s url listen q :
  window s = Some {| location := Href url; has_addEventListener := listen |} ->
  is_same_site_path (pathname url) = true -> forallb is_uri_char q = true ->
  pushState (pathname url ++ 63 :: q) s
  = ({| state := state s;
        window := Some {| location := Href {| pathname := pathname url;
                                              query := flat_map escape_apostrophe q;
                                              names_own_host := names_own_host url |};
                          has_addEventListener := listen |};
        events := events s ++ [PushState (pathname url ++ 63 :: q)] |}, Ok tt).
Proof.
  intros Hw Hp Hq. unfold pushState. rewrite Hw. cbn [location has_addEventListener].
  now rewrite resolve_same_site.
Qed.

(** ** What [setState] runs with the default codec *)

Lemma setState_fresh initialValue options value s :
  setState initialValue options value s = setState_of initialValue options (state s) value s.
Proof. reflexivity. Qed.

(** With the default codec at a URL, for a new state whose texts are
    well-formed: the state is stored, the observer told, and the path, [?]
    and the query string of the state laid over what the URL parses to are
    handed to the delegate or to [history.pushState]. *)
Lemma setState_of_default_run initialValue options captured value s url listen :
  queryString options = None ->
  window s = Some {| location := Href url; has_addEventListener := listen |} ->
  forallb is_code_unit (query url) = true ->
  pairs_well_formed
    (emitted_pairs (own (next_state initialValue value captured))) = true ->
  exists q,
    setState_of initialValue options captured value s
    = ((if onPathnameChange options then emit (PathnameChange (pathname url ++ 63 :: q))
        else pushState (pathname url ++ 63 :: q))
         {| state := next_state initialValue value captured; window := window s;
            events := events s
                      ++ (if onValueChange options
                          then [ValueChange (next_state initialValue value captured)]
                          else []) |})
    /\ forallb is_uri_char q = true
    /\ new_URLSearchParams q
       = emitted_pairs
           (own (merged_mapping initialValue url (next_state initialValue value captured)))
    /\ NoDup (keys (merged_mapping initialValue url
                      (next_state initialValue value captured))).
Proof.
  intros Hcodec Hwindow Hquery Htexts.
  set (payload := next_state initialValue value captured) in *.
  destruct (parsed_current_url initialValue url Hquery) as (Hpwf & Hpdup & _).
  unfold merged_mapping.
  set (parsed := parseQueryString (usp_toString (URL_searchParams url)) initialValue) in *.
  set (merged := Object_assign parsed payload).
  assert (Hmwf : pairs_well_formed (emitted_pairs (own merged)) = true).
  { rewrite pairs_well_formed_entries in *. now apply Object_assign_preserves. }
  assert (Hstr : stringifyQueryString merged
                 = Ok (Array_join [38] (flat_map rendered_entry (own merged)))).
  { rewrite stringifyQueryString_spec. unfold emits_encodable.
    now rewrite well_formed_encodable. }
  exists (Array_join [38] (flat_map rendered_entry (own merged))). repeat split.
  - unfold setState_of, bind, _setState, get_window, lift, queryString_of.
    rewrite Hcodec. cbn [parse stringify createQueryString].
    change (match value with
            | Value v => v
            | Updater f => f captured
            | RESET => lit initialValue
            end) with payload.
    destruct (onValueChange options); unfold emit, ret; cbn [state window events];
      rewrite Hwindow; cbn [location isValidUrl new_URL];
      fold parsed; fold merged; rewrite Hstr; rewrite ?app_nil_r;
      reflexivity.
  - rewrite Array_join_rendered. apply join_uri_chars, rendered_items_uri_chars.
    now rewrite <- emitted_pairs_items.
  - now apply rendered_read_back.
  - now apply Object_assign_NoDup.
Qed.

(** ** The URL [setState] writes *)

(** C9, as amended: with the default codec, a location that is a URL, a
    state of distinct keys whose texts are well-formed, and either a
    pathname delegate or a path of the page that starts with one slash and
    not with two (so that [history.pushState] takes the result for a URL on
    the host of the page), [setState(state)] returns, sets the state, tells
    the observer, and writes once (by the delegate or [history.pushState])
    the path, [?] and a query string in which every key of the state other
    than [__proto__] has the texts of its value (one pair for a scalar, one
    for each element that is not null of an array, none for null or
    undefined), and every other key that the defaults do not have keeps the
    values it has in the current URL. *)
Theorem setState_writes_state_and_keeps_foreign_keys
    (initialValue : literal) (options : UseQueryStringStateOptions) (s : session)
    (url : URL) (listen : bool) (st : obj)
    (Hcodec : queryString options = None)
    (Hwindow : window s = Some {| location := Href url; has_addEventListener := listen |})
    (Hquery : forallb is_code_unit (query url) = true)
    (Hkeys : no_dup_keys (keys st) = true)
    (Htexts : pairs_well_formed (emitted_pairs (own st)) = true)
    (Hpath : onPathnameChange options = true \/ is_same_site_path (pathname url) = true) :
  exists searchParams,
    snd (setState initialValue options (Value st) s) = Ok tt
    /\ state (fst (setState initialValue options (Value st) s)) = st
    /\ events (fst (setState initialValue options (Value st) s))
       = events s ++ (if onValueChange options then [ValueChange st] else [])
                  ++ [url_write options (pathname url ++ 63 :: searchParams)]
    /\ (forall k v, k <> proto_key -> get_own k (own st) = Some v ->
          usp_getAll k (new_URLSearchParams searchParams) = emitted_texts v)
    /\ (forall k, k <> proto_key -> get_own k (own st) = None ->
          get_own k initialValue = None ->
          usp_getAll k (new_URLSearchParams searchParams)
          = usp_getAll k (URL_searchParams url)).
Proof.
  destruct (setState_of_default_run initialValue options (state s) (Value st) s url listen
              Hcodec Hwindow Hquery Htexts) as (q & Hrun & Hchars & Hback & Hmdup).
  cbn [next_state] in Hrun, Hback, Hmdup.
  destruct (parsed_current_url initialValue url Hquery) as (_ & _ & Hpown).
  apply no_dup_keys_NoDup in Hmdup.
  exists q. rewrite setState_fresh, Hrun. unfold url_write.
  assert (Hwrite :
    forall after, window after = window s ->
      snd ((if onPathnameChange options then emit (PathnameChange (pathname url ++ 63 :: q))
            else pushState (pathname url ++ 63 :: q)) after) = Ok tt
      /\ state (fst ((if onPathnameChange options
                      then emit (PathnameChange (pathname url ++ 63 :: q))
                      else pushState (pathname url ++ 63 :: q)) after)) = state after
      /\ events (fst ((if onPathnameChange options
                       then emit (PathnameChange (pathname url ++ 63 :: q))
                       else pushState (pathname url ++ 63 :: q)) after))
         = events after
           ++ [if onPathnameChange options then PathnameChange (pathname url ++ 63 :: q)
               else PushState (pathname url ++ 63 :: q)]).
  { intros after Hafter. destruct (onPathnameChange options) eqn:Hdelegate.
    - repeat split.
    - destruct Hpath as [Hpath|Hpath]; [discriminate|].
      rewrite (pushState_same_site after url listen q) by congruence.
      repeat split. }
  destruct (Hwrite {| state := st; window := window s;
                      events := events s
                                ++ (if onValueChange options then [ValueChange st] else []) |}
              eq_refl) as (Hok & Hst & Hev).
  repeat split.
  - exact Hok.
  - exact Hst.
  - rewrite Hev. cbn [events]. now rewrite <- app_assoc.
  - intros k v Hk Hget. rewrite Hback, usp_getAll_emitted by exact Hmdup.
    unfold merged_mapping. rewrite get_own_Object_assign, Hget by assumption. reflexivity.
  - intros k Hk Hget Hforeign. rewrite Hback, usp_getAll_emitted by exact Hmdup.
    unfold merged_mapping. rewrite get_own_Object_assign, Hget, Hpown by assumption.
    destruct (existsb (streqb k) (usp_keys (URL_searchParams url))) eqn:Ein.
    + apply existsb_streqb, usp_getAll_keys in Ein. now apply emitted_texts_foreign.
    + destruct (usp_getAll k (URL_searchParams url)) eqn:Eall; [reflexivity|].
      assert (Hin : In k (usp_keys (URL_searchParams url)))
        by (apply usp_getAll_keys; congruence).
      apply (proj2 (existsb_streqb _ _)) in Hin. congruence.
Qed.

Lemma setState_writes_state_and_keeps_foreign_keys_witness :
  (queryString default_options = None
   /\ forallb is_code_unit (js "page=2&ref=abc") = true
   /\ no_dup_keys (keys (lit (page_q 3 "hello"))) = true
   /\ pairs_well_formed (emitted_pairs (page_q 3 "hello")) = true
   /\ is_same_site_path (js "/p") = true)
  /\ exists searchParams,
       events (fst (setState (page_q 1 "") default_options (Value (lit (page_q 3 "hello")))
                      (mount (page_q 1 "") default_options
                         (browser_at (js "/p") (js "page=2&ref=abc")))))
       = [PushState (js "/p" ++ 63 :: searchParams)]
       /\ usp_getAll (js "page") (new_URLSearchParams searchParams) = [js "3"]
       /\ usp_getAll (js "q") (new_URLSearchParams searchParams) = [js "hello"]
       /\ usp_getAll (js "ref") (new_URLSearchParams searchParams) = [js "abc"].
Proof.
  split; [repeat split; vm_compute; reflexivity|].
  destruct (setState_writes_state_and_keeps_foreign_keys
              (page_q 1 "") default_options
              (mount (page_q 1 "") default_options (browser_at (js "/p") (js "page=2&ref=abc")))
              (page_at (js "/p") (js "page=2&ref=abc")) true
              (lit (page_q 3 "hello"))
              eq_refl eq_refl eq_refl eq_refl eq_refl (or_intror eq_refl))
    as (searchParams & _ & _ & Hev & Hstate & Hforeign).
  exists searchParams. repeat split.
  - exact Hev.
  - apply (Hstate (js "page") (VNum (number_of_Z 3))); [discriminate | reflexivity].
  - apply (Hstate (js "q") (VStr (js "hello"))); [discriminate | reflexivity].
  - rewrite (Hforeign (js "ref")); [reflexivity | discriminate | reflexivity | reflexivity].
Defined.

(** ** What a call of [setState] does, whatever the codec *)


(** ** From [setState] to the next render *)

Lemma escaped_uri_chars_ascii q :
  forallb is_uri_char q = true -> forallb is_ascii (flat_map escape_apostrophe q) = true.
Proof.
  induction q as [|c q IH]; intros H; [reflexivity|].
  cbn [forallb] in H. apply andb_true_iff in H as [Hc H].
  rewrite escape_cons, forallb_app, IH by exact H. rewrite andb_true_r.
  apply is_uri_char_range in Hc. unfold escape_apostrophe.
  destruct (c =? 39); [reflexivity|]. cbn [forallb]. rewrite andb_true_r.
  unfold is_ascii. zbool_goal; lia.
Qed.

(** The pairs of the location after a write are those of the query string
    written. *)
Lemma searchParams_after_write p q names :
  forallb is_uri_char q = true ->
  URL_searchParams {| pathname := p; query := flat_map escape_apostrophe q;
                      names_own_host := names |}
  = new_URLSearchParams q.
Proof.
  intros Hq. unfold URL_searchParams. cbn [query].
  rewrite ascii_utf8_bytes by now apply escaped_uri_chars_ascii.
  rewrite urlencoded_parse_escape.
  assert (Hascii : forallb is_ascii q = true).
  { revert Hq. apply forallb_impl. intros c Hc. apply is_uri_char_range in Hc.
    unfold is_ascii. zbool_goal; lia. }
  unfold new_URLSearchParams. destruct q as [|c q]; [reflexivity|].
  cbn [forallb] in Hq. apply andb_true_iff in Hq as [Hc _].
  apply is_uri_char_range in Hc.
  destruct (c =? 63) eqn:E; [apply Z.eqb_eq in E; lia|].
  now rewrite ascii_utf8_bytes.
Qed.

(** X16: A state written by [setState] is the state of the next render:
    with the default codec and no delegate, at a URL whose path starts with
    one slash and not with two, after [setState(state)] for a state of
    distinct keys of the defaults holding well-formed strings, numbers or
    arrays of two or more of them, the call returns and a first render at the
    new location has, under every key of that state, what its value reads
    back as (a number under a numeric default, an array of strings for an
    array, the string otherwise); the other entries of the URL do not
    interfere. *)
Theorem setState_then_render_reads_the_state_back
    (initialValue : literal) (options : UseQueryStringStateOptions) (s : session)
    (url : URL) (listen : bool) (st : obj)
    (Hcodec : queryString options = None)
    (Hsync : isSyncPathname_of options = true)
    (Hdelegate : onPathnameChange options = false)
    (Hwindow : window s = Some {| location := Href url; has_addEventListener := listen |})
    (Hpath : is_same_site_path (pathname url) = true)
    (Hquery : forallb is_code_unit (query url) = true)
    (Hschema : no_dup_keys (map fst initialValue) = true)
    (Hstate : round_trippable (own st) = true)
    (Hcover : forall k, get_own k (own st) <> None -> get_own k initialValue <> None) :
  snd (setState initialValue options (Value st) s) = Ok tt
  /\ forall k v,
       get_own k (own st) = Some v ->
       get_own k
         (own (state (mount initialValue options
                        (window (fst (setState initialValue options (Value st) s))))))
       = Some (read_back initialValue k v).
Proof.
  unfold round_trippable in Hstate. apply andb_true_iff in Hstate as [Hdup Hentries].
  pose proof (round_trippable_pairs _ Hentries) as Htexts.
  destruct (setState_of_default_run initialValue options (state s) (Value st) s url listen
              Hcodec Hwindow Hquery Htexts) as (q & Hrun & Hchars & Hback & Hmdup).
  cbn [next_state] in Hrun, Hback, Hmdup.
  rewrite setState_fresh, Hrun, Hdelegate.
  rewrite (pushState_same_site _ url listen q) by assumption.
  cbn [fst snd window]. split; [reflexivity|]. intros k v Hget.
  rewrite mount_sync by exact Hsync.
  destruct (round_trippable_lookup _ k v Hentries Hget) as (Hkwf & Hkproto & Hv).
  destruct (get_own k initialValue) as [d|] eqn:Hd;
    [|exfalso; apply (Hcover k); congruence].
  rewrite (reconciled_schema_key initialValue options _ listen k d);
    [|exact Hcodec | cbn [query]; now apply escaped_uri_chars_units
     | exact Hschema | exact Hkproto | exact Hd].
  rewrite searchParams_after_write by exact Hchars.
  assert (Hall : usp_getAll k (new_URLSearchParams q)
                 = match v with VArr items => map ToString items | _ => [ToString v] end).
  { rewrite Hback. rewrite usp_getAll_emitted by now apply no_dup_keys_NoDup.
    unfold merged_mapping. rewrite get_own_Object_assign, Hget by assumption.
    now apply (round_trippable_value_pairs k v). }
  assert (Hin : existsb (streqb k) (usp_keys (new_URLSearchParams q)) = true).
  { apply existsb_streqb, usp_getAll_keys. rewrite Hall.
    destruct v as [| | | | |items]; try discriminate.
    destruct items; [discriminate Hv | discriminate]. }
  now rewrite Hin, (parsed_value_read_back _ initialValue k v Hv Hall).
Qed.

Lemma setState_then_render_reads_the_state_back_witness :
  let s := mount (page_q 1 "") default_options (browser_at (js "/p") (js "page=2&ref=abc")) in
  let st := lit (page_q 3 "it's a&b") in
  (queryString default_options = None
   /\ isSyncPathname_of default_options = true
   /\ onPathnameChange default_options = false
   /\ is_same_site_path (js "/p") = true
   /\ forallb is_code_unit (js "page=2&ref=abc") = true
   /\ no_dup_keys (map fst (page_q 1 "")) = true
   /\ round_trippable (own st) = true)
  /\ get_own (js "q")
       (own (state (mount (page_q 1 "") default_options
                      (window (fst (setState (page_q 1 "") default_options (Value st) s))))))
     = Some (VStr (js "it's a&b"))
  /\ get_own (js "page")
       (own (state (mount (page_q 1 "") default_options
                      (window (fst (setState (page_q 1 "") default_options (Value st) s))))))
     = Some (VNum (number_of_Z 3)).
Proof.
  cbv zeta. split; [repeat split; vm_compute; reflexivity|].
  assert (Hcover : forall k, get_own k (own (lit (page_q 3 "it's a&b"))) <> None ->
                             get_own k (page_q 1 "") <> None).
  { intros k. cbn [own lit page_q get_own].
    destruct (streqb (js "page") k); [discriminate|].
    destruct (streqb (js "q") k); [discriminate | tauto]. }
  destruct (setState_then_render_reads_the_state_back
              (page_q 1 "") default_options
              (mount (page_q 1 "") default_options (browser_at (js "/p") (js "page=2&ref=abc")))
              (page_at (js "/p") (js "page=2&ref=abc")) true
              (lit (page_q 3 "it's a&b"))
              eq_refl eq_refl eq_refl eq_refl eq_refl eq_refl eq_refl eq_refl
              Hcover) as [_ Hread].
  split.
  - rewrite (Hread (js "q") (VStr (js "it's a&b")) eq_refl). reflexivity.
  - rewrite (Hread (js "page") (VNum (number_of_Z 3)) eq_refl). vm_compute. reflexivity.
Defined.

(** ** Failures inside [setState] *)

(** X17: The [setState] of a render has no handler around the codec: with
    the default codec at a URL, when the new state laid over what the URL
    parses to holds an unpaired surrogate in a key or a text to encode, the
    call throws a URIError after the state is stored and the observer is
    told, and the URL is not written: state and URL then differ. *)
Theorem setState_throws_after_storing_the_state
    (initialValue : literal) (options : UseQueryStringStateOptions)
    (captured : obj) (value : SetStateAction) (s : session) (url : URL) (listen : bool)
    (Hcodec : queryString options = None)
    (Hwindow : window s = Some {| location := Href url; has_addEventListener := listen |})
    (Hbad : emits_encodable
              (own (merged_mapping initialValue url
                      (next_state initialValue value captured))) = false) :
  setState_of initialValue options captured value s
  = ({| state := next_state initialValue value captured;
        window := window s;
        events := events s
                  ++ (if onValueChange options
                      then [ValueChange (next_state initialValue value captured)]
                      else []) |},
     Throw URIError).
Proof.
  unfold merged_mapping in Hbad.
  unfold setState_of, bind, _setState, get_window, lift, queryString_of.
  rewrite Hcodec. cbn [parse stringify createQueryString].
  change (match value with
          | Value v => v
          | Updater f => f captured
          | RESET => lit initialValue
          end) with (next_state initialValue value captured).
  destruct (onValueChange options); unfold emit, ret; cbn [state window events fst snd];
    rewrite Hwindow; cbn [location isValidUrl new_URL];
    rewrite stringifyQueryString_spec, Hbad; rewrite ?app_nil_r; reflexivity.
Qed.

Lemma setState_throws_after_storing_the_state_witness :
  let s := mount (page_q 1 "") default_options (browser_at (js "/p") (js "page=2")) in
  let f := fun o : obj => Obj (own o ++ [(js "q", VStr [0xD800])]) (proto o) in
  (queryString default_options = None
   /\ emits_encodable
        (own (merged_mapping (page_q 1 "") (page_at (js "/p") (js "page=2"))
                (next_state (page_q 1 "") (Updater f) empty_obj))) = false)
  /\ setState_of (page_q 1 "") default_options empty_obj (Updater f) s
     = ({| state := lit [(js "q", VStr [0xD800])]; window := window s; events := [] |},
        Throw URIError).
Proof.
  cbv zeta. split; [split; vm_compute; reflexivity|].
  rewrite (setState_throws_after_storing_the_state (page_q 1 "") default_options empty_obj
             (Updater (fun o : obj => Obj (own o ++ [(js "q", VStr [0xD800])]) (proto o)))
             (mount (page_q 1 "") default_options (browser_at (js "/p") (js "page=2")))
             (page_at (js "/p") (js "page=2")) true);
    [reflexivity | reflexivity | reflexivity | vm_compute; reflexivity].
Defined.

Lemma authority_units a :
  is_authority a = true ->
  a <> [] /\ forallb is_path_unit a = true
  /\ forallb (fun c => negb (is_slash c)) a = true.
Proof.
  destruct a as [|c a]; [discriminate|]. unfold is_authority. intros H.
  split; [discriminate|]. split; revert H; apply forallb_impl; intros x Hx;
    apply andb_true_iff in Hx as [Hu Hs]; [exact Hu|].
  apply is_path_unit_range in Hu. apply negb_true_iff, Z.eqb_neq in Hs.
  unfold is_slash. apply negb_true_iff, orb_false_iff.
  split; apply Z.eqb_neq; lia.
Qed.

Lemma split_authority_app a path :
  forallb (fun c => negb (is_slash c)) a = true -> is_path_tail path = true ->
  split_authority (a ++ path) = (a, path).
Proof.
  intros Ha Hpath. induction a as [|c a IH].
  - cbn [app]. destruct path as [|c path]; [reflexivity|].
    cbn [is_path_tail] in Hpath. apply andb_true_iff in Hpath as [Hc _].
    apply Z.eqb_eq in Hc. subst c. reflexivity.
  - cbn [forallb] in Ha. apply andb_true_iff in Ha as [Hc Ha].
    apply negb_true_iff in Hc. cbn [app split_authority]. now rewrite Hc, IH.
Qed.

(** A path of the page that starts with two slashes and the name of
    another host does not resolve to a URL that [history.pushState]
    accepts. *)
Lemma resolve_other_host base a path q :
  is_authority a = true -> is_path_tail path = true ->
  names_own_host base a = false -> forallb is_uri_char q = true ->
  resolve_URL base (47 :: 47 :: a ++ path ++ 63 :: q) = None.
Proof.
  intros Ha Hpath Hother Hq.
  destruct (authority_units a Ha) as (Hne & Haunits & Hnoslash).
  assert (Hpunits : forallb is_path_unit path = true).
  { destruct path as [|c path]; [reflexivity|]. cbn [is_path_tail] in Hpath.
    now apply andb_true_iff in Hpath as [_ Hpath]. }
  assert (Hunits : forallb is_path_unit (47 :: 47 :: a ++ path) = true)
    by (cbn [forallb]; rewrite forallb_app, Haunits, Hpunits; reflexivity).
  destruct (path_units_visible _ Hunits) as (Hvis & H35 & H63).
  destruct (uri_chars_visible q Hq) as (Hqvis & Hq35).
  change (47 :: 47 :: a ++ path ++ 63 :: q) with ((47 :: 47 :: a) ++ path ++ 63 :: q).
  rewrite app_assoc.
  change ((47 :: 47 :: a) ++ path) with (47 :: 47 :: a ++ path).
  unfold resolve_URL.
  rewrite url_input_visible
    by (rewrite forallb_app; cbn [forallb] in *; now rewrite Hvis, Hqvis).
  rewrite (split_first_free 35 ((47 :: 47 :: a ++ path) ++ 63 :: q))
    by (unfold free_of in *; rewrite forallb_app; cbn [forallb] in *; now rewrite H35, Hq35).
  rewrite (split_first_app 63 (47 :: 47 :: a ++ path) q) by exact H63.
  cbn [fst snd]. change (is_slash 47) with true. cbv iota.
  cbn [skip_slashes]. change (is_slash 47) with true. cbv iota.
  destruct a as [|c a]; [congruence|].
  cbn [forallb] in Hnoslash. apply andb_true_iff in Hnoslash as [Hc Hnoslash].
  apply negb_true_iff in Hc. cbn [app skip_slashes]. rewrite Hc.
  change (c :: a ++ path) with ((c :: a) ++ path).
  rewrite split_authority_app;
    [| cbn [forallb]; now rewrite Hc, Hnoslash | exact Hpath].
  now rewrite Hother.
Qed.

(** X18: [setState] has no handler around [history.pushState] either: with
    the default codec and no delegate, on a page whose path starts with two
    slashes and a name that is not the host of the page (as
    [http://example.org//evil/x]), the URL to write names another host, the
    call throws a SecurityError after the state is stored and the observer
    is told, and neither the history nor the location changes. *)
Theorem setState_throws_where_the_path_names_a_host
    (initialValue : literal) (options : UseQueryStringStateOptions)
    (captured : obj) (value : SetStateAction) (s : session) (url : URL) (listen : bool)
    (authority path : jsstring)
    (Hcodec : queryString options = None)
    (Hdelegate : onPathnameChange options = false)
    (Hwindow : window s = Some {| location := Href url; has_addEventListener := listen |})
    (Hquery : forallb is_code_unit (query url) = true)
    (Htexts : pairs_well_formed
                (emitted_pairs (own (next_state initialValue value captured))) = true)
    (Hpath : pathname url = 47 :: 47 :: authority ++ path)
    (Hauthority : is_authority authority = true)
    (Htail : is_path_tail path = true)
    (Hother : names_own_host url authority = false) :
  setState_of initialValue options captured value s
  = ({| state := next_state initialValue value captured;
        window := window s;
        events := events s
                  ++ (if onValueChange options
                      then [ValueChange (next_state initialValue value captured)]
                      else []) |},
     Throw SecurityError).
Proof.
  destruct (setState_of_default_run initialValue options captured value s url listen
              Hcodec Hwindow Hquery Htexts) as (q & Hrun & Hchars & _).
  rewrite Hrun, Hdelegate. unfold pushState. cbn [window]. rewrite Hwindow.
  cbn [location]. rewrite Hpath.
  change ((47 :: 47 :: authority ++ path) ++ 63 :: q)
    with (47 :: 47 :: (authority ++ path) ++ 63 :: q).
  rewrite <- app_assoc.
  now rewrite resolve_other_host.
Qed.

Lemma setState_throws_where_the_path_names_a_host_witness :
  let s := mount (page 1) default_options (browser_at (js "//evil/x") (js "page=2")) in
  (queryString default_options = None
   /\ onPathnameChange default_options = false
   /\ forallb is_code_unit (js "page=2") = true
   /\ js "//evil/x" = 47 :: 47 :: js "evil" ++ js "/x"
   /\ is_authority (js "evil") = true
   /\ is_path_tail (js "/x") = true
   /\ example_org (js "evil") = false)
  /\ setState_of (page 1) default_options (state s) (Value (lit (page 3))) s
     = ({| state := lit (page 3); window := window s; events := [] |},
        Throw SecurityError).
Proof.
  cbv zeta. split; [repeat split; vm_compute; reflexivity|].
  rewrite (setState_throws_where_the_path_names_a_host (page 1) default_options
             (state (mount (page 1) default_options
                       (browser_at (js "//evil/x") (js "page=2"))))
             (Value (lit (page 3)))
             (mount (page 1) default_options (browser_at (js "//evil/x") (js "page=2")))
             (page_at (js "//evil/x") (js "page=2")) true (js "evil") (js "/x"));
    [reflexivity | reflexivity | reflexivity | reflexivity | reflexivity
    | reflexivity | reflexivity | reflexivity | reflexivity | reflexivity].
Defined.
